(** * canonical-imaging: the processing pipeline of [djimaging/processing.py]

    The five [make] steps of the pipeline (Processing, MotionCorrection,
    MotionCorrectedImages, Segmentation, Fluorescence) are embedded over an
    explicit record store and an error monad.

    - The record store is the list of all rows, each tagged with its table;
      a table is the sub-list of its rows, in insertion order.
    - An insert rejects a row whose primary key is already present
      ([DuplicateError]).  Foreign keys and column widths declared in the
      [definition] strings are not enforced by [insert]: referential
      integrity is a property stated and proved (or refuted) about the rows
      a [make] step writes.
    - An exception raised inside [make] discards the store built so far:
      the step runs as one transaction.
    - What a [make] step reads from outside the store (path functions, file
      system, the suite2p loader, [numpy.nanstd]) is the record [Env].
    - The loader classes, [imaging.ScanInfo.Field] and the pass over the
      eligible keys are not in the source tree; their definitions are marked
      [Modelled from the spec].
    - The two functions of [img_loaders/__init__.py], which read the header
      of a scan, are the module [img_loaders]. *)

From Stdlib Require Import List String Ascii ZArith Bool Arith Lia.
Import ListNotations.
Local Open Scope string_scope.
Local Open Scope list_scope.

(** ** Exceptions and results *)

Inductive exn : Type :=
| NotImplementedError (msg : string)
| DataJointError      (* fetch1 on a relation without exactly one row *)
| DuplicateError      (* insert of a primary key already present *)
| KeyError            (* dict subscript on a missing key *)
| TypeError           (* pathlib.Path(None) *)
| ValueError          (* Path.relative_to outside the root *)
| AttributeError      (* attribute missing on an object *)
| LoaderError (msg : string).  (* raised while the loader reads its directory *)

Inductive Result (A : Type) : Type :=
| Ok (a : A)
| Raise (e : exn).
Arguments Ok {A} a.
Arguments Raise {A} e.

Definition rbind {A B} (r : Result A) (f : A -> Result B) : Result B :=
  match r with Ok a => f a | Raise e => Raise e end.

Fixpoint rmap {A B} (f : A -> Result B) (l : list A) : Result (list B) :=
  match l with
  | [] => Ok []
  | x :: xs => rbind (f x) (fun y => rbind (rmap f xs) (fun ys => Ok (y :: ys)))
  end.

(** ** Payload data *)

(** A double, kept as its bit pattern: this code never computes on one
    except through [numpy.nanstd]. *)
Inductive Float : Type := float_bits (b : Z).

Definition Array := list Float.          (* 1-D ndarray *)
Definition Image := list (list Float).   (* 2-D ndarray, row major *)

(** A 2-D ndarray with its column count, so that [.T] of an array without
    rows still has its columns. *)
Record Ndarray2 : Type := { ncols : nat; rows2 : list (list Float) }.

(** [a.T], iterated: the columns of [a]. *)
Definition T (a : Ndarray2) : list Array :=
  map (fun j => flat_map (fun r => firstn 1 (skipn j r)) (rows2 a))
      (seq 0 (ncols a)).

Definition enumerate {A} (l : list A) : list (nat * A) :=
  combine (seq 0 (List.length l)) l.

Definition zip := @combine.
Arguments zip {A B} l l'.

(** ** Keys *)

(** Modelled from the spec: [imaging.Scan] is not in the source tree; the
    data model gives a scan's key as a scan id. *)
Definition ScanKey := string.

(** Primary key of ProcessingTask ([-> Scan], [processing_instance]); every
    table below [-> ProcessingTask] inherits it. *)
Record TaskKey : Type := { scan : ScanKey; processing_instance : string }.

Definition key_eqb (a b : TaskKey) : bool :=
  (scan a =? scan b) && (processing_instance a =? processing_instance b).

(** Primary key of [ScanInfo.Field * ProcessingTask]. *)
Record FieldKey : Type := { fk_task : TaskKey; field_idx : Z }.

(** A Python dict in insertion order. *)
Definition dict (V : Type) := list (Z * V).

Fixpoint dict_get {V} (d : dict V) (k : Z) : Result V :=
  match d with
  | [] => Raise KeyError
  | (k', v) :: d' => if Z.eqb k' k then Ok v else dict_get d' k
  end.

Definition dict_items {V} (d : dict V) : list (Z * V) := d.
Definition dict_values {V} (d : dict V) : list V := map snd d.

(** ** The loader's output *)

Module suite2p.

Record Stat : Type := {
  npix : Z;
  med  : Z * Z;          (* (y, x) *)
  xpix : list Z;
  ypix : list Z;
  lam  : Array }.

Record Ops : Type := {
  yoff : Array;
  xoff : Array;
  badframes : list bool;
  nonrigid : bool;
  block_size : Z * Z;
  nblocks : Z * Z;
  xblock : list (Z * Z);
  yblock : list (Z * Z);
  yoff1 : Ndarray2;
  xoff1 : Ndarray2 }.

(** Modelled from the spec: the loader module [img_loaders.suite2p] is not in
    the source tree.  A plane result carries what the [make] steps read from
    it (spec 4.2: alignment channel, shifts, block geometry, summary images,
    per-cell stats, fluorescence per channel). *)
Record PlaneSuite2p : Type := {
  ops : Ops;
  alignment_channel : Z;
  segmentation_channel : Z;
  ref_image : Image;
  mean_image : Image;
  correlation_map : Image;
  max_proj_image : Image;
  iscell : list bool;
  cell_prob : list Float;
  stat : list Stat;
  F : list Array;
  Fneu : list Array;
  F_chan2 : list Array;
  Fneu_chan2 : list Array }.

(** Modelled from the spec: the loader handle (spec 4.2) has the plane
    results, [creation_time] and [curation_time]; times are microseconds
    since the epoch.  [items] is what [s2p_loader.items()] evaluates to on
    the handle itself: [None] when the class has no such method. *)
Record Suite2p : Type := {
  planes : dict PlaneSuite2p;
  creation_time : Z;
  curation_time : Z;
  items : option (list (Z * PlaneSuite2p)) }.

End suite2p.

(** ** Collaborators *)

Definition Path := list string.

Fixpoint relative_to (p root : Path) : Result Path :=
  match root with
  | [] => Ok p
  | r :: rs =>
      match p with
      | [] => Raise ValueError
      | c :: cs => if c =? r then relative_to cs rs else Raise ValueError
      end
  end.

Definition as_posix (p : Path) : string := String.concat "/" p.

(** [pathlib.Path(x)]: [x] is [None] when the deployment did not provide the
    function (the bodies under [@optional] return [None]). *)
Definition pathlib_Path (x : option Path) : Result Path :=
  match x with Some p => Ok p | None => Raise TypeError end.

(** What a [make] step reads from outside the record store. *)
Record Env : Type := {
  _get_suite2p_dir : TaskKey -> option Path;
  _get_root_data_dir : option Path;
  exists_ : Path -> bool;
  glob_star : Path -> list Path;
  is_file : Path -> bool;
  Suite2p : Path -> Result suite2p.Suite2p;
  nanstd : Array -> Float }.

(** ** Rows *)

Module TaskRow.
Record t : Type := {
  key : TaskKey;
  processing_method : string;
  paramset_idx : Z }.
End TaskRow.

(** Modelled from the spec: [imaging.ScanInfo.Field] is not in the source
    tree; the [make] steps restrict it by scan and by ['plane'] and take its
    primary key. *)
Module FieldRow.
Record t : Type := {
  scan_key : ScanKey;
  field : Z;
  plane : Z }.
End FieldRow.

Module ProcessingRow.
Record t : Type := {
  key : TaskKey;
  start_time : option Z;
  completion_time : Z;
  curation_time : option Z }.
End ProcessingRow.

Module OutputFileRow.
Record t : Type := { key : TaskKey; file_path : string }.
End OutputFileRow.

Module MotionCorrectionRow.
Record t : Type := { key : TaskKey; mc_channel : Z }.
End MotionCorrectionRow.

Module RigidRow.
Record t : Type := {
  key : FieldKey;
  outlier_frames : list bool;
  y_shifts : Array;
  x_shifts : Array;
  y_std : Float;
  x_std : Float }.
End RigidRow.

Module NonRigidRow.
Record t : Type := {
  key : FieldKey;
  outlier_frames : list bool;
  block_height : Z;
  block_width : Z;
  block_count_y : Z;
  block_count_x : Z }.
End NonRigidRow.

Module BlockRow.
Record t : Type := {
  key : FieldKey;
  block_id : nat;
  block_y : Z * Z;
  block_x : Z * Z;
  y_shifts : Array;
  x_shifts : Array;
  y_std : Float;
  x_std : Float }.
End BlockRow.

Module ImagesRow.
Record t : Type := {
  key : FieldKey;
  ref_image : Image;
  average_image : Image;
  correlation_image : Image;
  max_proj_image : Image }.
End ImagesRow.

Module SegmentationRow.
Record t : Type := { key : TaskKey; seg_channel : Z }.
End SegmentationRow.

Module MaskRow.
Record t : Type := {
  key : TaskKey;
  mask : nat;
  field : Z;
  npix : Z;
  center_x : Z;
  center_y : Z;
  xpix : list Z;
  ypix : list Z;
  weights : Array }.
End MaskRow.

Module CellRow.
Record t : Type := {
  key : TaskKey;
  mask : nat;
  is_cell : bool;
  cell_prob : Float }.
End CellRow.

Module TraceRow.
Record t : Type := {
  key : TaskKey;
  mask : nat;
  fluo_channel : Z;
  fluo : Array;
  neuropil_fluo : Array }.
End TraceRow.

(** ** The record store *)

Inductive Row : Type :=
| R_ProcessingMethod (m : string)
| R_ProcessingTask (r : TaskRow.t)
| R_ScanInfo (s : ScanKey)
| R_Field (r : FieldRow.t)
| R_PhysicalFile (file_path : string)
| R_Processing (r : ProcessingRow.t)
| R_ProcessingOutputFile (r : OutputFileRow.t)
| R_MotionCorrection (r : MotionCorrectionRow.t)
| R_RigidMotionCorrection (r : RigidRow.t)
| R_NonRigidMotionCorrection (r : NonRigidRow.t)
| R_Block (r : BlockRow.t)
| R_MotionCorrectedImages (r : ImagesRow.t)
| R_Segmentation (r : SegmentationRow.t)
| R_Mask (r : MaskRow.t)
| R_Cell (r : CellRow.t)
| R_Fluorescence (k : TaskKey)
| R_Trace (r : TraceRow.t).

Definition Store := list Row.

(** Primary keys: the table's name followed by the key attributes. *)
Inductive atom : Type := AS (s : string) | AZ (z : Z) | AN (n : nat).

Definition PK := list atom.

Definition atom_eq_dec (a b : atom) : {a = b} + {a <> b}.
Proof. decide equality; [apply string_dec | apply Z.eq_dec | apply Nat.eq_dec]. Defined.

Definition pk_eq_dec : forall a b : PK, {a = b} + {a <> b} := list_eq_dec atom_eq_dec.

Definition task_atoms (k : TaskKey) : list atom :=
  [AS (scan k); AS (processing_instance k)].

Definition field_atoms (k : FieldKey) : list atom :=
  task_atoms (fk_task k) ++ [AZ (field_idx k)].

Definition pk (r : Row) : PK :=
  match r with
  | R_ProcessingMethod m => [AS "ProcessingMethod"; AS m]
  | R_ProcessingTask r => AS "ProcessingTask" :: task_atoms (TaskRow.key r)
  | R_ScanInfo s => [AS "ScanInfo"; AS s]
  | R_Field r => [AS "ScanInfo.Field"; AS (FieldRow.scan_key r); AZ (FieldRow.field r)]
  | R_PhysicalFile f => [AS "PhysicalFile"; AS f]
  | R_Processing r => AS "Processing" :: task_atoms (ProcessingRow.key r)
  | R_ProcessingOutputFile r =>
      AS "Processing.ProcessingOutputFile"
        :: task_atoms (OutputFileRow.key r) ++ [AS (OutputFileRow.file_path r)]
  | R_MotionCorrection r => AS "MotionCorrection" :: task_atoms (MotionCorrectionRow.key r)
  | R_RigidMotionCorrection r =>
      AS "MotionCorrection.RigidMotionCorrection" :: field_atoms (RigidRow.key r)
  | R_NonRigidMotionCorrection r =>
      AS "MotionCorrection.NonRigidMotionCorrection" :: field_atoms (NonRigidRow.key r)
  | R_Block r =>
      AS "MotionCorrection.Block" :: field_atoms (BlockRow.key r) ++ [AN (BlockRow.block_id r)]
  | R_MotionCorrectedImages r => AS "MotionCorrectedImages" :: field_atoms (ImagesRow.key r)
  | R_Segmentation r => AS "Segmentation" :: task_atoms (SegmentationRow.key r)
  | R_Mask r => AS "Segmentation.Mask" :: task_atoms (MaskRow.key r) ++ [AN (MaskRow.mask r)]
  | R_Cell r => AS "Segmentation.Cell" :: task_atoms (CellRow.key r) ++ [AN (CellRow.mask r)]
  | R_Fluorescence k => AS "Fluorescence" :: task_atoms k
  | R_Trace r =>
      AS "Fluorescence.Trace"
        :: task_atoms (TraceRow.key r) ++ [AN (TraceRow.mask r); AZ (TraceRow.fluo_channel r)]
  end.

Definition has_pk (st : Store) (k : PK) : bool :=
  existsb (fun r => if pk_eq_dec (pk r) k then true else false) st.

(** ** The monad of a [make] step: the store is threaded, an exception
    abandons it. *)

Definition M (A : Type) : Type := Store -> Result (A * Store).

Definition ret {A} (a : A) : M A := fun st => Ok (a, st).

Definition bind {A B} (m : M A) (f : A -> M B) : M B :=
  fun st => match m st with
            | Ok (a, st') => f a st'
            | Raise e => Raise e
            end.

Definition raise {A} (e : exn) : M A := fun _ => Raise e.

(** A computation outside the store. *)
Definition lift {A} (r : Result A) : M A :=
  fun st => match r with Ok a => Ok (a, st) | Raise e => Raise e end.

(** A query on the store. *)
Definition query {A} (q : Store -> Result A) : M A := fun st => lift (q st) st.

Notation "x <- c ;; k" := (bind c (fun x => k))
  (at level 61, c at next level, right associativity).
Notation "c ;;; k" := (bind c (fun _ => k))
  (at level 61, right associativity).

(** [insert1]: one row, its primary key must be new. *)
Definition insert1 (r : Row) : M unit :=
  fun st => if has_pk st (pk r) then Raise DuplicateError else Ok (tt, st ++ [r]).

(** [insert]: the rows in order, as one statement. *)
Fixpoint insert (rows : list Row) : M unit :=
  match rows with
  | [] => ret tt
  | r :: rest => insert1 r ;;; insert rest
  end.

(** [insert(..., skip_duplicates=True)]. *)
Fixpoint insert_skip_duplicates (rows : list Row) : M unit :=
  match rows with
  | [] => ret tt
  | r :: rest =>
      (fun st => if has_pk st (pk r) then Ok (tt, st) else Ok (tt, st ++ [r])) ;;;
      insert_skip_duplicates rest
  end.

(** [fetch1]: the relation must hold exactly one row. *)
Definition fetch1 {A} (l : list A) : Result A :=
  match l with
  | [x] => Ok x
  | _ => Raise DataJointError
  end.

(** ** Lookup and manual tables *)

Module ProcessingMethod.
Definition rows (st : Store) : list string :=
  flat_map (fun r => match r with R_ProcessingMethod m => [m] | _ => [] end) st.
Definition contents : list string := ["suite2p"; "caiman"].
End ProcessingMethod.

Module ProcessingTask.
Definition rows (st : Store) : list TaskRow.t :=
  flat_map (fun r => match r with R_ProcessingTask t => [t] | _ => [] end) st.
End ProcessingTask.

Module ScanInfo.
Definition rows (st : Store) : list ScanKey :=
  flat_map (fun r => match r with R_ScanInfo s => [s] | _ => [] end) st.
Module Field.
Definition rows (st : Store) : list FieldRow.t :=
  flat_map (fun r => match r with R_Field f => [f] | _ => [] end) st.
End Field.
End ScanInfo.

Module PhysicalFile.
Definition rows (st : Store) : list string :=
  flat_map (fun r => match r with R_PhysicalFile f => [f] | _ => [] end) st.
End PhysicalFile.

(** [(ProcessingMethod * ProcessingTask & key).fetch1('processing_method')] *)
Definition fetch1_processing_method (st : Store) (key : TaskKey) : Result string :=
  fetch1
    (flat_map
       (fun m =>
          flat_map
            (fun t =>
               if (m =? TaskRow.processing_method t) && key_eqb (TaskRow.key t) key
               then [m] else [])
            (ProcessingTask.rows st))
       (ProcessingMethod.rows st)).

(** [(ScanInfo.Field * ProcessingTask & key & {'plane': plane}).fetch1('KEY')] *)
Definition fetch1_field_key (st : Store) (key : TaskKey) (plane : Z) : Result FieldKey :=
  fetch1
    (flat_map
       (fun f =>
          flat_map
            (fun t =>
               if (FieldRow.scan_key f =? scan (TaskRow.key t))
                  && key_eqb (TaskRow.key t) key
                  && Z.eqb (FieldRow.plane f) plane
               then [{| fk_task := TaskRow.key t; field_idx := FieldRow.field f |}]
               else [])
            (ProcessingTask.rows st))
       (ScanInfo.Field.rows st)).

(** ** Processing *)

Module Processing.

Definition rows (st : Store) : list ProcessingRow.t :=
  flat_map (fun r => match r with R_Processing p => [p] | _ => [] end) st.

Module ProcessingOutputFile.
Definition rows (st : Store) : list OutputFileRow.t :=
  flat_map (fun r => match r with R_ProcessingOutputFile p => [p] | _ => [] end) st.
End ProcessingOutputFile.

(** [ProcessingTask & ScanInfo]: the tasks whose scan has a ScanInfo row. *)
Definition key_source (st : Store) : list TaskKey :=
  filter (fun k => existsb (String.eqb (scan k)) (ScanInfo.rows st))
         (map TaskRow.key (ProcessingTask.rows st)).

Definition make (env : Env) (key : TaskKey) : M unit :=
  method <- query (fun st => fetch1_processing_method st key) ;;
  if method =? "suite2p" then
    data_dir <- lift (pathlib_Path (_get_suite2p_dir env key)) ;;
    if exists_ env data_dir then
      s2p_loader <- lift (Suite2p env data_dir) ;;
      insert1 (R_Processing
                 {| ProcessingRow.key := key;
                    ProcessingRow.start_time := None;
                    ProcessingRow.completion_time := suite2p.creation_time s2p_loader;
                    ProcessingRow.curation_time := Some (suite2p.curation_time s2p_loader) |}) ;;;
      root <- lift (pathlib_Path (_get_root_data_dir env)) ;;
      files <- lift (rmap (fun f => rbind (relative_to f root) (fun p => Ok (as_posix p)))
                          (filter (is_file env) (glob_star env data_dir))) ;;
      insert_skip_duplicates (map R_PhysicalFile files) ;;;
      insert (map (fun f => R_ProcessingOutputFile
                              {| OutputFileRow.key := key; OutputFileRow.file_path := f |})
                  files)
    else
      (* start_time = datetime.now(); the trigger is a stub *)
      ret tt
  else raise (NotImplementedError ("Unknown method: " ++ method)).

End Processing.

(** ** Motion correction *)

Module MotionCorrection.

Definition rows (st : Store) : list MotionCorrectionRow.t :=
  flat_map (fun r => match r with R_MotionCorrection p => [p] | _ => [] end) st.

Module RigidMotionCorrection.
Definition rows (st : Store) : list RigidRow.t :=
  flat_map (fun r => match r with R_RigidMotionCorrection p => [p] | _ => [] end) st.
End RigidMotionCorrection.

Module NonRigidMotionCorrection.
Definition rows (st : Store) : list NonRigidRow.t :=
  flat_map (fun r => match r with R_NonRigidMotionCorrection p => [p] | _ => [] end) st.
End NonRigidMotionCorrection.

Module Block.
Definition rows (st : Store) : list BlockRow.t :=
  flat_map (fun r => match r with R_Block p => [p] | _ => [] end) st.
End Block.

Definition rigid_mc (env : Env) (mc_key : FieldKey) (s2p : suite2p.PlaneSuite2p) : RigidRow.t :=
  let o := suite2p.ops s2p in
  {| RigidRow.key := mc_key;
     RigidRow.y_shifts := suite2p.yoff o;
     RigidRow.x_shifts := suite2p.xoff o;
     RigidRow.y_std := nanstd env (suite2p.yoff o);
     RigidRow.x_std := nanstd env (suite2p.xoff o);
     RigidRow.outlier_frames := suite2p.badframes o |}.

Definition nonrigid_mc (mc_key : FieldKey) (s2p : suite2p.PlaneSuite2p) : NonRigidRow.t :=
  let o := suite2p.ops s2p in
  {| NonRigidRow.key := mc_key;
     NonRigidRow.block_height := fst (suite2p.block_size o);
     NonRigidRow.block_width := snd (suite2p.block_size o);
     NonRigidRow.block_count_y := fst (suite2p.nblocks o);
     NonRigidRow.block_count_x := snd (suite2p.nblocks o);
     NonRigidRow.outlier_frames := suite2p.badframes o |}.

(** The comprehension binds [(b_y, b_x, ...)] to [zip(xblock, yblock, ...)],
    in that order. *)
Definition nr_blocks (env : Env) (mc_key : FieldKey) (s2p : suite2p.PlaneSuite2p)
  : list BlockRow.t :=
  let o := suite2p.ops s2p in
  map (fun '(b_id, (b_y, (b_x, (bshift_y, bshift_x)))) =>
         {| BlockRow.key := mc_key;
            BlockRow.block_id := b_id;
            BlockRow.block_y := b_y;
            BlockRow.block_x := b_x;
            BlockRow.y_shifts := bshift_y;
            BlockRow.x_shifts := bshift_x;
            BlockRow.y_std := nanstd env bshift_y;
            BlockRow.x_std := nanstd env bshift_x |})
      (enumerate (zip (suite2p.xblock o)
                      (zip (suite2p.yblock o)
                           (zip (T (suite2p.yoff1 o)) (T (suite2p.xoff1 o)))))).

(** The body of [for plane, s2p in s2p_loader.planes.items()]. *)
Definition plane_step (env : Env) (key : TaskKey) (plane : Z) (s2p : suite2p.PlaneSuite2p)
  : M unit :=
  mc_key <- query (fun st => fetch1_field_key st key plane) ;;
  insert1 (R_RigidMotionCorrection (rigid_mc env mc_key s2p)) ;;;
  if suite2p.nonrigid (suite2p.ops s2p) then
    insert1 (R_NonRigidMotionCorrection (nonrigid_mc mc_key s2p)) ;;;
    insert (map R_Block (nr_blocks env mc_key s2p))
  else ret tt.

Fixpoint plane_loop (env : Env) (key : TaskKey) (its : list (Z * suite2p.PlaneSuite2p))
  : M unit :=
  match its with
  | [] => ret tt
  | (plane, s2p) :: rest => plane_step env key plane s2p ;;; plane_loop env key rest
  end.

Definition make (env : Env) (key : TaskKey) : M unit :=
  method <- query (fun st => fetch1_processing_method st key) ;;
  if method =? "suite2p" then
    data_dir <- lift (pathlib_Path (_get_suite2p_dir env key)) ;;
    s2p_loader <- lift (Suite2p env data_dir) ;;
    plane0 <- lift (dict_get (suite2p.planes s2p_loader) 0%Z) ;;
    let align_chn := suite2p.alignment_channel plane0 in
    insert1 (R_MotionCorrection
               {| MotionCorrectionRow.key := key;
                  MotionCorrectionRow.mc_channel := align_chn |}) ;;;
    plane_loop env key (dict_items (suite2p.planes s2p_loader))
  else raise (NotImplementedError ("Unknown/unimplemented method: " ++ method)).

End MotionCorrection.

Module MotionCorrectedImages.

Definition rows (st : Store) : list ImagesRow.t :=
  flat_map (fun r => match r with R_MotionCorrectedImages p => [p] | _ => [] end) st.

(** [key_source = MotionCorrection()] *)
Definition key_source (st : Store) : list TaskKey :=
  map MotionCorrectionRow.key (MotionCorrection.rows st).

Definition img_row (mc_key : FieldKey) (s2p : suite2p.PlaneSuite2p) : ImagesRow.t :=
  {| ImagesRow.key := mc_key;
     ImagesRow.ref_image := suite2p.ref_image s2p;
     ImagesRow.average_image := suite2p.mean_image s2p;
     ImagesRow.correlation_image := suite2p.correlation_map s2p;
     ImagesRow.max_proj_image := suite2p.max_proj_image s2p |}.

Fixpoint plane_loop (key : TaskKey) (its : list (Z * suite2p.PlaneSuite2p)) : M unit :=
  match its with
  | [] => ret tt
  | (plane, s2p) :: rest =>
      mc_key <- query (fun st => fetch1_field_key st key plane) ;;
      insert1 (R_MotionCorrectedImages (img_row mc_key s2p)) ;;;
      plane_loop key rest
  end.

(** The loop is over [s2p_loader.items()], on the loader handle itself. *)
Definition make (env : Env) (key : TaskKey) : M unit :=
  method <- query (fun st => fetch1_processing_method st key) ;;
  if method =? "suite2p" then
    data_dir <- lift (pathlib_Path (_get_suite2p_dir env key)) ;;
    s2p_loader <- lift (Suite2p env data_dir) ;;
    its <- lift (match suite2p.items s2p_loader with
                 | Some its => Ok its
                 | None => Raise AttributeError
                 end) ;;
    plane_loop key its
  else raise (NotImplementedError ("Unknown/unimplemented method: " ++ method)).

End MotionCorrectedImages.

(** ** Segmentation *)

Module Segmentation.

Definition rows (st : Store) : list SegmentationRow.t :=
  flat_map (fun r => match r with R_Segmentation p => [p] | _ => [] end) st.

Module Mask.
Definition rows (st : Store) : list MaskRow.t :=
  flat_map (fun r => match r with R_Mask p => [p] | _ => [] end) st.
End Mask.

Module Cell.
Definition rows (st : Store) : list CellRow.t :=
  flat_map (fun r => match r with R_Cell p => [p] | _ => [] end) st.
End Cell.

(** One entry of [masks]: the fields of a Mask row and of a Cell row. *)
Record mask_dict : Type := {
  seg_key : FieldKey;
  mask : nat;
  is_cell : bool;
  cell_prob : Float;
  npix : Z;
  center_x : Z;
  center_y : Z;
  xpix : list Z;
  ypix : list Z;
  weights : Array }.

Definition plane_masks (seg_key : FieldKey) (mask_count : nat) (s2p : suite2p.PlaneSuite2p)
  : list mask_dict :=
  map (fun '(mask_idx, (is_cell, (cell_prob, mask_stat))) =>
         {| seg_key := seg_key;
            mask := mask_idx + mask_count;
            is_cell := is_cell;
            cell_prob := cell_prob;
            npix := suite2p.npix mask_stat;
            center_x := snd (suite2p.med mask_stat);
            center_y := fst (suite2p.med mask_stat);
            xpix := suite2p.xpix mask_stat;
            ypix := suite2p.ypix mask_stat;
            weights := suite2p.lam mask_stat |})
      (enumerate (zip (suite2p.iscell s2p)
                      (zip (suite2p.cell_prob s2p) (suite2p.stat s2p)))).

(** [for plane, s2p in s2p_loader.planes.items()], with [masks] as the
    accumulator. *)
Fixpoint plane_loop (key : TaskKey) (its : list (Z * suite2p.PlaneSuite2p))
         (masks : list mask_dict) : M (list mask_dict) :=
  match its with
  | [] => ret masks
  | (plane, s2p) :: rest =>
      seg_key <- query (fun st => fetch1_field_key st key plane) ;;
      let mask_count := List.length masks in
      plane_loop key rest (masks ++ plane_masks seg_key mask_count s2p)
  end.

(** [ignore_extra_fields=True]: each table takes its own columns. *)
Definition Mask_row (d : mask_dict) : MaskRow.t :=
  {| MaskRow.key := fk_task (seg_key d);
     MaskRow.mask := mask d;
     MaskRow.field := field_idx (seg_key d);
     MaskRow.npix := npix d;
     MaskRow.center_x := center_x d;
     MaskRow.center_y := center_y d;
     MaskRow.xpix := xpix d;
     MaskRow.ypix := ypix d;
     MaskRow.weights := weights d |}.

Definition Cell_row (d : mask_dict) : CellRow.t :=
  {| CellRow.key := fk_task (seg_key d);
     CellRow.mask := mask d;
     CellRow.is_cell := is_cell d;
     CellRow.cell_prob := cell_prob d |}.

Definition make (env : Env) (key : TaskKey) : M unit :=
  method <- query (fun st => fetch1_processing_method st key) ;;
  if method =? "suite2p" then
    data_dir <- lift (pathlib_Path (_get_suite2p_dir env key)) ;;
    s2p_loader <- lift (Suite2p env data_dir) ;;
    plane0 <- lift (dict_get (suite2p.planes s2p_loader) 0%Z) ;;
    let seg_channel := suite2p.segmentation_channel plane0 in
    insert1 (R_Segmentation
               {| SegmentationRow.key := key;
                  SegmentationRow.seg_channel := seg_channel |}) ;;;
    masks <- plane_loop key (dict_items (suite2p.planes s2p_loader)) [] ;;
    insert (map (fun d => R_Mask (Mask_row d)) masks) ;;;
    insert (map (fun d => R_Cell (Cell_row d)) masks)
  else raise (NotImplementedError ("Unknown/unimplemented method: " ++ method)).

End Segmentation.

(** ** Fluorescence *)

Module Fluorescence.

Definition rows (st : Store) : list TaskKey :=
  flat_map (fun r => match r with R_Fluorescence k => [k] | _ => [] end) st.

Module Trace.
Definition rows (st : Store) : list TraceRow.t :=
  flat_map (fun r => match r with R_Trace p => [p] | _ => [] end) st.
End Trace.

Definition channel_traces (key : TaskKey) (mask_count : nat) (fluo_channel : Z)
           (Fs Fneus : list Array) : list TraceRow.t :=
  map (fun '(mask_idx, (f, fneu)) =>
         {| TraceRow.key := key;
            TraceRow.mask := mask_idx + mask_count;
            TraceRow.fluo_channel := fluo_channel;
            TraceRow.fluo := f;
            TraceRow.neuropil_fluo := fneu |})
      (enumerate (zip Fs Fneus)).

(** The body of [for s2p in s2p_loader.planes.values()]: [mask_count] is
    [len(fluo_traces)] on entry. *)
Definition plane_step (key : TaskKey) (fluo_traces : list TraceRow.t)
           (s2p : suite2p.PlaneSuite2p) : list TraceRow.t :=
  let mask_count := List.length fluo_traces in
  let fluo_traces :=
    fluo_traces ++ channel_traces key mask_count 0%Z (suite2p.F s2p) (suite2p.Fneu s2p) in
  if Nat.eqb (List.length (suite2p.F_chan2 s2p)) 0 then fluo_traces
  else fluo_traces
         ++ channel_traces key mask_count 1%Z (suite2p.F_chan2 s2p) (suite2p.Fneu_chan2 s2p).

Definition plane_loop (key : TaskKey) (vals : list suite2p.PlaneSuite2p)
           (fluo_traces : list TraceRow.t) : list TraceRow.t :=
  fold_left (plane_step key) vals fluo_traces.

Definition make (env : Env) (key : TaskKey) : M unit :=
  method <- query (fun st => fetch1_processing_method st key) ;;
  if method =? "suite2p" then
    data_dir <- lift (pathlib_Path (_get_suite2p_dir env key)) ;;
    s2p_loader <- lift (Suite2p env data_dir) ;;
    insert1 (R_Fluorescence key) ;;;
    let fluo_traces := plane_loop key (dict_values (suite2p.planes s2p_loader)) [] in
    insert (map R_Trace fluo_traces)
  else raise (NotImplementedError ("Unknown/unimplemented method: " ++ method)).

End Fluorescence.

(** ** The population pass *)

Inductive EntityType : Type :=
| T_Processing
| T_MotionCorrection
| T_MotionCorrectedImages
| T_Segmentation
| T_Fluorescence.

Definition make (T : EntityType) : Env -> TaskKey -> M unit :=
  match T with
  | T_Processing => Processing.make
  | T_MotionCorrection => MotionCorrection.make
  | T_MotionCorrectedImages => MotionCorrectedImages.make
  | T_Segmentation => Segmentation.make
  | T_Fluorescence => Fluorescence.make
  end.

(** The keys with a record of [T], projected on the task key. *)
Definition keys_present (T : EntityType) (st : Store) : list TaskKey :=
  match T with
  | T_Processing => map ProcessingRow.key (Processing.rows st)
  | T_MotionCorrection => map MotionCorrectionRow.key (MotionCorrection.rows st)
  | T_MotionCorrectedImages =>
      map (fun r => fk_task (ImagesRow.key r)) (MotionCorrectedImages.rows st)
  | T_Segmentation => map SegmentationRow.key (Segmentation.rows st)
  | T_Fluorescence => Fluorescence.rows st
  end.

(** Processing and MotionCorrectedImages declare their key source; the
    others take the keys of the parent in their primary key
    ([-> ProcessingTask], [-> MotionCorrection], [-> Segmentation]). *)
Definition key_source (T : EntityType) (st : Store) : list TaskKey :=
  match T with
  | T_Processing => Processing.key_source st
  | T_MotionCorrection => map TaskRow.key (ProcessingTask.rows st)
  | T_MotionCorrectedImages => MotionCorrectedImages.key_source st
  | T_Segmentation => map MotionCorrectionRow.key (MotionCorrection.rows st)
  | T_Fluorescence => map SegmentationRow.key (Segmentation.rows st)
  end.

Definition key_in (k : TaskKey) (l : list TaskKey) : bool := existsb (key_eqb k) l.

(** Modelled from the spec: the resolver is not in the source tree (it is
    the populate call of the framework).  Spec 4.3: the eligible keys are the
    keys satisfying the parent dependencies, less the keys already
    materialized for [T]. *)
Definition eligible (T : EntityType) (st : Store) : list TaskKey :=
  filter (fun k => negb (key_in k (keys_present T st))) (key_source T st).

Inductive Outcome : Type :=
| Succeeded
| Pending                         (* returned without a record for the key *)
| UnsupportedMethod (msg : string)
| Failed (e : exn).

Definition outcome_of_exn (e : exn) : Outcome :=
  match e with
  | NotImplementedError msg => UnsupportedMethod msg
  | _ => Failed e
  end.

(** Modelled from the spec: the pass driver is not in the source tree.
    Spec 4.4 and 7: each key's [make] runs as one atomic unit; a failure is
    attributed to its key and the pass goes on with the next key, collecting
    one outcome per key. *)
Fixpoint run_keys (T : EntityType) (env : Env) (keys : list TaskKey) (st : Store)
  : list (TaskKey * Outcome) * Store :=
  match keys with
  | [] => ([], st)
  | k :: ks =>
      match make T env k st with
      | Raise e =>
          let (summary, st') := run_keys T env ks st in
          ((k, outcome_of_exn e) :: summary, st')
      | Ok (_, st1) =>
          let o := if key_in k (keys_present T st1) then Succeeded else Pending in
          let (summary, st') := run_keys T env ks st1 in
          ((k, o) :: summary, st')
      end
  end.

Definition populate (T : EntityType) (env : Env) (st : Store)
  : list (TaskKey * Outcome) * Store :=
  run_keys T env (eligible T st) st.

(** The engine's transitions: committed [make] steps. *)
Inductive engine_step : Store -> Store -> Prop :=
| step_make T env k st st' :
    make T env k st = Ok (tt, st') -> engine_step st st'.

Inductive engine_steps : Store -> Store -> Prop :=
| steps_refl st : engine_steps st st
| steps_cons st st1 st2 :
    engine_step st st1 -> engine_steps st1 st2 -> engine_steps st st2.

(** * Vocabulary of the statements *)

(** Stores reached by appending rows under new primary keys, each row
    satisfying [P]. *)
Inductive extends (P : Row -> Prop) : Store -> Store -> Prop :=
| ext_refl st : extends P st st
| ext_snoc st st' r :
    extends P st st' -> has_pk st' (pk r) = false -> P r -> extends P st (st' ++ [r]).

(** The computed tables, with the entity type that writes them and the task
    key of the row. *)
Definition task_of (r : Row) : option (EntityType * TaskKey) :=
  match r with
  | R_Processing p => Some (T_Processing, ProcessingRow.key p)
  | R_ProcessingOutputFile p => Some (T_Processing, OutputFileRow.key p)
  | R_MotionCorrection p => Some (T_MotionCorrection, MotionCorrectionRow.key p)
  | R_RigidMotionCorrection p => Some (T_MotionCorrection, fk_task (RigidRow.key p))
  | R_NonRigidMotionCorrection p => Some (T_MotionCorrection, fk_task (NonRigidRow.key p))
  | R_Block p => Some (T_MotionCorrection, fk_task (BlockRow.key p))
  | R_MotionCorrectedImages p => Some (T_MotionCorrectedImages, fk_task (ImagesRow.key p))
  | R_Segmentation p => Some (T_Segmentation, SegmentationRow.key p)
  | R_Mask p => Some (T_Segmentation, MaskRow.key p)
  | R_Cell p => Some (T_Segmentation, CellRow.key p)
  | R_Fluorescence k => Some (T_Fluorescence, k)
  | R_Trace p => Some (T_Fluorescence, TraceRow.key p)
  | _ => None
  end.

(** The rows the [make] step of [T] may write for the key [k]; Processing
    also registers files. *)
Definition written_by (T : EntityType) (k : TaskKey) (r : Row) : Prop :=
  task_of r = Some (T, k) \/ (T = T_Processing /\ exists f, r = R_PhysicalFile f).

(** The field key of every plane, in iteration order. *)
Definition resolve (st : Store) (key : TaskKey) (its : list (Z * suite2p.PlaneSuite2p))
  : Result (list (FieldKey * suite2p.PlaneSuite2p)) :=
  rmap (fun it => rbind (fetch1_field_key st key (fst it)) (fun fk => Ok (fk, snd it))) its.

(** The mask loop once the field keys are known. *)
Definition collect (res : list (FieldKey * suite2p.PlaneSuite2p))
           (masks : list Segmentation.mask_dict) : list Segmentation.mask_dict :=
  fold_left (fun masks r =>
               masks ++ Segmentation.plane_masks (fst r) (List.length masks) (snd r))
            res masks.

(** The masks a plane reports: [iscell], [cell_prob] and [stat] read in step. *)
Definition n_masks (s2p : suite2p.PlaneSuite2p) : nat :=
  List.length (zip (suite2p.iscell s2p) (zip (suite2p.cell_prob s2p) (suite2p.stat s2p))).

(** The masks of all planes. *)
Definition total_masks (ps : list suite2p.PlaneSuite2p) : nat :=
  list_sum (map n_masks ps).

(** No row of [T] for [key] yet. *)
Definition fresh (T : EntityType) (key : TaskKey) (st : Store) : Prop :=
  forall r, In r st -> task_of r <> Some (T, key).

(** The tables no [make] step writes. *)
Definition manual (r : Row) : bool :=
  match r with
  | R_ProcessingMethod _ | R_ProcessingTask _ | R_ScanInfo _ | R_Field _ => true
  | _ => false
  end.

(** A row of a table some [make] step writes. *)
Definition derived (r : Row) : Prop := manual r = false.

(** The rows of one Segmentation.make: the master row, the Mask rows, the
    Cell rows. *)
Definition Segmentation_rows (key : TaskKey) (plane0 : suite2p.PlaneSuite2p)
           (masks : list Segmentation.mask_dict) : list Row :=
  R_Segmentation {| SegmentationRow.key := key;
                    SegmentationRow.seg_channel := suite2p.segmentation_channel plane0 |}
  :: map (fun d => R_Mask (Segmentation.Mask_row d)) masks
  ++ map (fun d => R_Cell (Segmentation.Cell_row d)) masks.

(** The loader's per-cell arrays of a plane have one entry per mask. *)
Definition plane_wf (p : suite2p.PlaneSuite2p) : Prop :=
  List.length (suite2p.cell_prob p) = List.length (suite2p.iscell p)
  /\ List.length (suite2p.stat p) = List.length (suite2p.iscell p).

(** The field a part row of MotionCorrection belongs to. *)
Definition mc_field_of (r : Row) : option FieldKey :=
  match r with
  | R_RigidMotionCorrection p => Some (RigidRow.key p)
  | R_NonRigidMotionCorrection p => Some (NonRigidRow.key p)
  | R_Block p => Some (BlockRow.key p)
  | _ => None
  end.

(** The rows one plane contributes. *)
Definition plane_rows (env : Env) (r : FieldKey * suite2p.PlaneSuite2p) : list Row :=
  R_RigidMotionCorrection (MotionCorrection.rigid_mc env (fst r) (snd r))
  :: (if suite2p.nonrigid (suite2p.ops (snd r))
      then R_NonRigidMotionCorrection (MotionCorrection.nonrigid_mc (fst r) (snd r))
           :: map R_Block (MotionCorrection.nr_blocks env (fst r) (snd r))
      else []).

(** The rows of one MotionCorrection.make: the master row, then the rows of
    each plane. *)
Definition MotionCorrection_rows (env : Env) (key : TaskKey) (plane0 : suite2p.PlaneSuite2p)
           (res : list (FieldKey * suite2p.PlaneSuite2p)) : list Row :=
  R_MotionCorrection {| MotionCorrectionRow.key := key;
                        MotionCorrectionRow.mc_channel := suite2p.alignment_channel plane0 |}
  :: flat_map (plane_rows env) res.

(** Equality of field keys, as a test. *)
Definition field_key_eqb (a b : FieldKey) : bool :=
  key_eqb (fk_task a) (fk_task b) && Z.eqb (field_idx a) (field_idx b).

(** The part rows of MotionCorrection under one field. *)
Definition rigid_of (st : Store) (fk : FieldKey) : list RigidRow.t :=
  filter (fun r => field_key_eqb (RigidRow.key r) fk)
         (MotionCorrection.RigidMotionCorrection.rows st).

Definition nonrigid_of (st : Store) (fk : FieldKey) : list NonRigidRow.t :=
  filter (fun r => field_key_eqb (NonRigidRow.key r) fk)
         (MotionCorrection.NonRigidMotionCorrection.rows st).

Definition blocks_of (st : Store) (fk : FieldKey) : list BlockRow.t :=
  filter (fun r => field_key_eqb (BlockRow.key r) fk) (MotionCorrection.Block.rows st).

(** The message of the NotImplementedError each [make] raises. *)
Definition unsupported_msg (T : EntityType) (method : string) : string :=
  match T with
  | T_Processing => "Unknown method: " ++ method
  | _ => "Unknown/unimplemented method: " ++ method
  end.

(** The Processing row built from the loader's times. *)
Definition Processing_row (key : TaskKey) (l : suite2p.Suite2p) : ProcessingRow.t :=
  {| ProcessingRow.key := key;
     ProcessingRow.start_time := None;
     ProcessingRow.completion_time := suite2p.creation_time l;
     ProcessingRow.curation_time := Some (suite2p.curation_time l) |}.

(** The traces one plane contributes, [mask_count] traces being there. *)
Definition plane_traces (key : TaskKey) (mask_count : nat) (s2p : suite2p.PlaneSuite2p)
  : list TraceRow.t :=
  Fluorescence.channel_traces key mask_count 0 (suite2p.F s2p) (suite2p.Fneu s2p)
  ++ (if Nat.eqb (List.length (suite2p.F_chan2 s2p)) 0 then []
      else Fluorescence.channel_traces key mask_count 1
             (suite2p.F_chan2 s2p) (suite2p.Fneu_chan2 s2p)).

(** The part of a trace's primary key below the Fluorescence key. *)
Definition trace_id (r : TraceRow.t) : nat * Z := (TraceRow.mask r, TraceRow.fluo_channel r).

(** The rows of one Fluorescence.make: the master row, then the traces. *)
Definition Fluorescence_rows (key : TaskKey) (l : suite2p.Suite2p) : list Row :=
  R_Fluorescence key
  :: map R_Trace (Fluorescence.plane_loop key (dict_values (suite2p.planes l)) []).

(** ** Concrete inputs *)

Module Fixture.

Definition fl (z : Z) : Float := float_bits z.

Definition stat0 : suite2p.Stat :=
  {| suite2p.npix := 4; suite2p.med := (2, 3)%Z;
     suite2p.xpix := [3; 4]%Z; suite2p.ypix := [2; 2]%Z; suite2p.lam := [fl 1; fl 1] |}.

Definition ops_of (nonrigid : bool) : suite2p.Ops :=
  {| suite2p.yoff := [fl 1]; suite2p.xoff := [fl 2]; suite2p.badframes := [false];
     suite2p.nonrigid := nonrigid;
     suite2p.block_size := (128, 128)%Z; suite2p.nblocks := (1, 2)%Z;
     suite2p.xblock := [(0, 128); (128, 256)]%Z;
     suite2p.yblock := [(0, 128); (0, 128)]%Z;
     suite2p.yoff1 := {| ncols := 2; rows2 := [[fl 1; fl 2]] |};
     suite2p.xoff1 := {| ncols := 2; rows2 := [[fl 3; fl 4]] |} |}.

(** A plane with one mask per entry of [iscell] and the second-channel
    traces [chan2]. *)
Definition plane_of (nonrigid : bool) (channel : Z) (iscell : list bool)
           (chan2 : list Array) : suite2p.PlaneSuite2p :=
  {| suite2p.ops := ops_of nonrigid;
     suite2p.alignment_channel := channel;
     suite2p.segmentation_channel := channel;
     suite2p.ref_image := [[fl 1]];
     suite2p.mean_image := [[fl 2]];
     suite2p.correlation_map := [[fl 3]];
     suite2p.max_proj_image := [[fl 4]];
     suite2p.iscell := iscell;
     suite2p.cell_prob := map (fun _ => fl 0) iscell;
     suite2p.stat := map (fun _ => stat0) iscell;
     suite2p.F := map (fun _ => [fl 5]) iscell;
     suite2p.Fneu := map (fun _ => [fl 6]) iscell;
     suite2p.F_chan2 := chan2;
     suite2p.Fneu_chan2 := chan2 |}.

Definition plane_a : suite2p.PlaneSuite2p := plane_of true 1 [true; false; true] [].
Definition plane_b : suite2p.PlaneSuite2p := plane_of false 2 [true; true] [].

(** Two planes with 3 and 2 masks; the second plane reports other channels. *)
Definition two_planes : suite2p.Suite2p :=
  {| suite2p.planes := [(0%Z, plane_a); (1%Z, plane_b)];
     suite2p.creation_time := 10;
     suite2p.curation_time := 20;
     suite2p.items := None |}.

(** The output files were touched out of order. *)
Definition curated_early : suite2p.Suite2p :=
  {| suite2p.planes := [(0%Z, plane_a)];
     suite2p.creation_time := 10;
     suite2p.curation_time := 5;
     suite2p.items := None |}.

(** Two planes of one mask each; the first has a second channel. *)
Definition two_channels : suite2p.Suite2p :=
  {| suite2p.planes := [(0%Z, plane_of false 1 [true] [[fl 7]]);
                        (1%Z, plane_of false 1 [true] [])];
     suite2p.creation_time := 10;
     suite2p.curation_time := 20;
     suite2p.items := None |}.

Definition dir1 : Path := ["data"; "S1"; "suite2p"].

Definition env_of (present : bool) (l : suite2p.Suite2p) : Env :=
  {| _get_suite2p_dir := fun _ => Some dir1;
     _get_root_data_dir := Some ["data"];
     exists_ := fun _ => present;
     glob_star := fun d => [d ++ ["ops.npy"]; d ++ ["plane0"]];
     is_file := fun p => match rev p with "ops.npy" :: _ => true | _ => false end;
     Suite2p := fun _ => Ok l;
     nanstd := fun _ => fl 0 |}.

Definition k1 : TaskKey := {| scan := "S1"; processing_instance := "u1" |}.
Definition k2 : TaskKey := {| scan := "S1"; processing_instance := "u2" |}.

(** Scan S1 with its metadata and two fields, a suite2p task and a caiman
    task. *)
Definition store0 : Store :=
  [R_ProcessingMethod "suite2p"; R_ProcessingMethod "caiman";
   R_ProcessingTask {| TaskRow.key := k1; TaskRow.processing_method := "suite2p";
                       TaskRow.paramset_idx := 0 |};
   R_ProcessingTask {| TaskRow.key := k2; TaskRow.processing_method := "caiman";
                       TaskRow.paramset_idx := 0 |};
   R_ScanInfo "S1";
   R_Field {| FieldRow.scan_key := "S1"; FieldRow.field := 0; FieldRow.plane := 0 |};
   R_Field {| FieldRow.scan_key := "S1"; FieldRow.field := 1; FieldRow.plane := 1 |}].

Definition field0 : FieldKey := {| fk_task := k1; field_idx := 0 |}.
Definition field1 : FieldKey := {| fk_task := k1; field_idx := 1 |}.

End Fixture.

(** * The rest of the source *)

(** The body of [Processing._get_suite2p_dir] as the source has it:
    [return None]. *)
Definition default_get_suite2p_dir (processing_task_key : TaskKey) : option Path := None.

(** The trace keys of Fluorescence.make, written out: every plane starts at
    the number of traces, of both channels, of the planes before it. *)
Fixpoint trace_ids_from (offset : nat) (vals : list suite2p.PlaneSuite2p) : list (nat * Z) :=
  match vals with
  | [] => []
  | p :: ps =>
      let n0 := List.length (zip (suite2p.F p) (suite2p.Fneu p)) in
      let n1 := List.length (zip (suite2p.F_chan2 p) (suite2p.Fneu_chan2 p)) in
      map (fun i => (i, 0%Z)) (seq offset n0)
      ++ map (fun i => (i, 1%Z)) (seq offset n1)
      ++ trace_ids_from (offset + n0 + n1) ps
  end.

(** ** [img_loaders/__init__.py] *)

Module img_loaders.

Definition LF : Ascii.ascii := Ascii.ascii_of_nat 10.

(** [s.split(sep)] for a separator that is not empty: the pieces between
    the occurrences of [sep], found from the left and not overlapping.
    [skip] counts the characters of a found separator still to pass, [cur]
    is the piece being read. *)
Fixpoint split_from (sep s : string) (skip : nat) (cur : string) : list string :=
  match s with
  | EmptyString => [cur]
  | String c s' =>
      match skip with
      | S k => split_from sep s' k cur
      | O =>
          if String.prefix sep s
          then cur :: split_from sep s' (String.length sep - 1) EmptyString
          else split_from sep s' 0 (cur ++ String c EmptyString)
      end
  end.

Definition str_split (s sep : string) : list string := split_from sep s 0 EmptyString.

(** [s.replace(old, new)] for two strings of one character. *)
Fixpoint str_replace (s : string) (old new : Ascii.ascii) : string :=
  match s with
  | EmptyString => EmptyString
  | String c s' => String (if Ascii.eqb c old then new else c) (str_replace s' old new)
  end.

(** [s[1:-1]] *)
Definition slice_1_m1 (s : string) : string := substring 1 (String.length s - 2) s.

(** A dict from str to str, in insertion order; an assignment to a key that
    is there keeps its place. *)
Definition sdict := list (string * string).

Fixpoint sdict_set (d : sdict) (k v : string) : sdict :=
  match d with
  | [] => [(k, v)]
  | (k', v') :: d' => if k' =? k then (k', v) :: d' else (k', v') :: sdict_set d' k v
  end.

Fixpoint sdict_get (d : sdict) (k : string) : Result string :=
  match d with
  | [] => Raise KeyError
  | (k', v) :: d' => if k' =? k then Ok v else sdict_get d' k
  end.

(** The scan object of [scanreader]: the two functions read its header. *)
Record Scan : Type := { header : string }.

(** The loop of [parse_scanimage_header]; [key, value = item.split(' = ')]
    raises ValueError unless the split has two pieces. *)
Fixpoint parse_items (items : list string) (header : sdict) : Result sdict :=
  match items with
  | [] => Ok header
  | item :: rest =>
      match str_split item " = " with
      | [key; value] => parse_items rest (sdict_set header (str_replace key "."%char "_"%char) value)
      | _ => Raise ValueError
      end
  end.

Definition parse_scanimage_header (scan : Scan) : Result sdict :=
  parse_items (str_split (header scan) (String LF EmptyString)) [].

(** [datetime.strptime] is the library's: a parameter. *)
Definition get_scanimage_acq_time {datetime : Type}
           (strptime : string -> string -> Result datetime) (scan : Scan)
  : Result datetime :=
  rbind (parse_scanimage_header scan) (fun header =>
  rbind (sdict_get header "epoch") (fun epoch =>
  let recording_time :=
    strptime (str_replace (slice_1_m1 epoch) ","%char " "%char) "%Y %m %d %H %M %S.%f" in
  recording_time)).

End img_loaders.

(** A header written from keys and values, one [key = value] per line. *)
Definition header_line (kv : string * string) : string := fst kv ++ " = " ++ snd kv.

Definition render_header (kvs : list (string * string)) : img_loaders.Scan :=
  {| img_loaders.header :=
       String.concat (String img_loaders.LF EmptyString) (map header_line kvs) |}.

(** [c] occurs in [s]. *)
Fixpoint occurs (c : Ascii.ascii) (s : string) : bool :=
  match s with
  | EmptyString => false
  | String a s' => Ascii.eqb a c || occurs c s'
  end.

(** Keys and values that can stand in a line: no ['='] and no line feed. *)
Definition plain (s : string) : Prop :=
  occurs "="%char s = false /\ occurs img_loaders.LF s = false.

(** The dict the loop builds from well-formed lines. *)
Definition header_dict (kvs : list (string * string)) (d : img_loaders.sdict)
  : img_loaders.sdict :=
  fold_left (fun d kv =>
               img_loaders.sdict_set d (img_loaders.str_replace (fst kv) "." "_") (snd kv))
            kvs d.

(** ** More concrete inputs *)

Module Cases.
Import Fixture.

(** A key without a ProcessingTask row. *)
Definition k3 : TaskKey := {| scan := "S1"; processing_instance := "u3" |}.

(** The deployment did not provide the path function. *)
Definition env_default (l : suite2p.Suite2p) : Env :=
  {| _get_suite2p_dir := default_get_suite2p_dir;
     _get_root_data_dir := Some ["data"];
     exists_ := fun _ => true;
     glob_star := fun d => [d ++ ["ops.npy"]];
     is_file := fun _ => true;
     Suite2p := fun _ => Ok l;
     nanstd := fun _ => fl 0 |}.

(** Planes numbered from 1. *)
Definition from_one : suite2p.Suite2p :=
  {| suite2p.planes := [(1%Z, plane_a); (2%Z, plane_b)];
     suite2p.creation_time := 10;
     suite2p.curation_time := 20;
     suite2p.items := None |}.

(** A third plane, for which the scan has no field. *)
Definition three_planes : suite2p.Suite2p :=
  {| suite2p.planes := [(0%Z, plane_a); (1%Z, plane_b); (2%Z, plane_b)];
     suite2p.creation_time := 10;
     suite2p.curation_time := 20;
     suite2p.items := None |}.

(** The root is elsewhere. *)
Definition env_other_root (l : suite2p.Suite2p) : Env :=
  {| _get_suite2p_dir := fun _ => Some dir1;
     _get_root_data_dir := Some ["archive"];
     exists_ := fun _ => true;
     glob_star := fun d => [d ++ ["ops.npy"]; d ++ ["plane0"]];
     is_file := fun p => match rev p with "ops.npy" :: _ => true | _ => false end;
     Suite2p := fun _ => Ok l;
     nanstd := fun _ => fl 0 |}.

(** [stat] is one entry short in the first plane. *)
Definition short_stat : suite2p.Suite2p :=
  {| suite2p.planes :=
       [(0%Z, {| suite2p.ops := ops_of false;
                 suite2p.alignment_channel := 1;
                 suite2p.segmentation_channel := 1;
                 suite2p.ref_image := []; suite2p.mean_image := [];
                 suite2p.correlation_map := []; suite2p.max_proj_image := [];
                 suite2p.iscell := [true; false; true];
                 suite2p.cell_prob := [fl 0; fl 0; fl 0];
                 suite2p.stat := [stat0; stat0];
                 suite2p.F := []; suite2p.Fneu := [];
                 suite2p.F_chan2 := []; suite2p.Fneu_chan2 := [] |});
        (1%Z, plane_b)];
     suite2p.creation_time := 10;
     suite2p.curation_time := 20;
     suite2p.items := None |}.

End Cases.

(** * Properties *)

(** ** Keys and primary keys *)

Lemma key_eqb_eq (a b : TaskKey) : key_eqb a b = true <-> a = b.
Proof.
  destruct a as [s1 i1], b as [s2 i2]; unfold key_eqb; simpl.
  rewrite andb_true_iff, !String.eqb_eq.
  split; [intros [-> ->]; reflexivity | intros E; inversion E; auto].
Qed.

Lemma key_eqb_refl (a : TaskKey) : key_eqb a a = true.
Proof. apply key_eqb_eq; reflexivity. Qed.

Lemma key_in_In (k : TaskKey) (l : list TaskKey) : key_in k l = true <-> In k l.
Proof.
  unfold key_in; rewrite existsb_exists; split.
  - intros [x [Hx E]]; apply key_eqb_eq in E; subst; exact Hx.
  - intros H; exists k; split; [exact H | apply key_eqb_refl].
Qed.

Lemma task_atoms_inj (a b : TaskKey) : task_atoms a = task_atoms b -> a = b.
Proof. destruct a, b; unfold task_atoms; simpl; intros E; inversion E; reflexivity. Qed.

Lemma field_atoms_inj (a b : FieldKey) : field_atoms a = field_atoms b -> a = b.
Proof.
  destruct a as [[s1 i1] f1], b as [[s2 i2] f2]; unfold field_atoms, task_atoms; simpl.
  intros E; inversion E; reflexivity.
Qed.

Lemma has_pk_true (st : Store) (k : PK) :
  has_pk st k = true <-> exists r, In r st /\ pk r = k.
Proof.
  unfold has_pk; rewrite existsb_exists; split; intros [r [Hr E]]; exists r; split; auto.
  - destruct (pk_eq_dec (pk r) k); [assumption | discriminate].
  - destruct (pk_eq_dec (pk r) k); [reflexivity | contradiction].
Qed.

Lemma has_pk_false (st : Store) (k : PK) :
  has_pk st k = false <-> forall r, In r st -> pk r <> k.
Proof.
  split.
  - intros H r Hr E.
    assert (has_pk st k = true) by (apply has_pk_true; eauto). congruence.
  - intros H. destruct (has_pk st k) eqn:E; [|reflexivity].
    apply has_pk_true in E. destruct E as [r [Hr E]]. elim (H r Hr E).
Qed.

Lemma has_pk_app (st d : Store) (k : PK) :
  has_pk (st ++ d) k = has_pk st k || has_pk d k.
Proof. unfold has_pk; apply existsb_app. Qed.

(** ** The monad's primitives *)

Lemma insert1_ok (r : Row) (st : Store) :
  has_pk st (pk r) = false -> insert1 r st = Ok (tt, st ++ [r]).
Proof. unfold insert1; intros ->; reflexivity. Qed.

Lemma insert1_inv (r : Row) (st : Store) u st' :
  insert1 r st = Ok (u, st') -> has_pk st (pk r) = false /\ st' = st ++ [r].
Proof.
  unfold insert1; destruct (has_pk st (pk r)); [discriminate|].
  intros E; inversion E; auto.
Qed.

Lemma insert_ok (rows : list Row) : forall st,
  NoDup (map pk rows) ->
  (forall r, In r rows -> has_pk st (pk r) = false) ->
  insert rows st = Ok (tt, st ++ rows).
Proof.
  induction rows as [|r rows IH]; intros st ND Hfresh; simpl.
  - unfold ret; rewrite app_nil_r; reflexivity.
  - unfold bind. rewrite insert1_ok by (apply Hfresh; left; reflexivity).
    inversion ND as [|? ? Hnotin ND']; subst.
    rewrite IH; [rewrite <- app_assoc; reflexivity | exact ND' |].
    intros r' Hr'. rewrite has_pk_app, Hfresh by (right; exact Hr'). simpl.
    unfold has_pk; simpl. rewrite orb_false_r.
    destruct (pk_eq_dec (pk r) (pk r')) as [E|]; [|reflexivity].
    elim Hnotin. rewrite E. apply in_map; exact Hr'.
Qed.

Lemma extends_trans P st1 st2 st3 :
  extends P st1 st2 -> extends P st2 st3 -> extends P st1 st3.
Proof.
  intros H12 H23; induction H23; [exact H12 | apply ext_snoc; auto].
Qed.

Lemma extends_weaken (P Q : Row -> Prop) st st' :
  (forall r, P r -> Q r) -> extends P st st' -> extends Q st st'.
Proof. intros PQ H; induction H; [apply ext_refl | apply ext_snoc; auto]. Qed.

Lemma extends_app P st st' :
  extends P st st' -> exists d, st' = st ++ d /\ Forall P d.
Proof.
  induction 1 as [st | st st' r _ [d [-> Hd]] _ HP].
  - exists []; rewrite app_nil_r; auto.
  - exists (d ++ [r]); rewrite app_assoc; split; [reflexivity|].
    apply Forall_app; split; [exact Hd | constructor; auto].
Qed.

(** A row whose primary key was present before is a row from before. *)
Lemma extends_old_pk P st st' :
  extends P st st' ->
  forall r, In r st' -> has_pk st (pk r) = true -> In r st.
Proof.
  induction 1 as [st | st st' r0 Hext IH Hfresh _]; intros r Hin Hpk; [exact Hin|].
  apply in_app_or in Hin; destruct Hin as [Hin | [<- | []]]; [apply IH; assumption|].
  exfalso. apply has_pk_true in Hpk; destruct Hpk as [r1 [Hr1 E]].
  destruct (extends_app _ _ _ Hext) as [d [-> _]].
  apply (proj1 (has_pk_false _ _) Hfresh r1); [apply in_or_app; left; exact Hr1 | exact E].
Qed.

Lemma insert1_extends (P : Row -> Prop) r st u st' :
  insert1 r st = Ok (u, st') -> P r -> extends P st st'.
Proof.
  intros H HP; apply insert1_inv in H; destruct H as [Hf ->].
  apply ext_snoc; [apply ext_refl | exact Hf | exact HP].
Qed.

Lemma insert_extends (P : Row -> Prop) rows : forall st u st',
  insert rows st = Ok (u, st') -> Forall P rows -> extends P st st'.
Proof.
  induction rows as [|r rows IH]; intros st u st' H HP; simpl in H.
  - inversion H; apply ext_refl.
  - unfold bind in H. destruct (insert1 r st) as [[u1 st1]|] eqn:E; [|discriminate].
    inversion HP; subst.
    eapply extends_trans; [eapply insert1_extends; eauto | eapply IH; eauto].
Qed.

Lemma insert_skip_duplicates_extends (P : Row -> Prop) rows : forall st u st',
  insert_skip_duplicates rows st = Ok (u, st') -> Forall P rows -> extends P st st'.
Proof.
  induction rows as [|r rows IH]; intros st u st' H HP; simpl in H.
  - inversion H; apply ext_refl.
  - unfold bind in H. inversion HP; subst.
    destruct (has_pk st (pk r)) eqn:E.
    + eapply IH; eauto.
    + eapply extends_trans; [|eapply IH; eauto].
      apply ext_snoc; [apply ext_refl | exact E | assumption].
Qed.

Lemma bind_inv {A B} (m : M A) (f : A -> M B) st b st' :
  bind m f st = Ok (b, st') ->
  exists a st1, m st = Ok (a, st1) /\ f a st1 = Ok (b, st').
Proof.
  unfold bind; destruct (m st) as [[a st1]|]; [|discriminate]; eauto.
Qed.

Lemma lift_inv {A} (r : Result A) st a st' :
  lift r st = Ok (a, st') -> r = Ok a /\ st' = st.
Proof. unfold lift; destruct r; [|discriminate]; intros E; inversion E; auto. Qed.

Lemma query_inv {A} (q : Store -> Result A) st a st' :
  query q st = Ok (a, st') -> q st = Ok a /\ st' = st.
Proof. unfold query; apply lift_inv. Qed.

Lemma ret_inv {A} (a : A) st b st' : ret a st = Ok (b, st') -> b = a /\ st' = st.
Proof. unfold ret; intros E; inversion E; auto. Qed.

(** Peel the first action of a successful run. *)
Ltac peel H :=
  let a := fresh "a" in
  let s := fresh "st" in
  let H1 := fresh "Hrun" in
  apply bind_inv in H; destruct H as [a [s [H1 H]]];
  first [ apply query_inv in H1; destruct H1 as [H1 ->]
        | apply lift_inv in H1; destruct H1 as [H1 ->]
        | idtac ].

Ltac peel_as H H1 :=
  let a := fresh "a" in
  let s := fresh "st" in
  apply bind_inv in H; destruct H as [a [s [H1 H]]];
  first [ apply query_inv in H1; destruct H1 as [H1 ->]
        | apply lift_inv in H1; destruct H1 as [H1 ->]
        | idtac ].

(** ** What a [make] step may write *)

Lemma fetch1_inv {A} (l : list A) (x : A) : fetch1 l = Ok x -> l = [x].
Proof.
  destruct l as [|y [|z l]]; simpl; intros E; try discriminate.
  inversion E; reflexivity.
Qed.

Lemma fetch1_field_key_inv st key plane fk :
  fetch1_field_key st key plane = Ok fk ->
  fk_task fk = key /\
  exists f, In f (ScanInfo.Field.rows st)
            /\ FieldRow.scan_key f = scan key
            /\ FieldRow.plane f = plane
            /\ FieldRow.field f = field_idx fk.
Proof.
  unfold fetch1_field_key; intros H; apply fetch1_inv in H.
  assert (Hin : In fk [fk]) by (left; reflexivity).
  rewrite <- H in Hin. apply in_flat_map in Hin; destruct Hin as [f [Hf Hin]].
  apply in_flat_map in Hin; destruct Hin as [t [Ht Hin]].
  destruct (_ && _) eqn:E in Hin; [|destruct Hin].
  destruct Hin as [<- | []]; simpl.
  apply andb_true_iff in E; destruct E as [E E3].
  apply andb_true_iff in E; destruct E as [E1 E2].
  apply key_eqb_eq in E2; apply String.eqb_eq in E1; apply Z.eqb_eq in E3.
  split; [exact E2|]. exists f; rewrite <- E2; auto.
Qed.

Lemma Processing_make_extends env k st u st' :
  Processing.make env k st = Ok (u, st') -> extends (written_by T_Processing k) st st'.
Proof.
  unfold Processing.make; intros H.
  peel H. destruct (a =? "suite2p"); [|discriminate].
  peel H. destruct (exists_ env a0).
  - peel H. peel H. peel H. peel H. peel H.
    eapply extends_trans; [eapply insert1_extends; [eassumption|]|].
    { left; reflexivity. }
    eapply extends_trans; [eapply insert_skip_duplicates_extends; [eassumption|]|].
    { apply Forall_forall; intros r Hr; apply in_map_iff in Hr.
      destruct Hr as [f [<- _]]; right; eauto. }
    eapply insert_extends; [eassumption|].
    apply Forall_forall; intros r Hr; apply in_map_iff in Hr.
    destruct Hr as [f [<- _]]; left; reflexivity.
  - apply ret_inv in H; destruct H as [_ ->]; apply ext_refl.
Qed.

Lemma MotionCorrection_plane_loop_extends env k its : forall st u st',
  MotionCorrection.plane_loop env k its st = Ok (u, st') ->
  extends (written_by T_MotionCorrection k) st st'.
Proof.
  induction its as [|[plane s2p] its IH]; intros st u st' H; simpl in H.
  - apply ret_inv in H; destruct H as [_ ->]; apply ext_refl.
  - peel H. eapply extends_trans; [|eapply IH; eassumption].
    unfold MotionCorrection.plane_step in Hrun.
    peel Hrun. apply fetch1_field_key_inv in Hrun0; destruct Hrun0 as [Hk _].
    peel Hrun.
    eapply extends_trans; [eapply insert1_extends; [eassumption|]|].
    { left; simpl; rewrite Hk; reflexivity. }
    destruct (suite2p.nonrigid _).
    + peel Hrun.
      eapply extends_trans; [eapply insert1_extends; [eassumption|]|].
      { left; simpl; rewrite Hk; reflexivity. }
      eapply insert_extends; [eassumption|].
      apply Forall_forall; intros r Hr; apply in_map_iff in Hr.
      destruct Hr as [b [<- Hb]]; left; simpl.
      unfold MotionCorrection.nr_blocks in Hb; apply in_map_iff in Hb.
      destruct Hb as [[b_id [b_y [b_x [sy sx]]]] [<- _]]; simpl; rewrite Hk; reflexivity.
    + apply ret_inv in Hrun; destruct Hrun as [_ ->]; apply ext_refl.
Qed.

Lemma MotionCorrection_make_extends env k st u st' :
  MotionCorrection.make env k st = Ok (u, st') ->
  extends (written_by T_MotionCorrection k) st st'.
Proof.
  unfold MotionCorrection.make; intros H.
  peel H. destruct (a =? "suite2p"); [|discriminate].
  peel H. peel H. peel H. peel H.
  eapply extends_trans; [eapply insert1_extends; [eassumption|]|].
  { left; reflexivity. }
  eapply MotionCorrection_plane_loop_extends; eassumption.
Qed.

Lemma MotionCorrectedImages_plane_loop_extends k its : forall st u st',
  MotionCorrectedImages.plane_loop k its st = Ok (u, st') ->
  extends (written_by T_MotionCorrectedImages k) st st'.
Proof.
  induction its as [|[plane s2p] its IH]; intros st u st' H; simpl in H.
  - apply ret_inv in H; destruct H as [_ ->]; apply ext_refl.
  - peel H. apply fetch1_field_key_inv in Hrun; destruct Hrun as [Hk _].
    peel H.
    eapply extends_trans; [eapply insert1_extends; [eassumption|]|eapply IH; eassumption].
    left; simpl; rewrite Hk; reflexivity.
Qed.

Lemma MotionCorrectedImages_make_extends env k st u st' :
  MotionCorrectedImages.make env k st = Ok (u, st') ->
  extends (written_by T_MotionCorrectedImages k) st st'.
Proof.
  unfold MotionCorrectedImages.make; intros H.
  peel H. destruct (a =? "suite2p"); [|discriminate].
  peel H. peel H. peel H.
  eapply MotionCorrectedImages_plane_loop_extends; eassumption.
Qed.

(** ** Segmentation: the mask loop *)

Lemma Segmentation_plane_loop_eq key its : forall masks st,
  Segmentation.plane_loop key its masks st
  = rbind (resolve st key its) (fun res => Ok (collect res masks, st)).
Proof.
  induction its as [|[plane s2p] its IH]; intros masks st; simpl; [reflexivity|].
  unfold resolve; simpl. unfold bind, query, lift.
  destruct (fetch1_field_key st key plane) as [fk|e]; simpl; [|reflexivity].
  rewrite IH. unfold resolve.
  destruct (rmap _ its); reflexivity.
Qed.

Lemma resolve_cons_inv st key plane s2p its res :
  resolve st key ((plane, s2p) :: its) = Ok res ->
  exists fk res',
    fetch1_field_key st key plane = Ok fk
    /\ resolve st key its = Ok res'
    /\ res = (fk, s2p) :: res'.
Proof.
  unfold resolve; simpl.
  destruct (fetch1_field_key st key plane) as [fk|]; simpl; [|discriminate].
  destruct (rmap _ its) as [res'|]; simpl; [|discriminate].
  intros E; inversion E; eauto.
Qed.

Lemma resolve_task st key its res :
  resolve st key its = Ok res -> Forall (fun r => fk_task (fst r) = key) res.
Proof.
  revert res; induction its as [|[plane s2p] its IH]; intros res H.
  - inversion H; constructor.
  - apply resolve_cons_inv in H; destruct H as [fk [res' [E [H ->]]]].
    constructor; [|apply IH; exact H].
    apply fetch1_field_key_inv in E; simpl; tauto.
Qed.

Lemma resolve_planes st key its res :
  resolve st key its = Ok res -> map snd res = map snd its.
Proof.
  revert res; induction its as [|[plane s2p] its IH]; intros res H.
  - inversion H; reflexivity.
  - apply resolve_cons_inv in H; destruct H as [fk [res' [E [H ->]]]].
    simpl; f_equal; apply IH; exact H.
Qed.

Lemma resolve_ok st key its :
  (forall it, In it its -> exists fk, fetch1_field_key st key (fst it) = Ok fk) ->
  exists res, resolve st key its = Ok res.
Proof.
  induction its as [|it its IH]; intros H; [exists []; reflexivity|].
  destruct (H it (or_introl eq_refl)) as [fk Hfk].
  destruct IH as [res Hres]; [intros; apply H; right; assumption|].
  exists ((fk, snd it) :: res).
  unfold resolve in *; simpl; rewrite Hfk; simpl; rewrite Hres; reflexivity.
Qed.

Lemma seq_shift_add (c n : nat) : map (fun i => i + c) (seq 0 n) = seq c n.
Proof.
  revert c; induction n as [|n IH]; intros c; [reflexivity|].
  rewrite !seq_S, map_app, IH; simpl; rewrite (Nat.add_comm n c); reflexivity.
Qed.

Lemma enumerate_fst {A} (l : list A) : map fst (enumerate l) = seq 0 (List.length l).
Proof.
  unfold enumerate.
  assert (G : forall (l : list A) s, map fst (combine (seq s (List.length l)) l)
                                     = seq s (List.length l)).
  { clear l; induction l as [|x l IH]; intros s; simpl; [reflexivity|].
    f_equal; apply IH. }
  apply G.
Qed.

Lemma enumerate_snd {A} (l : list A) : map snd (enumerate l) = l.
Proof.
  unfold enumerate.
  assert (G : forall (l : list A) s, map snd (combine (seq s (List.length l)) l) = l).
  { clear l; induction l as [|x l IH]; intros s; simpl; [reflexivity|].
    f_equal; apply IH. }
  apply G.
Qed.

Lemma plane_masks_mask fk c s2p :
  map Segmentation.mask (Segmentation.plane_masks fk c s2p) = seq c (n_masks s2p).
Proof.
  unfold Segmentation.plane_masks, n_masks.
  rewrite map_map, <- seq_shift_add, <- enumerate_fst, map_map.
  apply map_ext; intros [i [a [b s]]]; reflexivity.
Qed.

Lemma plane_masks_length fk c s2p :
  List.length (Segmentation.plane_masks fk c s2p) = n_masks s2p.
Proof.
  rewrite <- (length_map Segmentation.mask), plane_masks_mask; apply length_seq.
Qed.

Lemma zip_fst_firstn {A B} (l : list A) (l' : list B) :
  map fst (zip l l') = firstn (List.length (zip l l')) l.
Proof.
  revert l'; induction l as [|x l IH]; intros [|y l']; simpl; try reflexivity.
  f_equal; apply IH.
Qed.

Lemma plane_masks_is_cell fk c s2p :
  map Segmentation.is_cell (Segmentation.plane_masks fk c s2p)
  = firstn (n_masks s2p) (suite2p.iscell s2p).
Proof.
  unfold Segmentation.plane_masks, n_masks.
  rewrite <- zip_fst_firstn, map_map.
  rewrite <- (enumerate_snd (zip (suite2p.iscell s2p) _)) at 2.
  rewrite map_map. apply map_ext; intros [i [a [b s]]]; reflexivity.
Qed.

Lemma plane_masks_seg_key fk c s2p d :
  In d (Segmentation.plane_masks fk c s2p) -> Segmentation.seg_key d = fk.
Proof.
  unfold Segmentation.plane_masks; intros H; apply in_map_iff in H.
  destruct H as [[i [a [b s]]] [<- _]]; reflexivity.
Qed.

Lemma enumerate_length {A} (l : list A) : List.length (enumerate l) = List.length l.
Proof. rewrite <- (length_map fst), enumerate_fst; apply length_seq. Qed.

Lemma map_const_repeat {A B} (b : B) (f : A -> B) (l : list A) :
  (forall a, f a = b) -> map f l = repeat b (List.length l).
Proof.
  intros Hf; induction l as [|x l IH]; simpl; [reflexivity|].
  rewrite Hf, IH; reflexivity.
Qed.

Lemma plane_masks_seg_keys fk c s2p :
  map Segmentation.seg_key (Segmentation.plane_masks fk c s2p) = repeat fk (n_masks s2p).
Proof.
  unfold Segmentation.plane_masks, n_masks.
  rewrite map_map, <- (enumerate_length (zip _ _)).
  apply map_const_repeat; intros [i [a [b s]]]; reflexivity.
Qed.

Lemma collect_spec res : forall masks,
  exists new,
    collect res masks = masks ++ new
    /\ map Segmentation.mask new = seq (List.length masks) (total_masks (map snd res))
    /\ map Segmentation.is_cell new
       = List.concat (map (fun p => firstn (n_masks p) (suite2p.iscell p)) (map snd res))
    /\ map Segmentation.seg_key new
       = List.concat (map (fun r => repeat (fst r) (n_masks (snd r))) res)
    /\ Forall (fun d => In (Segmentation.seg_key d) (map fst res)) new.
Proof.
  induction res as [|[fk s2p] res IH]; intros masks; simpl.
  - exists []; rewrite app_nil_r; repeat split; constructor.
  - destruct (IH (masks ++ Segmentation.plane_masks fk (List.length masks) s2p))
      as [new [E [Hm [Hc [Hs Hk]]]]].
    exists (Segmentation.plane_masks fk (List.length masks) s2p ++ new).
    unfold collect in E |- *; simpl; rewrite E, <- app_assoc.
    split; [reflexivity|].
    rewrite length_app, plane_masks_length in Hm.
    unfold total_masks in *; simpl.
    rewrite !map_app, plane_masks_mask, plane_masks_is_cell, plane_masks_seg_keys,
      Hm, Hc, Hs, seq_app.
    repeat split.
    apply Forall_app; split.
    + apply Forall_forall; intros d Hd; left; symmetry.
      eapply plane_masks_seg_key; exact Hd.
    + eapply Forall_impl; [|exact Hk]; intros d Hd; right; exact Hd.
Qed.

(** ** Primary keys and tables *)

Ltac destruct_rows :=
  repeat match goal with
         | x : ProcessingRow.t |- _ => destruct x
         | x : OutputFileRow.t |- _ => destruct x
         | x : MotionCorrectionRow.t |- _ => destruct x
         | x : RigidRow.t |- _ => destruct x
         | x : NonRigidRow.t |- _ => destruct x
         | x : BlockRow.t |- _ => destruct x
         | x : ImagesRow.t |- _ => destruct x
         | x : SegmentationRow.t |- _ => destruct x
         | x : MaskRow.t |- _ => destruct x
         | x : CellRow.t |- _ => destruct x
         | x : TraceRow.t |- _ => destruct x
         | x : FieldKey |- _ => destruct x
         | x : TaskKey |- _ => destruct x
         end.

(** Equal primary keys: same table, same task. *)
Lemma pk_task_of (r r' : Row) : pk r = pk r' -> task_of r = task_of r'.
Proof.
  destruct r, r'; simpl; intros E; try discriminate E; try reflexivity;
    destruct_rows; unfold field_atoms, task_atoms in E; simpl in *;
    inversion E; reflexivity.
Qed.

Lemma fresh_has_pk T key st r :
  fresh T key st -> task_of r = Some (T, key) -> has_pk st (pk r) = false.
Proof.
  intros Hf Hr; apply has_pk_false; intros r' Hin E.
  apply pk_task_of in E. apply (Hf r' Hin). congruence.
Qed.

Lemma NoDup_map_via {A B C} (f : A -> B) (g : A -> C) (l : list A) :
  (forall a b, f a = f b -> g a = g b) -> NoDup (map g l) -> NoDup (map f l).
Proof.
  intros Hfg; induction l as [|x l IH]; simpl; intros ND; [constructor|].
  inversion ND as [|? ? Hnotin ND']; subst; constructor; [|apply IH; exact ND'].
  intros Hin; apply Hnotin. apply in_map_iff in Hin; destruct Hin as [y [E Hy]].
  apply Hfg in E. rewrite <- E. apply in_map; exact Hy.
Qed.

Lemma task_of_derived r : task_of r <> None -> derived r.
Proof. destruct r; simpl; intros H; try reflexivity; congruence. Qed.

Lemma written_by_derived T k r : written_by T k r -> derived r.
Proof.
  intros [H | [_ [f ->]]]; [|reflexivity]. apply task_of_derived; congruence.
Qed.

(** Derived rows leave the manual and lookup tables alone. *)
Lemma computed_rows_frame (st d : Store) :
  Forall derived d ->
  ProcessingMethod.rows (st ++ d) = ProcessingMethod.rows st
  /\ ProcessingTask.rows (st ++ d) = ProcessingTask.rows st
  /\ ScanInfo.rows (st ++ d) = ScanInfo.rows st
  /\ ScanInfo.Field.rows (st ++ d) = ScanInfo.Field.rows st.
Proof.
  intros Hd.
  unfold ProcessingMethod.rows, ProcessingTask.rows, ScanInfo.rows, ScanInfo.Field.rows.
  rewrite !flat_map_app.
  assert (G : forall (A : Type) (f : Row -> list A),
             (forall r, derived r -> f r = []) -> flat_map f d = []).
  { intros A f Hf; induction Hd as [|r d Hr _ IH]; simpl; [reflexivity|].
    rewrite (Hf r Hr), IH; reflexivity. }
  rewrite !G, !app_nil_r; [tauto| | | |];
    intros r Hr; destruct r; simpl in *; try reflexivity; discriminate Hr.
Qed.

Lemma fetch1_field_key_frame st d key plane :
  Forall derived d ->
  fetch1_field_key (st ++ d) key plane = fetch1_field_key st key plane.
Proof.
  intros Hd; destruct (computed_rows_frame st d Hd) as [_ [E1 [_ E2]]].
  unfold fetch1_field_key; rewrite E1, E2; reflexivity.
Qed.

Lemma fetch1_processing_method_frame st d key :
  Forall derived d ->
  fetch1_processing_method (st ++ d) key = fetch1_processing_method st key.
Proof.
  intros Hd; destruct (computed_rows_frame st d Hd) as [E1 [E2 _]].
  unfold fetch1_processing_method; rewrite E1, E2; reflexivity.
Qed.

Lemma resolve_frame st d key its :
  Forall derived d ->
  resolve (st ++ d) key its = resolve st key its.
Proof.
  intros Hd; unfold resolve; induction its as [|it its IH]; simpl; [reflexivity|].
  rewrite fetch1_field_key_frame by exact Hd. rewrite IH; reflexivity.
Qed.

Lemma bind_ok {A B} (m : M A) (f : A -> M B) st a st1 :
  m st = Ok (a, st1) -> bind m f st = f a st1.
Proof. unfold bind; intros ->; reflexivity. Qed.

Lemma query_ok {A} (q : Store -> Result A) st a :
  q st = Ok a -> query q st = Ok (a, st).
Proof. unfold query, lift; intros ->; reflexivity. Qed.

Lemma lift_ok {A} (r : Result A) st a : r = Ok a -> lift r st = Ok (a, st).
Proof. intros ->; reflexivity. Qed.

(** ** Segmentation.make on a new key *)

Lemma Segmentation_make_ok env key st dir l plane0 :
  fetch1_processing_method st key = Ok "suite2p" ->
  _get_suite2p_dir env key = Some dir ->
  Suite2p env dir = Ok l ->
  dict_get (suite2p.planes l) 0%Z = Ok plane0 ->
  (forall it, In it (suite2p.planes l) ->
              exists fk, fetch1_field_key st key (fst it) = Ok fk) ->
  fresh T_Segmentation key st ->
  exists res,
    resolve st key (suite2p.planes l) = Ok res
    /\ Segmentation.make env key st
       = Ok (tt, st ++ Segmentation_rows key plane0 (collect res [])).
Proof.
  intros Hm Hd Hl H0 Hf Hfresh.
  destruct (resolve_ok st key _ Hf) as [res Hres]. exists res; split; [exact Hres|].
  set (seg := R_Segmentation
                {| SegmentationRow.key := key;
                   SegmentationRow.seg_channel := suite2p.segmentation_channel plane0 |}).
  assert (Hseg : Forall derived [seg]) by (constructor; [reflexivity | constructor]).
  assert (Htask : forall d, In d (collect res []) -> fk_task (Segmentation.seg_key d) = key).
  { destruct (collect_spec res []) as [new [E [_ [_ [_ Hk]]]]]; simpl in E; rewrite E.
    intros d Hd'. rewrite Forall_forall in Hk. specialize (Hk d Hd').
    apply in_map_iff in Hk; destruct Hk as [r [<- Hr]].
    pose proof (resolve_task _ _ _ _ Hres) as Ht. rewrite Forall_forall in Ht.
    apply Ht; exact Hr. }
  assert (Hids : NoDup (map Segmentation.mask (collect res []))).
  { destruct (collect_spec res []) as [new [E [Hm' _]]]; simpl in E; rewrite E, Hm'.
    apply seq_NoDup. }
  unfold Segmentation.make.
  erewrite bind_ok by (apply query_ok; exact Hm). simpl.
  erewrite bind_ok by (apply lift_ok; rewrite Hd; reflexivity).
  erewrite bind_ok by (apply lift_ok; exact Hl).
  erewrite bind_ok by (apply lift_ok; exact H0).
  erewrite bind_ok by (apply insert1_ok; eapply fresh_has_pk; [exact Hfresh | reflexivity]).
  fold seg.
  erewrite bind_ok
    by (rewrite Segmentation_plane_loop_eq; unfold dict_items;
        rewrite resolve_frame, Hres by exact Hseg; reflexivity).
  erewrite bind_ok.
  2:{ apply insert_ok.
      - rewrite map_map.
        apply NoDup_map_via with (g := Segmentation.mask); [|exact Hids].
        intros a b E; simpl in E; inversion E; congruence.
      - intros r Hr; apply in_map_iff in Hr; destruct Hr as [d [<- Hd']].
        apply has_pk_false; intros r' Hin E.
        apply in_app_or in Hin; destruct Hin as [Hin | [<- | []]].
        + apply pk_task_of in E; simpl in E. rewrite (Htask d Hd') in E.
          exact (Hfresh r' Hin E).
        + discriminate E. }
  unfold Segmentation_rows; fold seg.
  rewrite insert_ok.
  - rewrite <- !app_assoc; reflexivity.
  - rewrite map_map.
    apply NoDup_map_via with (g := Segmentation.mask); [|exact Hids].
    intros a b E; simpl in E; inversion E; congruence.
  - intros r Hr; apply in_map_iff in Hr; destruct Hr as [d [<- Hd']].
    apply has_pk_false; intros r' Hin E.
    apply in_app_or in Hin; destruct Hin as [Hin | Hin];
      [apply in_app_or in Hin; destruct Hin as [Hin | [<- | []]]|].
    + apply pk_task_of in E; simpl in E. rewrite (Htask d Hd') in E.
      exact (Hfresh r' Hin E).
    + discriminate E.
    + apply in_map_iff in Hin; destruct Hin as [d' [<- _]]; discriminate E.
Qed.

Lemma flat_map_map_single {A B C} (f : B -> list C) (g : A -> B) (h : A -> C) (l : list A) :
  (forall x, f (g x) = [h x]) -> flat_map f (map g l) = map h l.
Proof.
  intros H; induction l as [|x l IH]; simpl; [reflexivity|].
  rewrite H, IH; reflexivity.
Qed.

Lemma flat_map_map_nil {A B C} (f : B -> list C) (g : A -> B) (l : list A) :
  (forall x, f (g x) = []) -> flat_map f (map g l) = [].
Proof.
  intros H; induction l as [|x l IH]; simpl; [reflexivity|].
  rewrite H, IH; reflexivity.
Qed.

Lemma Segmentation_rows_views st key plane0 masks :
  let st' := st ++ Segmentation_rows key plane0 masks in
  Segmentation.rows st'
  = Segmentation.rows st
      ++ [{| SegmentationRow.key := key;
             SegmentationRow.seg_channel := suite2p.segmentation_channel plane0 |}]
  /\ Segmentation.Mask.rows st'
     = Segmentation.Mask.rows st ++ map Segmentation.Mask_row masks
  /\ Segmentation.Cell.rows st'
     = Segmentation.Cell.rows st ++ map Segmentation.Cell_row masks.
Proof.
  unfold Segmentation_rows, Segmentation.rows, Segmentation.Mask.rows, Segmentation.Cell.rows.
  simpl. rewrite !flat_map_app; simpl. rewrite !flat_map_app.
  rewrite (flat_map_map_nil _ (fun d => R_Mask (Segmentation.Mask_row d))) by reflexivity.
  rewrite (flat_map_map_nil _ (fun d => R_Cell (Segmentation.Cell_row d))) by reflexivity.
  rewrite (flat_map_map_single _ (fun d => R_Mask (Segmentation.Mask_row d))
             Segmentation.Mask_row) by reflexivity.
  rewrite (flat_map_map_nil _ (fun d => R_Cell (Segmentation.Cell_row d))) by reflexivity.
  rewrite (flat_map_map_nil _ (fun d => R_Mask (Segmentation.Mask_row d))) by reflexivity.
  rewrite (flat_map_map_single _ (fun d => R_Cell (Segmentation.Cell_row d))
             Segmentation.Cell_row) by reflexivity.
  rewrite !app_nil_r; simpl; auto.
Qed.

Lemma plane_wf_n_masks p : plane_wf p -> n_masks p = List.length (suite2p.iscell p).
Proof.
  intros [H1 H2]; unfold n_masks, zip; rewrite !length_combine; lia.
Qed.

Lemma resolve_Forall2 st key its res :
  resolve st key its = Ok res ->
  Forall2 (fun it fk => fetch1_field_key st key (fst it) = Ok fk) its (map fst res).
Proof.
  revert res; induction its as [|[plane s2p] its IH]; intros res H.
  - inversion H; constructor.
  - apply resolve_cons_inv in H; destruct H as [fk [res' [E [H ->]]]].
    simpl; constructor; [exact E | apply IH; exact H].
Qed.

Lemma map_repeat_Forall {A B} (f : A -> B) (b : B) (l : list A) :
  Forall (fun a => f a = b) l -> map f l = repeat b (List.length l).
Proof.
  induction 1 as [|x l Hx _ IH]; simpl; [reflexivity|]. rewrite Hx, IH; reflexivity.
Qed.

Lemma map_combine_fst {A B C D} (g : A -> C -> D) (res : list (A * C)) :
  forall (its : list (B * C)),
    map snd res = map snd its ->
    map (fun r => g (fst r) (snd r)) res
    = map (fun '(a, it) => g a (snd it)) (combine (map fst res) its).
Proof.
  induction res as [|[a c] res IH]; intros [|[b c'] its] E; simpl in *;
    try discriminate; [reflexivity|].
  inversion E; subst. rewrite (IH its) by assumption. reflexivity.
Qed.

(** C1: one Segmentation make step on a new key, for a loader output whose
    planes report n1, ..., nk masks, inserts n1+...+nk Mask rows with the ids
    0 .. n1+...+nk-1 in plane-then-local order, each under its plane's
    field, and as many Cell rows under the same ids whose is_cell flags are
    the loader's iscell values in that order. *)
Theorem Segmentation_make_mask_ids env key st dir l plane0 :
  fetch1_processing_method st key = Ok "suite2p" ->
  _get_suite2p_dir env key = Some dir ->
  Suite2p env dir = Ok l ->
  dict_get (suite2p.planes l) 0%Z = Ok plane0 ->
  (forall it, In it (suite2p.planes l) ->
              exists fk, fetch1_field_key st key (fst it) = Ok fk) ->
  fresh T_Segmentation key st ->
  Forall (fun it => plane_wf (snd it)) (suite2p.planes l) ->
  let n := fun it : Z * suite2p.PlaneSuite2p => List.length (suite2p.iscell (snd it)) in
  let total := list_sum (map n (suite2p.planes l)) in
  exists st' fks new_masks new_cells,
    Segmentation.make env key st = Ok (tt, st')
    /\ Forall2 (fun it fk => fetch1_field_key st key (fst it) = Ok fk) (suite2p.planes l) fks
    /\ Segmentation.Mask.rows st' = Segmentation.Mask.rows st ++ new_masks
    /\ Segmentation.Cell.rows st' = Segmentation.Cell.rows st ++ new_cells
    /\ List.length new_masks = total
    /\ map MaskRow.mask new_masks = seq 0 total
    /\ map MaskRow.key new_masks = repeat key total
    /\ map MaskRow.field new_masks
       = List.concat (map (fun '(fk, it) => repeat (field_idx fk) (n it))
                          (combine fks (suite2p.planes l)))
    /\ List.length new_cells = total
    /\ map CellRow.mask new_cells = seq 0 total
    /\ map CellRow.key new_cells = repeat key total
    /\ map CellRow.is_cell new_cells
       = List.concat (map (fun it => suite2p.iscell (snd it)) (suite2p.planes l)).
Proof.
  intros Hm Hd Hl H0 Hf Hfresh Hwf n total.
  destruct (Segmentation_make_ok env key st dir l plane0 Hm Hd Hl H0 Hf Hfresh)
    as [res [Hres Hmake]].
  destruct (Segmentation_rows_views st key plane0 (collect res [])) as [_ [Vm Vc]].
  destruct (collect_spec res []) as [new [E [Hids [Hcell [Hkeys _]]]]].
  simpl in E, Hids; rewrite E in *.
  pose proof (resolve_planes _ _ _ _ Hres) as Hsnd.
  pose proof (resolve_task _ _ _ _ Hres) as Htask.
  assert (Htotal : total_masks (map snd res) = total).
  { unfold total_masks, total; rewrite Hsnd, map_map; f_equal.
    apply map_ext_in; intros it Hit. rewrite Forall_forall in Hwf.
    apply plane_wf_n_masks, Hwf, Hit. }
  assert (Hlen : List.length new = total).
  { rewrite <- (length_map Segmentation.mask), Hids, length_seq; exact Htotal. }
  assert (Hkey : Forall (fun d => fk_task (Segmentation.seg_key d) = key) new).
  { apply Forall_forall; intros d Hd'.
    assert (Hin : In (Segmentation.seg_key d) (map Segmentation.seg_key new))
      by (apply in_map; exact Hd').
    rewrite Hkeys in Hin. apply in_concat in Hin; destruct Hin as [ks [Hks Hin]].
    apply in_map_iff in Hks; destruct Hks as [r [<- Hr]].
    apply repeat_spec in Hin; rewrite Hin.
    rewrite Forall_forall in Htask; apply Htask; exact Hr. }
  exists (st ++ Segmentation_rows key plane0 new), (map fst res),
    (map Segmentation.Mask_row new), (map Segmentation.Cell_row new).
  rewrite !length_map, !map_map; simpl.
  repeat split; try assumption.
  - apply resolve_Forall2; exact Hres.
  - change (map Segmentation.mask new = seq 0 total); rewrite Hids, Htotal; reflexivity.
  - rewrite <- Hlen; apply map_repeat_Forall; exact Hkey.
  - rewrite <- (map_map Segmentation.seg_key field_idx), Hkeys, concat_map, map_map.
    f_equal.
    transitivity (map (fun r : FieldKey * suite2p.PlaneSuite2p =>
                         repeat (field_idx (fst r)) (List.length (suite2p.iscell (snd r))))
                      res).
    + apply map_ext_in; intros r Hr. rewrite map_repeat; f_equal.
      apply plane_wf_n_masks. rewrite Forall_forall in Hwf.
      assert (Hin : In (snd r) (map snd (suite2p.planes l)))
        by (rewrite <- Hsnd; apply in_map; exact Hr).
      apply in_map_iff in Hin; destruct Hin as [it [<- Hit]]; apply Hwf; exact Hit.
    + exact (map_combine_fst
               (fun fk (p : suite2p.PlaneSuite2p) =>
                  repeat (field_idx fk) (List.length (suite2p.iscell p)))
               res (suite2p.planes l) Hsnd).
  - change (map Segmentation.mask new = seq 0 total); rewrite Hids, Htotal; reflexivity.
  - rewrite <- Hlen; apply map_repeat_Forall; exact Hkey.
  - change (map Segmentation.is_cell new
            = List.concat (map (fun it => suite2p.iscell (snd it)) (suite2p.planes l))).
    rewrite Hcell, Hsnd, map_map; f_equal.
    apply map_ext_in; intros it Hit. rewrite Forall_forall in Hwf.
    rewrite (plane_wf_n_masks _ (Hwf it Hit)); apply firstn_all.
Qed.

(** ** MotionCorrection.make on a new key *)

Lemma pk_mc_field_of (r r' : Row) :
  pk r = pk r' -> mc_field_of r' <> None -> mc_field_of r = mc_field_of r'.
Proof.
  destruct r, r'; simpl; intros E Hn; try discriminate E; try congruence;
    destruct_rows; unfold field_atoms, task_atoms in E; simpl in *;
    inversion E; reflexivity.
Qed.

Lemma mc_field_has_pk st fk r :
  (forall r', In r' st -> mc_field_of r' <> Some fk) ->
  mc_field_of r = Some fk -> has_pk st (pk r) = false.
Proof.
  intros Hf Hr; apply has_pk_false; intros r' Hin E.
  apply pk_mc_field_of in E; [|congruence]. apply (Hf r' Hin); congruence.
Qed.

Lemma nr_blocks_key env fk s2p b :
  In b (MotionCorrection.nr_blocks env fk s2p) -> BlockRow.key b = fk.
Proof.
  unfold MotionCorrection.nr_blocks; intros H; apply in_map_iff in H.
  destruct H as [[b_id [b_y [b_x [sy sx]]]] [<- _]]; reflexivity.
Qed.

Lemma nr_blocks_ids env fk s2p :
  NoDup (map BlockRow.block_id (MotionCorrection.nr_blocks env fk s2p)).
Proof.
  unfold MotionCorrection.nr_blocks. rewrite map_map.
  match goal with
  | |- NoDup (map ?f (enumerate ?l)) =>
      replace (map f (enumerate l)) with (map fst (enumerate l))
        by (apply map_ext; intros [b_id [b_y [b_x [sy sx]]]]; reflexivity)
  end.
  rewrite enumerate_fst; apply seq_NoDup.
Qed.

Lemma plane_rows_field env r row :
  In row (plane_rows env r) -> mc_field_of row = Some (fst r).
Proof.
  unfold plane_rows; intros [<- | H]; [reflexivity|].
  destruct (suite2p.nonrigid _); [|destruct H].
  destruct H as [<- | H]; [reflexivity|].
  apply in_map_iff in H; destruct H as [b [<- Hb]]; simpl.
  f_equal; eapply nr_blocks_key; exact Hb.
Qed.

Lemma plane_rows_derived env r : Forall derived (plane_rows env r).
Proof.
  apply Forall_forall; intros row H.
  apply plane_rows_field in H. destruct row; simpl in *; try reflexivity; discriminate H.
Qed.

Lemma MotionCorrection_plane_step_ok env key plane s2p st fk :
  fetch1_field_key st key plane = Ok fk ->
  (forall r, In r st -> mc_field_of r <> Some fk) ->
  MotionCorrection.plane_step env key plane s2p st = Ok (tt, st ++ plane_rows env (fk, s2p)).
Proof.
  intros Hfk Hfresh. unfold MotionCorrection.plane_step, plane_rows; simpl.
  erewrite bind_ok by (apply query_ok; exact Hfk).
  erewrite bind_ok by (apply insert1_ok; eapply mc_field_has_pk; [exact Hfresh | reflexivity]).
  destruct (suite2p.nonrigid (suite2p.ops s2p)); [|reflexivity].
  erewrite bind_ok.
  2:{ apply insert1_ok. apply has_pk_false; intros r' Hin E.
      apply in_app_or in Hin; destruct Hin as [Hin | [<- | []]]; [|discriminate E].
      apply pk_mc_field_of in E; [|discriminate]. apply (Hfresh r' Hin); exact E. }
  rewrite insert_ok.
  - rewrite <- !app_assoc; reflexivity.
  - rewrite map_map.
    apply NoDup_map_via with (g := BlockRow.block_id); [|apply nr_blocks_ids].
    intros a b E; simpl in E; inversion E; congruence.
  - intros r Hr; apply in_map_iff in Hr; destruct Hr as [b [<- Hb]].
    apply has_pk_false; intros r' Hin E.
    apply in_app_or in Hin; destruct Hin as [Hin | [<- | []]]; [|discriminate E].
    apply in_app_or in Hin; destruct Hin as [Hin | [<- | []]]; [|discriminate E].
    apply pk_mc_field_of in E; [|discriminate]. simpl in E.
    rewrite (nr_blocks_key _ _ _ _ Hb) in E. apply (Hfresh r' Hin); exact E.
Qed.

Lemma MotionCorrection_plane_loop_ok env key its : forall res st,
  resolve st key its = Ok res ->
  NoDup (map fst res) ->
  (forall fk r, In fk (map fst res) -> In r st -> mc_field_of r <> Some fk) ->
  MotionCorrection.plane_loop env key its st = Ok (tt, st ++ flat_map (plane_rows env) res).
Proof.
  induction its as [|[plane s2p] its IH]; intros res st Hres ND Hfresh.
  - inversion Hres; simpl; unfold ret; rewrite app_nil_r; reflexivity.
  - apply resolve_cons_inv in Hres; destruct Hres as [fk [res' [Hfk [Hres ->]]]].
    simpl in ND; inversion ND as [|? ? Hnotin ND']; subst.
    simpl MotionCorrection.plane_loop.
    erewrite bind_ok
      by (apply MotionCorrection_plane_step_ok;
          [exact Hfk | intros r Hr; apply Hfresh; [left; reflexivity | exact Hr]]).
    rewrite (IH res').
    + simpl; rewrite <- app_assoc; reflexivity.
    + rewrite resolve_frame; [exact Hres | apply plane_rows_derived].
    + exact ND'.
    + intros fk' r Hfk' Hr E. apply in_app_or in Hr; destruct Hr as [Hr | Hr].
      * apply (Hfresh fk' r); [right; exact Hfk' | exact Hr | exact E].
      * apply plane_rows_field in Hr; simpl in Hr. congruence.
Qed.

Lemma Field_rows_In st f : In f (ScanInfo.Field.rows st) <-> In (R_Field f) st.
Proof.
  unfold ScanInfo.Field.rows; rewrite in_flat_map; split.
  - intros [r [Hr Hf]]; destruct r; simpl in Hf; try contradiction.
    destruct Hf as [<- | []]; exact Hr.
  - intros H; exists (R_Field f); split; [exact H | left; reflexivity].
Qed.

Lemma NoDup_map_eq {A B} (f : A -> B) (l : list A) (a b : A) :
  NoDup (map f l) -> In a l -> In b l -> f a = f b -> a = b.
Proof.
  induction l as [|x l IH]; simpl; intros ND Ha Hb E; [contradiction|].
  inversion ND as [|? ? Hnotin ND']; subst.
  destruct Ha as [-> | Ha], Hb as [-> | Hb]; auto.
  - elim Hnotin; rewrite E; apply in_map; exact Hb.
  - elim Hnotin; rewrite <- E; apply in_map; exact Ha.
Qed.

(** With unique primary keys in the store, two planes have two fields. *)
Lemma fetch1_field_key_inj st key p q fk :
  NoDup (map pk st) ->
  fetch1_field_key st key p = Ok fk ->
  fetch1_field_key st key q = Ok fk ->
  p = q.
Proof.
  intros ND Hp Hq.
  apply fetch1_field_key_inv in Hp; destruct Hp as [_ [f [Hf [Hs [Hp Hi]]]]].
  apply fetch1_field_key_inv in Hq; destruct Hq as [_ [f' [Hf' [Hs' [Hq Hi']]]]].
  apply Field_rows_In in Hf, Hf'.
  assert (E : R_Field f = R_Field f').
  { apply (NoDup_map_eq pk st); auto. simpl; congruence. }
  inversion E; subst; reflexivity.
Qed.

Lemma resolve_In st key its res fk :
  resolve st key its = Ok res -> In fk (map fst res) ->
  exists it, In it its /\ fetch1_field_key st key (fst it) = Ok fk.
Proof.
  revert res; induction its as [|[plane s2p] its IH]; intros res H Hin.
  - inversion H; subst; destruct Hin.
  - apply resolve_cons_inv in H; destruct H as [fk0 [res' [E [H ->]]]].
    destruct Hin as [<- | Hin].
    + exists (plane, s2p); split; [left; reflexivity | exact E].
    + destruct (IH res' H Hin) as [it [Hit Hfk]]; exists it; split; [right|]; assumption.
Qed.

Lemma resolve_NoDup st key its res :
  NoDup (map pk st) -> NoDup (map fst its) ->
  resolve st key its = Ok res -> NoDup (map fst res).
Proof.
  intros NDst; revert res; induction its as [|[plane s2p] its IH]; intros res ND H.
  - inversion H; constructor.
  - apply resolve_cons_inv in H; destruct H as [fk [res' [E [H ->]]]].
    simpl in ND; inversion ND as [|? ? Hnotin ND']; subst.
    simpl; constructor; [|apply IH; assumption].
    intros Hin. destruct (resolve_In _ _ _ _ _ H Hin) as [it [Hit Hfk]].
    apply Hnotin. rewrite (fetch1_field_key_inj st key plane (fst it) fk NDst E Hfk).
    apply in_map; exact Hit.
Qed.

Lemma MotionCorrection_make_ok env key st dir l plane0 :
  fetch1_processing_method st key = Ok "suite2p" ->
  _get_suite2p_dir env key = Some dir ->
  Suite2p env dir = Ok l ->
  dict_get (suite2p.planes l) 0%Z = Ok plane0 ->
  (forall it, In it (suite2p.planes l) ->
              exists fk, fetch1_field_key st key (fst it) = Ok fk) ->
  fresh T_MotionCorrection key st ->
  NoDup (map fst (suite2p.planes l)) ->
  NoDup (map pk st) ->
  exists res,
    resolve st key (suite2p.planes l) = Ok res
    /\ NoDup (map fst res)
    /\ MotionCorrection.make env key st
       = Ok (tt, st ++ MotionCorrection_rows env key plane0 res).
Proof.
  intros Hm Hd Hl H0 Hf Hfresh NDp NDst.
  destruct (resolve_ok st key _ Hf) as [res Hres].
  pose proof (resolve_NoDup _ _ _ _ NDst NDp Hres) as NDres.
  exists res; split; [exact Hres | split; [exact NDres|]].
  set (mc := R_MotionCorrection
               {| MotionCorrectionRow.key := key;
                  MotionCorrectionRow.mc_channel := suite2p.alignment_channel plane0 |}).
  assert (Hmc : Forall derived [mc]) by (constructor; [reflexivity | constructor]).
  unfold MotionCorrection.make.
  erewrite bind_ok by (apply query_ok; exact Hm). simpl.
  erewrite bind_ok by (apply lift_ok; rewrite Hd; reflexivity).
  erewrite bind_ok by (apply lift_ok; exact Hl).
  erewrite bind_ok by (apply lift_ok; exact H0).
  erewrite bind_ok by (apply insert1_ok; eapply fresh_has_pk; [exact Hfresh | reflexivity]).
  fold mc. unfold dict_items.
  rewrite (MotionCorrection_plane_loop_ok env key _ res).
  - unfold MotionCorrection_rows; fold mc; rewrite <- app_assoc; reflexivity.
  - rewrite resolve_frame by exact Hmc; exact Hres.
  - exact NDres.
  - intros fk r Hfk Hr E. apply in_app_or in Hr; destruct Hr as [Hr | [<- | []]];
      [|discriminate E].
    apply (Hfresh r Hr).
    pose proof (resolve_task _ _ _ _ Hres) as Ht. rewrite Forall_forall in Ht.
    apply in_map_iff in Hfk; destruct Hfk as [x [<- Hx]]. specialize (Ht x Hx).
    destruct r; simpl in E |- *; try discriminate E; inversion E; congruence.
Qed.

Lemma field_key_eqb_eq (a b : FieldKey) : field_key_eqb a b = true <-> a = b.
Proof.
  unfold field_key_eqb; rewrite andb_true_iff, key_eqb_eq, Z.eqb_eq.
  destruct a, b; simpl; split; [intros [-> ->]; reflexivity | intros E; inversion E; auto].
Qed.

Lemma field_key_eqb_refl (a : FieldKey) : field_key_eqb a a = true.
Proof. apply field_key_eqb_eq; reflexivity. Qed.

Lemma flat_map_flat_map {A B C} (f : B -> list C) (g : A -> list B) (l : list A) :
  flat_map f (flat_map g l) = flat_map (fun x => flat_map f (g x)) l.
Proof.
  induction l as [|x l IH]; simpl; [reflexivity|]. rewrite flat_map_app, IH; reflexivity.
Qed.

Lemma filter_nil {A} (p : A -> bool) (l : list A) :
  (forall x, In x l -> p x = false) -> filter p l = [].
Proof.
  induction l as [|x l IH]; simpl; intros H; [reflexivity|].
  rewrite (H x (or_introl eq_refl)). apply IH; intros y Hy; apply H; right; exact Hy.
Qed.

Lemma filter_all {A} (p : A -> bool) (l : list A) :
  (forall x, In x l -> p x = true) -> filter p l = l.
Proof.
  induction l as [|x l IH]; simpl; intros H; [reflexivity|].
  rewrite (H x (or_introl eq_refl)). f_equal; apply IH; intros y Hy; apply H; right; exact Hy.
Qed.

(** The rows of one field among the rows the planes contributed. *)
Lemma filter_flat_map_field {X R} (kf : R -> FieldKey) (F : FieldKey * X -> list R)
      (res : list (FieldKey * X)) (x0 : FieldKey * X) :
  (forall x r, In r (F x) -> kf r = fst x) ->
  NoDup (map fst res) -> In x0 res ->
  filter (fun r => field_key_eqb (kf r) (fst x0)) (flat_map F res) = F x0.
Proof.
  intros HF; induction res as [|x res IH]; simpl; intros ND Hin; [contradiction|].
  inversion ND as [|? ? Hnotin ND']; subst. rewrite filter_app.
  destruct Hin as [-> | Hin].
  - rewrite filter_all by (intros r Hr; rewrite (HF _ _ Hr); apply field_key_eqb_refl).
    rewrite filter_nil; [apply app_nil_r|].
    intros r Hr. apply in_flat_map in Hr; destruct Hr as [y [Hy Hr]].
    destruct (field_key_eqb (kf r) (fst x0)) eqn:E; [|reflexivity].
    apply field_key_eqb_eq in E. elim Hnotin. rewrite <- E, (HF _ _ Hr).
    apply in_map; exact Hy.
  - rewrite filter_nil; [apply IH; assumption|].
    intros r Hr. destruct (field_key_eqb (kf r) (fst x0)) eqn:E; [|reflexivity].
    apply field_key_eqb_eq in E. elim Hnotin. rewrite <- (HF _ _ Hr), E.
    apply in_map; exact Hin.
Qed.

Lemma MotionCorrection_rows_views env st key plane0 res :
  let st' := st ++ MotionCorrection_rows env key plane0 res in
  MotionCorrection.rows st'
  = MotionCorrection.rows st
      ++ [{| MotionCorrectionRow.key := key;
             MotionCorrectionRow.mc_channel := suite2p.alignment_channel plane0 |}]
  /\ MotionCorrection.RigidMotionCorrection.rows st'
     = MotionCorrection.RigidMotionCorrection.rows st
         ++ flat_map (fun r => [MotionCorrection.rigid_mc env (fst r) (snd r)]) res
  /\ MotionCorrection.NonRigidMotionCorrection.rows st'
     = MotionCorrection.NonRigidMotionCorrection.rows st
         ++ flat_map (fun r => if suite2p.nonrigid (suite2p.ops (snd r))
                               then [MotionCorrection.nonrigid_mc (fst r) (snd r)] else [])
                     res
  /\ MotionCorrection.Block.rows st'
     = MotionCorrection.Block.rows st
         ++ flat_map (fun r => if suite2p.nonrigid (suite2p.ops (snd r))
                               then MotionCorrection.nr_blocks env (fst r) (snd r) else [])
                     res.
Proof.
  unfold MotionCorrection_rows, MotionCorrection.rows,
    MotionCorrection.RigidMotionCorrection.rows,
    MotionCorrection.NonRigidMotionCorrection.rows, MotionCorrection.Block.rows.
  simpl. rewrite !flat_map_app; simpl. rewrite !flat_map_flat_map.
  assert (Hnil : forall (A B : Type) (f : A -> list B) (l : list A),
             (forall x, f x = []) -> flat_map f l = []).
  { intros A B f l Hf; induction l as [|x l IH]; simpl; [reflexivity|].
    rewrite Hf, IH; reflexivity. }
  split; [|split; [|split]].
  - f_equal. rewrite Hnil; [reflexivity|].
    intros r; unfold plane_rows; simpl.
    destruct (suite2p.nonrigid (suite2p.ops (snd r))); simpl; [|reflexivity].
    apply (flat_map_map_nil _ R_Block); reflexivity.
  - f_equal. apply flat_map_ext; intros r; unfold plane_rows; simpl.
    destruct (suite2p.nonrigid (suite2p.ops (snd r))); simpl; [|reflexivity].
    rewrite (flat_map_map_nil _ R_Block) by reflexivity; reflexivity.
  - f_equal. apply flat_map_ext; intros r; unfold plane_rows; simpl.
    destruct (suite2p.nonrigid (suite2p.ops (snd r))); simpl; [|reflexivity].
    rewrite (flat_map_map_nil _ R_Block) by reflexivity; reflexivity.
  - f_equal. apply flat_map_ext; intros r; unfold plane_rows; simpl.
    destruct (suite2p.nonrigid (suite2p.ops (snd r))); simpl; [|reflexivity].
    rewrite (flat_map_map_single _ R_Block (fun b => b)) by reflexivity.
    apply map_id.
Qed.

Lemma fresh_parts_of st fk :
  fresh T_MotionCorrection (fk_task fk) st ->
  rigid_of st fk = [] /\ nonrigid_of st fk = [] /\ blocks_of st fk = [].
Proof.
  intros Hf; unfold rigid_of, nonrigid_of, blocks_of,
    MotionCorrection.RigidMotionCorrection.rows,
    MotionCorrection.NonRigidMotionCorrection.rows, MotionCorrection.Block.rows.
  repeat split; apply filter_nil; intros x Hx;
    apply in_flat_map in Hx; destruct Hx as [r [Hr Hx]];
    destruct r; simpl in Hx; try contradiction; destruct Hx as [<- | []];
    (match goal with |- ?b = false => destruct b eqn:E end; [|reflexivity]);
    apply field_key_eqb_eq in E; elim (Hf _ Hr); simpl; rewrite E; reflexivity.
Qed.

Lemma combine_resolved {A B C} (its : list (A * C)) : forall (res : list (B * C)) it fk,
  map snd res = map snd its ->
  In (it, fk) (combine its (map fst res)) -> In (fk, snd it) res.
Proof.
  induction its as [|[a c] its IH]; intros [|[b c'] res] it fk E Hin; simpl in *;
    try contradiction.
  inversion E; subst. destruct Hin as [Hin | Hin].
  - inversion Hin; subst; left; reflexivity.
  - right; apply IH; assumption.
Qed.

(** C6: for every plane of the loader output, one MotionCorrection make step
    inserts the rigid row of the plane's field, whatever [ops['nonrigid']]
    says; it inserts the non-rigid row and the block rows of that field when
    [ops['nonrigid']] is true, and none of them when it is false. *)
Theorem MotionCorrection_make_nonrigid_iff env key st dir l plane0 :
  fetch1_processing_method st key = Ok "suite2p" ->
  _get_suite2p_dir env key = Some dir ->
  Suite2p env dir = Ok l ->
  dict_get (suite2p.planes l) 0%Z = Ok plane0 ->
  (forall it, In it (suite2p.planes l) ->
              exists fk, fetch1_field_key st key (fst it) = Ok fk) ->
  fresh T_MotionCorrection key st ->
  NoDup (map fst (suite2p.planes l)) ->
  NoDup (map pk st) ->
  exists st' fks,
    MotionCorrection.make env key st = Ok (tt, st')
    /\ Forall2 (fun it fk => fetch1_field_key st key (fst it) = Ok fk) (suite2p.planes l) fks
    /\ forall it fk,
        In (it, fk) (combine (suite2p.planes l) fks) ->
        rigid_of st' fk = [MotionCorrection.rigid_mc env fk (snd it)]
        /\ (suite2p.nonrigid (suite2p.ops (snd it)) = true ->
            nonrigid_of st' fk = [MotionCorrection.nonrigid_mc fk (snd it)]
            /\ blocks_of st' fk = MotionCorrection.nr_blocks env fk (snd it))
        /\ (suite2p.nonrigid (suite2p.ops (snd it)) = false ->
            nonrigid_of st' fk = [] /\ blocks_of st' fk = []).
Proof.
  intros Hm Hd Hl H0 Hf Hfresh NDp NDst.
  destruct (MotionCorrection_make_ok env key st dir l plane0 Hm Hd Hl H0 Hf Hfresh NDp NDst)
    as [res [Hres [NDres Hmake]]].
  exists (st ++ MotionCorrection_rows env key plane0 res), (map fst res).
  split; [exact Hmake | split; [apply resolve_Forall2; exact Hres|]].
  intros it fk Hin.
  apply combine_resolved in Hin; [|apply (resolve_planes _ _ _ _ Hres)].
  assert (Hk : fk_task fk = key).
  { pose proof (resolve_task _ _ _ _ Hres) as Ht; rewrite Forall_forall in Ht.
    apply (Ht _ Hin). }
  rewrite <- Hk in Hfresh.
  destruct (fresh_parts_of st fk Hfresh) as [Fr [Fn Fb]].
  destruct (MotionCorrection_rows_views env st key plane0 res) as [_ [Vr [Vn Vb]]].
  assert (Er : filter (fun r => field_key_eqb (RigidRow.key r) fk)
                 (flat_map (fun r => [MotionCorrection.rigid_mc env (fst r) (snd r)]) res)
               = [MotionCorrection.rigid_mc env fk (snd it)]).
  { apply (filter_flat_map_field RigidRow.key
             (fun r => [MotionCorrection.rigid_mc env (fst r) (snd r)])
             res (fk, snd it)); [|exact NDres | exact Hin].
    intros x r [<- | []]; reflexivity. }
  assert (En : filter (fun r => field_key_eqb (NonRigidRow.key r) fk)
                 (flat_map (fun r => if suite2p.nonrigid (suite2p.ops (snd r))
                                     then [MotionCorrection.nonrigid_mc (fst r) (snd r)]
                                     else []) res)
               = if suite2p.nonrigid (suite2p.ops (snd it))
                 then [MotionCorrection.nonrigid_mc fk (snd it)] else []).
  { apply (filter_flat_map_field NonRigidRow.key
             (fun r => if suite2p.nonrigid (suite2p.ops (snd r))
                       then [MotionCorrection.nonrigid_mc (fst r) (snd r)] else [])
             res (fk, snd it)); [|exact NDres | exact Hin].
    intros x r; destruct (suite2p.nonrigid (suite2p.ops (snd x)));
      [intros [<- | []]; reflexivity | intros []]. }
  assert (Eb : filter (fun r => field_key_eqb (BlockRow.key r) fk)
                 (flat_map (fun r => if suite2p.nonrigid (suite2p.ops (snd r))
                                     then MotionCorrection.nr_blocks env (fst r) (snd r)
                                     else []) res)
               = if suite2p.nonrigid (suite2p.ops (snd it))
                 then MotionCorrection.nr_blocks env fk (snd it) else []).
  { apply (filter_flat_map_field BlockRow.key
             (fun r => if suite2p.nonrigid (suite2p.ops (snd r))
                       then MotionCorrection.nr_blocks env (fst r) (snd r) else [])
             res (fk, snd it)); [|exact NDres | exact Hin].
    intros x r; destruct (suite2p.nonrigid (suite2p.ops (snd x)));
      [apply nr_blocks_key | intros []]. }
  unfold rigid_of, nonrigid_of, blocks_of in *.
  rewrite Vr, Vn, Vb, !filter_app, Fr, Fn, Fb, Er, En, Eb.
  cbn [app]. split; [reflexivity|]. split; intros ->; auto.
Qed.

(** C9: the MotionCorrection master row and the Segmentation master row of a
    key carry the alignment channel and the segmentation channel of
    [planes[0]], whatever the other planes report. *)
Theorem master_channel_from_plane0 env key l dir plane0 st_mc st_seg :
  _get_suite2p_dir env key = Some dir ->
  Suite2p env dir = Ok l ->
  dict_get (suite2p.planes l) 0%Z = Ok plane0 ->
  NoDup (map fst (suite2p.planes l)) ->
  fetch1_processing_method st_mc key = Ok "suite2p" ->
  (forall it, In it (suite2p.planes l) ->
              exists fk, fetch1_field_key st_mc key (fst it) = Ok fk) ->
  fresh T_MotionCorrection key st_mc ->
  NoDup (map pk st_mc) ->
  fetch1_processing_method st_seg key = Ok "suite2p" ->
  (forall it, In it (suite2p.planes l) ->
              exists fk, fetch1_field_key st_seg key (fst it) = Ok fk) ->
  fresh T_Segmentation key st_seg ->
  (exists st',
      MotionCorrection.make env key st_mc = Ok (tt, st')
      /\ MotionCorrection.rows st'
         = MotionCorrection.rows st_mc
             ++ [{| MotionCorrectionRow.key := key;
                    MotionCorrectionRow.mc_channel := suite2p.alignment_channel plane0 |}])
  /\ (exists st',
         Segmentation.make env key st_seg = Ok (tt, st')
         /\ Segmentation.rows st'
            = Segmentation.rows st_seg
                ++ [{| SegmentationRow.key := key;
                       SegmentationRow.seg_channel := suite2p.segmentation_channel plane0 |}]).
Proof.
  intros Hd Hl H0 NDp Hm1 Hf1 Hfr1 ND1 Hm2 Hf2 Hfr2; split.
  - destruct (MotionCorrection_make_ok env key st_mc dir l plane0
                Hm1 Hd Hl H0 Hf1 Hfr1 NDp ND1) as [res [_ [_ Hmake]]].
    eexists; split; [exact Hmake|].
    apply (MotionCorrection_rows_views env st_mc key plane0 res).
  - destruct (Segmentation_make_ok env key st_seg dir l plane0 Hm2 Hd Hl H0 Hf2 Hfr2)
      as [res [_ Hmake]].
    eexists; split; [exact Hmake|].
    apply (Segmentation_rows_views st_seg key plane0 (collect res [])).
Qed.

(** ** Every [make] step only appends rows of its own tables and key *)

Lemma Segmentation_make_extends env k st u st' :
  Segmentation.make env k st = Ok (u, st') ->
  extends (written_by T_Segmentation k) st st'.
Proof.
  unfold Segmentation.make; intros H.
  peel H. destruct (a =? "suite2p"); [|discriminate].
  peel H. peel H. peel H. peel H. peel H.
  rewrite Segmentation_plane_loop_eq in Hrun4.
  destruct (resolve st0 k _) as [res|] eqn:Hres; simpl in Hrun4; [|discriminate].
  inversion Hrun4; subst; clear Hrun4.
  assert (Htask : Forall (fun d => fk_task (Segmentation.seg_key d) = k) (collect res [])).
  { destruct (collect_spec res []) as [new [E [_ [_ [_ Hk]]]]]; simpl in E; rewrite E.
    eapply Forall_impl; [|exact Hk]. intros d Hd.
    apply in_map_iff in Hd; destruct Hd as [r [<- Hr]].
    pose proof (resolve_task _ _ _ _ Hres) as Ht; rewrite Forall_forall in Ht.
    apply Ht; exact Hr. }
  peel H.
  eapply extends_trans; [eapply insert1_extends; [eassumption | left; reflexivity]|].
  eapply extends_trans; (eapply insert_extends; [eassumption|]);
    apply Forall_forall; intros r Hr; apply in_map_iff in Hr;
    destruct Hr as [d [<- Hd]]; left; simpl; f_equal; f_equal;
    rewrite Forall_forall in Htask; apply Htask; exact Hd.
Qed.

Lemma channel_traces_key key c ch Fs Fneus r :
  In r (Fluorescence.channel_traces key c ch Fs Fneus) ->
  TraceRow.key r = key /\ TraceRow.fluo_channel r = ch.
Proof.
  unfold Fluorescence.channel_traces; intros H; apply in_map_iff in H.
  destruct H as [[i [f fneu]] [<- _]]; split; reflexivity.
Qed.

Lemma Fluorescence_plane_loop_key key vals : forall acc,
  Forall (fun r => TraceRow.key r = key) acc ->
  Forall (fun r => TraceRow.key r = key) (Fluorescence.plane_loop key vals acc).
Proof.
  unfold Fluorescence.plane_loop.
  induction vals as [|s2p vals IH]; intros acc Hacc; simpl; [exact Hacc|].
  apply IH. unfold Fluorescence.plane_step.
  assert (H0 : Forall (fun r => TraceRow.key r = key)
                 (acc ++ Fluorescence.channel_traces key (List.length acc) 0
                        (suite2p.F s2p) (suite2p.Fneu s2p))).
  { apply Forall_app; split; [exact Hacc|].
    apply Forall_forall; intros r Hr; eapply channel_traces_key; exact Hr. }
  destruct (Nat.eqb _ 0); [exact H0|].
  apply Forall_app; split; [exact H0|].
  apply Forall_forall; intros r Hr; eapply channel_traces_key; exact Hr.
Qed.

Lemma Fluorescence_make_extends env k st u st' :
  Fluorescence.make env k st = Ok (u, st') ->
  extends (written_by T_Fluorescence k) st st'.
Proof.
  unfold Fluorescence.make; intros H.
  peel H. destruct (a =? "suite2p"); [|discriminate].
  peel H. peel H. peel H.
  eapply extends_trans; [eapply insert1_extends; [eassumption | left; reflexivity]|].
  eapply insert_extends; [eassumption|].
  apply Forall_forall; intros r Hr; apply in_map_iff in Hr; destruct Hr as [t [<- Ht]].
  left; simpl; f_equal; f_equal.
  pose proof (Fluorescence_plane_loop_key k (dict_values (suite2p.planes a1)) []
                (Forall_nil _)) as Hk.
  rewrite Forall_forall in Hk; apply Hk; exact Ht.
Qed.

Lemma make_extends T env k st u st' :
  make T env k st = Ok (u, st') -> extends (written_by T k) st st'.
Proof.
  destruct T; simpl.
  - apply Processing_make_extends.
  - apply MotionCorrection_make_extends.
  - apply MotionCorrectedImages_make_extends.
  - apply Segmentation_make_extends.
  - apply Fluorescence_make_extends.
Qed.

Lemma keys_present_app T st d :
  keys_present T (st ++ d) = keys_present T st ++ keys_present T d.
Proof.
  destruct T; unfold keys_present, Processing.rows, MotionCorrection.rows,
    MotionCorrectedImages.rows, Segmentation.rows, Fluorescence.rows;
    rewrite flat_map_app, ?map_app; reflexivity.
Qed.

Lemma key_source_app T st r k :
  written_by T k r -> key_source T (st ++ [r]) = key_source T st.
Proof.
  intros [Hr | [-> [f ->]]].
  - destruct T, r; simpl in Hr; try discriminate Hr;
      unfold key_source, Processing.key_source, MotionCorrectedImages.key_source,
        ProcessingTask.rows, ScanInfo.rows, MotionCorrection.rows, Segmentation.rows;
      rewrite !flat_map_app; simpl; rewrite ?app_nil_r; reflexivity.
  - unfold key_source, Processing.key_source, ProcessingTask.rows, ScanInfo.rows.
    rewrite !flat_map_app; simpl; rewrite ?app_nil_r; reflexivity.
Qed.

Lemma extends_key_source T k st st' :
  extends (written_by T k) st st' -> key_source T st' = key_source T st.
Proof.
  induction 1 as [st | st st' r _ IH _ Hr]; [reflexivity|].
  rewrite <- IH. eapply key_source_app; exact Hr.
Qed.

Lemma extends_keys_present T k st st' :
  extends (written_by T k) st st' ->
  forall k', In k' (keys_present T st') -> k' = k \/ In k' (keys_present T st).
Proof.
  induction 1 as [st | st st' r _ IH _ Hr]; intros k' Hin; [right; exact Hin|].
  rewrite keys_present_app in Hin. apply in_app_or in Hin; destruct Hin as [Hin | Hin].
  - apply IH; exact Hin.
  - left. destruct Hr as [Hr | [-> [f ->]]]; [|destruct Hin].
    destruct T, r; simpl in Hr; try discriminate Hr; simpl in Hin;
      try contradiction; destruct Hin as [<- | []]; congruence.
Qed.

(** ** The pass *)

Lemma make_unsupported T env key st method :
  fetch1_processing_method st key = Ok method ->
  method <> "suite2p" ->
  make T env key st = Raise (NotImplementedError (unsupported_msg T method)).
Proof.
  intros Hm Hne. apply String.eqb_neq in Hne.
  destruct T; simpl;
    unfold Processing.make, MotionCorrection.make, MotionCorrectedImages.make,
      Segmentation.make, Fluorescence.make;
    (erewrite bind_ok by (apply query_ok; exact Hm)); rewrite Hne; reflexivity.
Qed.

Lemma extends_derived_frame st0 st key :
  extends derived st0 st ->
  fetch1_processing_method st key = fetch1_processing_method st0 key.
Proof.
  intros H; apply extends_app in H; destruct H as [d [-> Hd]].
  apply fetch1_processing_method_frame; exact Hd.
Qed.

(** A key whose [make] commits nothing stays without a record through a
    pass over any keys, and the key source of [T] is not touched. *)
Lemma run_keys_inert T env key st0 :
  (forall st1, extends derived st0 st1 ->
               forall u st2, make T env key st1 = Ok (u, st2) -> st2 = st1) ->
  forall keys st,
    extends derived st0 st ->
    extends derived st0 (snd (run_keys T env keys st))
    /\ key_source T (snd (run_keys T env keys st)) = key_source T st
    /\ (~ In key (keys_present T st) ->
        ~ In key (keys_present T (snd (run_keys T env keys st)))).
Proof.
  intros Hinert; induction keys as [|k ks IH]; intros st Hext; simpl; [auto|].
  destruct (make T env k st) as [[u st1]|e] eqn:Hmake.
  - pose proof (make_extends _ _ _ _ _ _ Hmake) as Hstep.
    assert (Hext1 : extends derived st0 st1).
    { eapply extends_trans; [exact Hext|].
      eapply extends_weaken; [|exact Hstep]. intros r; apply written_by_derived. }
    destruct (IH st1 Hext1) as [H1 [H2 H3]].
    destruct (run_keys T env ks st1) as [summary st'] eqn:Hrun; simpl in *.
    split; [exact H1|]. split.
    + rewrite H2. eapply extends_key_source; exact Hstep.
    + intros Hnot; apply H3. intros Hin.
      destruct (extends_keys_present _ _ _ _ Hstep _ Hin) as [-> | Hold]; [|auto].
      rewrite (Hinert st Hext _ _ Hmake) in Hin. auto.
  - destruct (IH st Hext) as [H1 [H2 H3]].
    destruct (run_keys T env ks st) as [summary st'] eqn:Hrun; simpl in *. auto.
Qed.

Lemma eligible_In T st k :
  In k (eligible T st) <-> In k (key_source T st) /\ ~ In k (keys_present T st).
Proof.
  unfold eligible; rewrite filter_In, negb_true_iff.
  split; intros [H1 H2]; (split; [exact H1|]).
  - intros Hin; apply key_in_In in Hin; congruence.
  - destruct (key_in k (keys_present T st)) eqn:E; [|reflexivity].
    apply key_in_In in E; contradiction.
Qed.

(** C4: the keys eligible for Processing are the ProcessingTask keys whose
    scan has a ScanInfo record, less the keys that have a Processing
    record. *)
Theorem eligible_Processing (st : Store) (k : TaskKey) :
  In k (eligible T_Processing st)
  <-> In k (map TaskRow.key (ProcessingTask.rows st))
      /\ In (scan k) (ScanInfo.rows st)
      /\ ~ In k (map ProcessingRow.key (Processing.rows st)).
Proof.
  rewrite eligible_In; simpl; unfold Processing.key_source.
  rewrite filter_In, existsb_exists.
  split.
  - intros [[H1 [s [Hs E]]] H2]. apply String.eqb_eq in E; subst s. auto.
  - intros [H1 [H2 H3]]. repeat split; auto.
    exists (scan k); split; [exact H2 | apply String.eqb_refl].
Qed.

Lemma run_keys_cons_raise T env k ks st e :
  make T env k st = Raise e ->
  run_keys T env (k :: ks) st
  = ((k, outcome_of_exn e) :: fst (run_keys T env ks st), snd (run_keys T env ks st)).
Proof.
  intros H; simpl; rewrite H. destruct (run_keys T env ks st); reflexivity.
Qed.

Lemma run_keys_cons_ok T env k ks st st1 :
  make T env k st = Ok (tt, st1) ->
  run_keys T env (k :: ks) st
  = ((k, if key_in k (keys_present T st1) then Succeeded else Pending)
       :: fst (run_keys T env ks st1),
     snd (run_keys T env ks st1)).
Proof.
  intros H; simpl; rewrite H. destruct (run_keys T env ks st1); reflexivity.
Qed.

(** A key of an unsupported method is reported by every pass it is part of. *)
Lemma run_keys_reports T env key st0 method :
  fetch1_processing_method st0 key = Ok method ->
  method <> "suite2p" ->
  forall keys st,
    extends derived st0 st ->
    In key keys ->
    In (key, UnsupportedMethod (unsupported_msg T method)) (fst (run_keys T env keys st)).
Proof.
  intros Hm Hne; induction keys as [|k ks IH]; intros st Hext Hin; [destruct Hin|].
  destruct (make T env k st) as [[[] st1]|e] eqn:Hmake.
  - rewrite (run_keys_cons_ok _ _ _ _ _ _ Hmake); simpl.
    destruct Hin as [-> | Hin].
    + rewrite (make_unsupported T env key st method) in Hmake; [discriminate| |exact Hne].
      rewrite (extends_derived_frame st0 st key Hext); exact Hm.
    + right; apply IH; [|exact Hin].
      eapply extends_trans; [exact Hext|].
      eapply extends_weaken; [|eapply make_extends; exact Hmake].
      intros r; apply written_by_derived.
  - rewrite (run_keys_cons_raise _ _ _ _ _ _ Hmake); simpl.
    destruct Hin as [-> | Hin]; [|right; apply IH; assumption].
    left. rewrite (make_unsupported T env key st method) in Hmake; [| |exact Hne].
    + inversion Hmake; reflexivity.
    + rewrite (extends_derived_frame st0 st key Hext); exact Hm.
Qed.

(** C2: for a suite2p task whose output directory does not exist, the
    Processing make step returns and leaves the record store as it was (no
    Processing, PhysicalFile or ProcessingOutputFile row); the pass records
    the key as pending and the key is still eligible after any pass. *)
Theorem Processing_make_absent_directory env key st dir :
  fetch1_processing_method st key = Ok "suite2p" ->
  _get_suite2p_dir env key = Some dir ->
  exists_ env dir = false ->
  Processing.make env key st = Ok (tt, st)
  /\ (In key (eligible T_Processing st) ->
      (forall ks,
          run_keys T_Processing env (key :: ks) st
          = ((key, Pending) :: fst (run_keys T_Processing env ks st),
             snd (run_keys T_Processing env ks st)))
      /\ (forall keys,
             In key (eligible T_Processing (snd (run_keys T_Processing env keys st))))).
Proof.
  intros Hm Hd He.
  assert (Hmake : forall st1, extends derived st st1 ->
                              Processing.make env key st1 = Ok (tt, st1)).
  { intros st1 Hext. unfold Processing.make.
    erewrite bind_ok
      by (apply query_ok; rewrite (extends_derived_frame st st1 key Hext); exact Hm).
    simpl. erewrite bind_ok by (apply lift_ok; rewrite Hd; reflexivity).
    rewrite He; reflexivity. }
  split; [apply Hmake, ext_refl|].
  intros Hel; apply eligible_In in Hel; destruct Hel as [Hsrc Hnot]. split.
  - intros ks.
    rewrite (run_keys_cons_ok T_Processing env key ks st st (Hmake st (ext_refl _ _))).
    destruct (key_in key (keys_present T_Processing st)) eqn:E; [|reflexivity].
    apply key_in_In in E; contradiction.
  - intros keys.
    destruct (run_keys_inert T_Processing env key st) with (keys := keys) (st := st)
      as [_ [Hks Hkp]].
    + intros st1 Hext u st2 H; simpl in H. rewrite (Hmake st1 Hext) in H.
      inversion H; reflexivity.
    + apply ext_refl.
    + apply eligible_In; split; [rewrite Hks; exact Hsrc | apply Hkp; exact Hnot].
Qed.

(** C3: for a key whose method is not suite2p (caiman, say), the make step
    of every entity type raises NotImplementedError; in a pass this is the
    outcome UnsupportedMethod of that key alone: the pass goes on with the
    remaining keys from the unchanged store, reports the key in its summary,
    and the key, having no record, is still eligible afterwards. *)
Theorem unsupported_method_fails_its_key_only T env key st method :
  fetch1_processing_method st key = Ok method ->
  method <> "suite2p" ->
  make T env key st = Raise (NotImplementedError (unsupported_msg T method))
  /\ (forall ks,
         run_keys T env (key :: ks) st
         = ((key, UnsupportedMethod (unsupported_msg T method))
              :: fst (run_keys T env ks st),
            snd (run_keys T env ks st)))
  /\ (forall keys,
         In key keys ->
         In (key, UnsupportedMethod (unsupported_msg T method))
            (fst (run_keys T env keys st)))
  /\ (forall keys,
         In key (eligible T st) ->
         In key (eligible T (snd (run_keys T env keys st)))
         /\ ~ In key (keys_present T (snd (run_keys T env keys st)))).
Proof.
  intros Hm Hne.
  pose proof (make_unsupported T env key st method Hm Hne) as Hraise.
  split; [exact Hraise|]. split; [|split].
  - intros ks. rewrite (run_keys_cons_raise _ _ _ _ _ _ Hraise); reflexivity.
  - intros keys Hin.
    eapply run_keys_reports; [exact Hm | exact Hne | apply ext_refl | exact Hin].
  - intros keys Hel; apply eligible_In in Hel; destruct Hel as [Hsrc Hnot].
    destruct (run_keys_inert T env key st) with (keys := keys) (st := st)
      as [_ [Hks Hkp]].
    + intros st1 Hext u st2 H.
      rewrite (make_unsupported T env key st1 method) in H; [discriminate| |exact Hne].
      rewrite (extends_derived_frame st st1 key Hext); exact Hm.
    + apply ext_refl.
    + split; [|apply Hkp; exact Hnot].
      apply eligible_In; split; [rewrite Hks; exact Hsrc | apply Hkp; exact Hnot].
Qed.

(** ** Processing rows over time *)

Lemma Processing_rows_In st p : In p (Processing.rows st) <-> In (R_Processing p) st.
Proof.
  unfold Processing.rows; rewrite in_flat_map; split.
  - intros [r [Hr Hp]]; destruct r; simpl in Hp; try contradiction.
    destruct Hp as [<- | []]; exact Hr.
  - intros H; exists (R_Processing p); split; [exact H | left; reflexivity].
Qed.

(** A successful Processing.make either found no directory and wrote
    nothing, or wrote the Processing row of the loader's times followed by
    file rows. *)
Lemma Processing_make_inv env key st u st' :
  Processing.make env key st = Ok (u, st') ->
  st' = st
  \/ exists dir l d,
      _get_suite2p_dir env key = Some dir
      /\ Suite2p env dir = Ok l
      /\ has_pk st (pk (R_Processing (Processing_row key l))) = false
      /\ st' = st ++ R_Processing (Processing_row key l) :: d
      /\ Forall (fun r => Processing.rows [r] = []) d.
Proof.
  unfold Processing.make; intros H.
  peel_as H Hm. destruct (a =? "suite2p"); [|discriminate].
  peel_as H Hp. destruct (_get_suite2p_dir env key) as [dir|] eqn:Hd; [|discriminate].
  inversion Hp; subst a0; clear Hp.
  destruct (exists_ env dir).
  2:{ apply ret_inv in H; destruct H as [_ ->]; left; reflexivity. }
  right. peel_as H Hl. peel_as H Hins.
  apply insert1_inv in Hins; destruct Hins as [Hfresh ->].
  peel_as H Hroot. peel_as H Hfiles. peel_as H Hphys.
  apply (insert_skip_duplicates_extends (fun r => Processing.rows [r] = [])) in Hphys.
  2:{ apply Forall_forall; intros r Hr; apply in_map_iff in Hr.
      destruct Hr as [f [<- _]]; reflexivity. }
  apply (insert_extends (fun r => Processing.rows [r] = [])) in H.
  2:{ apply Forall_forall; intros r Hr; apply in_map_iff in Hr.
      destruct Hr as [f [<- _]]; reflexivity. }
  destruct (extends_app _ _ _ (extends_trans _ _ _ _ Hphys H)) as [d [-> Hd']].
  exists dir, a0, d. rewrite <- app_assoc. repeat split; auto.
Qed.

Lemma engine_steps_extends st st' : engine_steps st st' -> extends derived st st'.
Proof.
  induction 1 as [st | st st1 st2 Hstep _ IH]; [apply ext_refl|].
  eapply extends_trans; [|exact IH]. destruct Hstep as [T env k st st1 Hmake].
  eapply extends_weaken; [|eapply make_extends; exact Hmake].
  intros r; apply written_by_derived.
Qed.

(** C8 (as amended): a Processing row inserted by the make step carries the
    loader's creation time as completion_time and the loader's curation time
    as curation_time; whatever make steps the engine commits afterwards, the
    record of that key is this row and no other, so completion_time is set
    once and never updated; curation_time is at least completion_time exactly
    when the loader's curation time is at least its creation time. *)
Theorem Processing_row_times env key st st' row :
  Processing.make env key st = Ok (tt, st') ->
  In row (Processing.rows st') ->
  ~ In row (Processing.rows st) ->
  exists dir l,
    _get_suite2p_dir env key = Some dir
    /\ Suite2p env dir = Ok l
    /\ row = Processing_row key l
    /\ ProcessingRow.completion_time row = suite2p.creation_time l
    /\ ProcessingRow.curation_time row = Some (suite2p.curation_time l)
    /\ (forall st'',
           engine_steps st' st'' ->
           In row (Processing.rows st'')
           /\ forall r, In r (Processing.rows st'') -> ProcessingRow.key r = key -> r = row)
    /\ ((suite2p.creation_time l <= suite2p.curation_time l)%Z
        <-> exists c, ProcessingRow.curation_time row = Some c
                      /\ (ProcessingRow.completion_time row <= c)%Z).
Proof.
  intros Hmake Hin Hnew.
  destruct (Processing_make_inv _ _ _ _ _ Hmake) as [-> | [dir [l [d [Hd [Hl [Hfresh [-> Hfiles]]]]]]]];
    [contradiction|].
  assert (Hrows : Processing.rows (st ++ R_Processing (Processing_row key l) :: d)
                  = Processing.rows st ++ [Processing_row key l]).
  { unfold Processing.rows; rewrite flat_map_app; simpl. f_equal. f_equal.
    clear -Hfiles. induction Hfiles as [|r d Hr _ IH]; simpl; [reflexivity|].
    unfold Processing.rows in Hr; simpl in Hr; rewrite app_nil_r in Hr.
    rewrite Hr, IH; reflexivity. }
  assert (Hrow : row = Processing_row key l).
  { rewrite Hrows in Hin. apply in_app_or in Hin.
    destruct Hin as [Hin | [<- | []]]; [contradiction | reflexivity]. }
  assert (Huniq : forall r,
             In (R_Processing r) (st ++ R_Processing (Processing_row key l) :: d) ->
             ProcessingRow.key r = key -> r = Processing_row key l).
  { intros r Hr Hk. apply Processing_rows_In in Hr. rewrite Hrows in Hr.
    apply in_app_or in Hr; destruct Hr as [Hr | [<- | []]]; [|reflexivity].
    exfalso. apply Processing_rows_In in Hr.
    apply (proj1 (has_pk_false _ _) Hfresh _ Hr). simpl; rewrite Hk; reflexivity. }
  exists dir, l. subst row. repeat split; auto.
  - apply Processing_rows_In. apply engine_steps_extends, extends_app in H.
    destruct H as [d' [-> _]]. apply in_or_app; left. apply in_or_app; right; left; reflexivity.
  - intros r Hr Hk. apply Huniq; [|exact Hk].
    apply Processing_rows_In in Hr.
    eapply extends_old_pk; [apply engine_steps_extends; exact H | exact Hr |].
    apply has_pk_true. exists (R_Processing (Processing_row key l)); split.
    + apply in_or_app; right; left; reflexivity.
    + simpl; rewrite Hk; reflexivity.
  - intros Hle; exists (suite2p.curation_time l); split; [reflexivity | exact Hle].
  - intros [c [E Hle]]; simpl in E, Hle; inversion E; subst; exact Hle.
Qed.

(** ** Fluorescence.make on a new key *)

Lemma plane_step_eq key acc s2p :
  Fluorescence.plane_step key acc s2p = acc ++ plane_traces key (List.length acc) s2p.
Proof.
  unfold Fluorescence.plane_step, plane_traces.
  destruct (Nat.eqb _ 0); [rewrite app_nil_r | rewrite app_assoc]; reflexivity.
Qed.

Lemma Fluorescence_plane_loop_spec key vals : forall acc,
  exists per_plane,
    Fluorescence.plane_loop key vals acc = acc ++ List.concat per_plane
    /\ Forall2 (fun s2p rows => exists c, rows = plane_traces key c s2p) vals per_plane.
Proof.
  unfold Fluorescence.plane_loop.
  induction vals as [|s2p vals IH]; intros acc; simpl.
  - exists []; rewrite app_nil_r; split; [reflexivity | constructor].
  - destruct (IH (Fluorescence.plane_step key acc s2p)) as [pp [E HF]].
    exists (plane_traces key (List.length acc) s2p :: pp); split.
    + rewrite E, plane_step_eq; simpl; rewrite <- app_assoc; reflexivity.
    + constructor; [eexists; reflexivity | exact HF].
Qed.

Lemma channel_traces_mask key c ch Fs Fneus :
  map TraceRow.mask (Fluorescence.channel_traces key c ch Fs Fneus)
  = seq c (List.length (zip Fs Fneus)).
Proof.
  unfold Fluorescence.channel_traces.
  rewrite map_map, <- seq_shift_add, <- enumerate_fst, map_map.
  apply map_ext; intros [i [f fneu]]; reflexivity.
Qed.

Lemma channel_traces_data key c ch Fs Fneus :
  map (fun r => (TraceRow.fluo_channel r, (TraceRow.fluo r, TraceRow.neuropil_fluo r)))
      (Fluorescence.channel_traces key c ch Fs Fneus)
  = map (pair ch) (zip Fs Fneus).
Proof.
  unfold Fluorescence.channel_traces.
  rewrite <- (enumerate_snd (zip Fs Fneus)) at 2. rewrite !map_map.
  apply map_ext; intros [i [f fneu]]; reflexivity.
Qed.

Lemma channel_traces_length key c ch Fs Fneus :
  List.length (Fluorescence.channel_traces key c ch Fs Fneus) = List.length (zip Fs Fneus).
Proof. rewrite <- (length_map TraceRow.mask), channel_traces_mask; apply length_seq. Qed.

Lemma channel_traces_NoDup key c ch Fs Fneus :
  NoDup (map trace_id (Fluorescence.channel_traces key c ch Fs Fneus)).
Proof.
  apply NoDup_map_via with (g := TraceRow.mask).
  - unfold trace_id; intros a b E; inversion E; reflexivity.
  - rewrite channel_traces_mask; apply seq_NoDup.
Qed.

Lemma channel_traces_bounds key c ch Fs Fneus r :
  In r (Fluorescence.channel_traces key c ch Fs Fneus) ->
  c <= TraceRow.mask r < c + List.length (zip Fs Fneus).
Proof.
  intros H. apply (in_map TraceRow.mask) in H. rewrite channel_traces_mask in H.
  apply in_seq in H; exact H.
Qed.

Lemma plane_traces_NoDup key c s2p : NoDup (map trace_id (plane_traces key c s2p)).
Proof.
  unfold plane_traces. destruct (Nat.eqb _ 0).
  - rewrite app_nil_r; apply channel_traces_NoDup.
  - rewrite map_app. apply NoDup_app; try apply channel_traces_NoDup.
    intros [m ch] H0 H1. apply in_map_iff in H0, H1.
    destruct H0 as [r0 [E0 H0]], H1 as [r1 [E1 H1]].
    apply channel_traces_key in H0, H1. unfold trace_id in E0, E1.
    destruct H0 as [_ H0], H1 as [_ H1]. inversion E0; inversion E1; congruence.
Qed.

Lemma plane_traces_bounds key c s2p r :
  In r (plane_traces key c s2p) ->
  c <= TraceRow.mask r < c + List.length (plane_traces key c s2p).
Proof.
  unfold plane_traces. destruct (Nat.eqb _ 0).
  - rewrite app_nil_r, channel_traces_length. apply channel_traces_bounds.
  - rewrite length_app, !channel_traces_length. intros H; apply in_app_or in H.
    destruct H as [H | H]; apply channel_traces_bounds in H; lia.
Qed.

(** The trace keys (mask, channel) never collide: every plane starts above
    the masks of the planes before it. *)
Lemma Fluorescence_plane_loop_NoDup key vals : forall acc,
  NoDup (map trace_id acc) ->
  (forall r, In r acc -> TraceRow.mask r < List.length acc) ->
  NoDup (map trace_id (Fluorescence.plane_loop key vals acc)).
Proof.
  unfold Fluorescence.plane_loop.
  induction vals as [|s2p vals IH]; intros acc ND Hb; simpl; [exact ND|].
  apply IH; rewrite plane_step_eq.
  - rewrite map_app. apply NoDup_app; [exact ND | apply plane_traces_NoDup|].
    intros [m ch] H0 H1. apply in_map_iff in H0, H1.
    destruct H0 as [r0 [E0 H0]], H1 as [r1 [E1 H1]].
    apply Hb in H0. apply plane_traces_bounds in H1.
    unfold trace_id in E0, E1. inversion E0; inversion E1; lia.
  - intros r H; rewrite length_app. apply in_app_or in H; destruct H as [H | H].
    + apply Hb in H; lia.
    + apply plane_traces_bounds in H; lia.
Qed.

Lemma Fluorescence_make_ok env key st dir l :
  fetch1_processing_method st key = Ok "suite2p" ->
  _get_suite2p_dir env key = Some dir ->
  Suite2p env dir = Ok l ->
  fresh T_Fluorescence key st ->
  Fluorescence.make env key st = Ok (tt, st ++ Fluorescence_rows key l).
Proof.
  intros Hm Hd Hl Hfresh. unfold Fluorescence.make.
  erewrite bind_ok by (apply query_ok; exact Hm). simpl.
  erewrite bind_ok by (apply lift_ok; rewrite Hd; reflexivity).
  erewrite bind_ok by (apply lift_ok; exact Hl).
  erewrite bind_ok by (apply insert1_ok; eapply fresh_has_pk; [exact Hfresh | reflexivity]).
  rewrite insert_ok.
  - unfold Fluorescence_rows; rewrite <- app_assoc; reflexivity.
  - rewrite map_map. apply NoDup_map_via with (g := trace_id).
    + intros a b E; simpl in E; unfold trace_id; inversion E; congruence.
    + apply Fluorescence_plane_loop_NoDup; [constructor | intros r []].
  - intros r Hr; apply in_map_iff in Hr; destruct Hr as [t [<- Ht]].
    apply has_pk_false; intros r' Hin E.
    apply in_app_or in Hin; destruct Hin as [Hin | [<- | []]]; [|discriminate E].
    apply pk_task_of in E; simpl in E.
    pose proof (Fluorescence_plane_loop_key key (dict_values (suite2p.planes l)) []
                  (Forall_nil _)) as Hk.
    rewrite Forall_forall in Hk. rewrite (Hk t Ht) in E. exact (Hfresh r' Hin E).
Qed.

Lemma Fluorescence_rows_views st key l :
  Fluorescence.Trace.rows (st ++ Fluorescence_rows key l)
  = Fluorescence.Trace.rows st
      ++ Fluorescence.plane_loop key (dict_values (suite2p.planes l)) [].
Proof.
  unfold Fluorescence_rows, Fluorescence.Trace.rows. rewrite flat_map_app; simpl.
  rewrite (flat_map_map_single _ R_Trace (fun t => t)) by reflexivity.
  rewrite map_id; reflexivity.
Qed.

Lemma plane_traces_data key c s2p :
  map (fun r => (TraceRow.fluo_channel r, (TraceRow.fluo r, TraceRow.neuropil_fluo r)))
      (plane_traces key c s2p)
  = map (pair 0%Z) (zip (suite2p.F s2p) (suite2p.Fneu s2p))
    ++ map (pair 1%Z) (zip (suite2p.F_chan2 s2p) (suite2p.Fneu_chan2 s2p)).
Proof.
  unfold plane_traces. rewrite map_app, channel_traces_data. f_equal.
  destruct (Nat.eqb _ 0) eqn:E; [|apply channel_traces_data].
  apply Nat.eqb_eq in E. destruct (suite2p.F_chan2 s2p); [reflexivity | discriminate E].
Qed.

(** C10: the Trace rows a Fluorescence make step inserts are, plane after
    plane, the pairs of F and Fneu under fluo_channel 0 followed by the
    pairs of F_chan2 and Fneu_chan2 under fluo_channel 1, the two constants
    being fixed in the code; with Fneu_chan2 as long as F_chan2, a plane has
    rows under channel 1 if and only if its F_chan2 is not empty. *)
Theorem Fluorescence_trace_channels env key st dir l :
  fetch1_processing_method st key = Ok "suite2p" ->
  _get_suite2p_dir env key = Some dir ->
  Suite2p env dir = Ok l ->
  fresh T_Fluorescence key st ->
  exists st' per_plane,
    Fluorescence.make env key st = Ok (tt, st')
    /\ Fluorescence.Trace.rows st' = Fluorescence.Trace.rows st ++ List.concat per_plane
    /\ Forall2
         (fun s2p rows =>
            map (fun r => (TraceRow.fluo_channel r,
                           (TraceRow.fluo r, TraceRow.neuropil_fluo r))) rows
            = map (pair 0%Z) (zip (suite2p.F s2p) (suite2p.Fneu s2p))
              ++ map (pair 1%Z) (zip (suite2p.F_chan2 s2p) (suite2p.Fneu_chan2 s2p))
            /\ (List.length (suite2p.Fneu_chan2 s2p) = List.length (suite2p.F_chan2 s2p) ->
                ((exists r, In r rows /\ TraceRow.fluo_channel r = 1%Z)
                 <-> suite2p.F_chan2 s2p <> [])))
         (dict_values (suite2p.planes l)) per_plane.
Proof.
  intros Hm Hd Hl Hfresh.
  destruct (Fluorescence_plane_loop_spec key (dict_values (suite2p.planes l)) [])
    as [pp [E HF]]. simpl in E.
  exists (st ++ Fluorescence_rows key l), pp.
  split; [apply (Fluorescence_make_ok env key st dir l); assumption|].
  split; [rewrite Fluorescence_rows_views, E; reflexivity|].
  eapply Forall2_impl; [|exact HF]. intros s2p rows [c ->].
  split; [apply plane_traces_data|]. intros Hlen; split.
  - intros [r [Hr Hch]] Hnil. unfold plane_traces in Hr; rewrite Hnil in Hr; simpl in Hr.
    rewrite app_nil_r in Hr. apply channel_traces_key in Hr. destruct Hr as [_ Hr].
    rewrite Hr in Hch; discriminate Hch.
  - intros Hne. destruct (suite2p.F_chan2 s2p) as [|f fs] eqn:EF; [contradiction|].
    destruct (suite2p.Fneu_chan2 s2p) as [|g gs] eqn:EG; [discriminate Hlen|].
    unfold plane_traces; rewrite EF, EG; simpl.
    eexists; split; [apply in_or_app; right; left; reflexivity | reflexivity].
Qed.

Ltac fresh_store :=
  let r := fresh "r" in
  let H := fresh "H" in
  intros r H; simpl in H;
  repeat (destruct H as [<- | H]; [discriminate|]); destruct H.

Ltac fields_resolve :=
  let it := fresh "it" in
  let H := fresh "H" in
  intros it H; simpl in H;
  repeat (destruct H as [<- | H]; [eexists; reflexivity|]); destruct H.

(** ** Instances on the concrete inputs *)

Import Fixture.

(** The spec's end-to-end example: two planes with 3 and 2 masks. *)
Lemma Segmentation_two_planes_example :
  exists st',
    Segmentation.make (env_of true two_planes) k1 store0 = Ok (tt, st')
    /\ map MaskRow.mask (Segmentation.Mask.rows st') = [0; 1; 2; 3; 4]
    /\ map MaskRow.field (Segmentation.Mask.rows st') = [0; 0; 0; 1; 1]%Z
    /\ map CellRow.mask (Segmentation.Cell.rows st') = [0; 1; 2; 3; 4]
    /\ map CellRow.is_cell (Segmentation.Cell.rows st') = [true; false; true; true; true].
Proof.
  destruct (Segmentation_make_mask_ids (env_of true two_planes) k1 store0 dir1
              two_planes plane_a)
    as [st' [fks [new_masks [new_cells
         [Hmake [Hfks [Vm [Vc [_ [Hids [_ [Hfields [_ [Hcids [_ Hcells]]]]]]]]]]]]]]].
  - reflexivity.
  - reflexivity.
  - reflexivity.
  - reflexivity.
  - fields_resolve.
  - fresh_store.
  - repeat constructor.
  - exists st'. rewrite Vm, Vc; simpl.
    inversion Hfks as [|? ? ? ? E0 Hfks']; subst.
    inversion Hfks' as [|? ? ? ? E1 Hfks'']; subst.
    inversion Hfks''; subst. inversion E0; inversion E1; subst.
    repeat split; assumption.
Defined.

Lemma Processing_absent_directory_example :
  Processing.make (env_of false two_planes) k1 store0 = Ok (tt, store0)
  /\ populate T_Processing (env_of false two_planes) store0
     = ([(k1, Pending); (k2, UnsupportedMethod "Unknown method: caiman")], store0).
Proof.
  destruct (Processing_make_absent_directory (env_of false two_planes) k1 store0 dir1)
    as [Hmake _]; [reflexivity | reflexivity | reflexivity|].
  split; [exact Hmake | reflexivity].
Defined.

Lemma caiman_unsupported_example :
  Processing.make (env_of true two_planes) k2 store0
  = Raise (NotImplementedError "Unknown method: caiman")
  /\ MotionCorrection.make (env_of true two_planes) k2 store0
     = Raise (NotImplementedError "Unknown/unimplemented method: caiman")
  /\ MotionCorrectedImages.make (env_of true two_planes) k2 store0
     = Raise (NotImplementedError "Unknown/unimplemented method: caiman")
  /\ Segmentation.make (env_of true two_planes) k2 store0
     = Raise (NotImplementedError "Unknown/unimplemented method: caiman")
  /\ Fluorescence.make (env_of true two_planes) k2 store0
     = Raise (NotImplementedError "Unknown/unimplemented method: caiman")
  /\ map fst (fst (populate T_MotionCorrection (env_of true two_planes) store0)) = [k1; k2]
  /\ In k2 (eligible T_MotionCorrection
              (snd (populate T_MotionCorrection (env_of true two_planes) store0))).
Proof.
  assert (Hne : "caiman" <> "suite2p") by discriminate.
  pose proof (fun T => unsupported_method_fails_its_key_only
                         T (env_of true two_planes) k2 store0 "caiman" eq_refl Hne) as H.
  split; [exact (proj1 (H T_Processing))|].
  split; [exact (proj1 (H T_MotionCorrection))|].
  split; [exact (proj1 (H T_MotionCorrectedImages))|].
  split; [exact (proj1 (H T_Segmentation))|].
  split; [exact (proj1 (H T_Fluorescence))|].
  split; [reflexivity|].
  destruct (H T_MotionCorrection) as [_ [_ [_ Hel]]].
  apply (Hel (eligible T_MotionCorrection store0)).
  simpl; right; left; reflexivity.
Defined.

Lemma MotionCorrection_two_planes_example :
  exists st',
    MotionCorrection.make (env_of true two_planes) k1 store0 = Ok (tt, st')
    /\ List.length (rigid_of st' field0) = 1
    /\ List.length (nonrigid_of st' field0) = 1
    /\ map BlockRow.block_id (blocks_of st' field0) = [0; 1]
    /\ List.length (rigid_of st' field1) = 1
    /\ nonrigid_of st' field1 = []
    /\ blocks_of st' field1 = [].
Proof.
  destruct (MotionCorrection_make_nonrigid_iff (env_of true two_planes) k1 store0 dir1
              two_planes plane_a)
    as [st' [fks [Hmake [Hfks Hrows]]]].
  - reflexivity.
  - reflexivity.
  - reflexivity.
  - reflexivity.
  - fields_resolve.
  - fresh_store.
  - repeat constructor; simpl; intuition discriminate.
  - apply (NoDup_map_inv (fun k => k)); rewrite map_id.
    repeat constructor; simpl; intuition discriminate.
  - inversion Hfks as [|? ? ? ? E0 Hfks']; subst.
    inversion Hfks' as [|? ? ? ? E1 Hfks'']; subst.
    inversion Hfks''; subst. inversion E0; inversion E1; subst.
    destruct (Hrows (0%Z, plane_a) field0) as [R0 [N0 _]]; [left; reflexivity|].
    destruct (Hrows (1%Z, plane_b) field1) as [R1 [_ N1]]; [right; left; reflexivity|].
    destruct (N0 eq_refl) as [N0a N0b]. destruct (N1 eq_refl) as [N1a N1b].
    exists st'. rewrite R0, R1, N0a, N0b, N1a, N1b. repeat split; assumption.
Defined.

Lemma master_channel_example :
  (exists st',
      MotionCorrection.make (env_of true two_planes) k1 store0 = Ok (tt, st')
      /\ map MotionCorrectionRow.mc_channel (MotionCorrection.rows st') = [1%Z])
  /\ (exists st',
         Segmentation.make (env_of true two_planes) k1 store0 = Ok (tt, st')
         /\ map SegmentationRow.seg_channel (Segmentation.rows st') = [1%Z]).
Proof.
  destruct (master_channel_from_plane0 (env_of true two_planes) k1 two_planes dir1 plane_a
              store0 store0) as [[st1 [H1 V1]] [st2 [H2 V2]]].
  - reflexivity.
  - reflexivity.
  - reflexivity.
  - repeat constructor; simpl; intuition discriminate.
  - reflexivity.
  - fields_resolve.
  - fresh_store.
  - apply (NoDup_map_inv (fun k => k)); rewrite map_id.
    repeat constructor; simpl; intuition discriminate.
  - reflexivity.
  - fields_resolve.
  - fresh_store.
  - split; [exists st1 | exists st2]; (split; [assumption|]).
    + rewrite V1; reflexivity.
    + rewrite V2; reflexivity.
Defined.

Lemma Processing_row_times_example :
  exists st' row,
    Processing.make (env_of true two_planes) k1 store0 = Ok (tt, st')
    /\ Processing.rows st' = [row]
    /\ ProcessingRow.completion_time row = 10%Z
    /\ ProcessingRow.curation_time row = Some 20%Z
    /\ map OutputFileRow.file_path (Processing.ProcessingOutputFile.rows st')
       = ["S1/suite2p/ops.npy"]
    /\ forall st'', engine_steps st' st'' ->
                    forall r, In r (Processing.rows st'') ->
                              ProcessingRow.key r = k1 ->
                              ProcessingRow.completion_time r = 10%Z.
Proof.
  destruct (Processing.make (env_of true two_planes) k1 store0) as [[[] st']|] eqn:Hmake;
    [|discriminate Hmake].
  vm_compute in Hmake. inversion Hmake as [Hst]; clear Hmake.
  assert (Hmake : Processing.make (env_of true two_planes) k1 store0 = Ok (tt, st'))
    by (rewrite <- Hst; reflexivity).
  destruct (Processing_row_times (env_of true two_planes) k1 store0 st'
              (Processing_row k1 two_planes) Hmake)
    as [dir [l [_ [_ [_ [_ [_ [Hkeep _]]]]]]]].
  - rewrite <- Hst; left; reflexivity.
  - intros [].
  - exists st', (Processing_row k1 two_planes).
    split; [exact Hmake|]. rewrite <- Hst at 1 2.
    repeat split.
    intros st'' Hsteps r Hr Hk. destruct (Hkeep st'' Hsteps) as [_ Hsame].
    rewrite (Hsame r Hr Hk); reflexivity.
Defined.

(** The loader's times are copied as they are: with a curation time before
    the creation time, the inserted row has curation_time below
    completion_time. *)
Lemma Processing_curation_before_completion :
  ~ (forall env key st st' row,
        Processing.make env key st = Ok (tt, st') ->
        In row (Processing.rows st') ->
        ~ In row (Processing.rows st) ->
        match ProcessingRow.curation_time row with
        | None => True
        | Some c => (ProcessingRow.completion_time row <= c)%Z
        end).
Proof.
  intros H.
  specialize (H (env_of true curated_early) k1 store0
                (store0 ++ [R_Processing (Processing_row k1 curated_early);
                            R_PhysicalFile "S1/suite2p/ops.npy";
                            R_ProcessingOutputFile
                              {| OutputFileRow.key := k1;
                                 OutputFileRow.file_path := "S1/suite2p/ops.npy" |}])
                (Processing_row k1 curated_early)).
  simpl in H. assert (Hle : (10 <= 5)%Z); [|lia].
  apply H; [reflexivity | left; reflexivity | intros []].
Qed.

Lemma Fluorescence_trace_channels_example :
  exists st',
    Fluorescence.make (env_of true two_channels) k1 store0 = Ok (tt, st')
    /\ map TraceRow.fluo_channel (Fluorescence.Trace.rows st') = [0; 1; 0]%Z
    /\ map TraceRow.fluo (Fluorescence.Trace.rows st') = [[fl 5]; [fl 7]; [fl 5]].
Proof.
  destruct (Fluorescence_trace_channels (env_of true two_channels) k1 store0 dir1
              two_channels)
    as [st' [pp [Hmake [V HF]]]].
  - reflexivity.
  - reflexivity.
  - reflexivity.
  - fresh_store.
  - exists st'. split; [exact Hmake|].
    assert (E : Fluorescence.make (env_of true two_channels) k1 store0 = Ok (tt, st'))
      by exact Hmake.
    vm_compute in E. inversion E; subst st'. split; reflexivity.
Defined.

(** ** Where the code departs from the specification *)

(** MotionCorrectedImages.make iterates [s2p_loader.items()], not
    [s2p_loader.planes.items()] as the other make steps do: on a loader
    handle without [items] it raises before any row is written. *)
Lemma MotionCorrectedImages_make_no_items env key st dir l :
  fetch1_processing_method st key = Ok "suite2p" ->
  _get_suite2p_dir env key = Some dir ->
  Suite2p env dir = Ok l ->
  suite2p.items l = None ->
  MotionCorrectedImages.make env key st = Raise AttributeError.
Proof.
  intros Hm Hd Hl Hi. unfold MotionCorrectedImages.make.
  erewrite bind_ok by (apply query_ok; exact Hm). simpl.
  erewrite bind_ok by (apply lift_ok; rewrite Hd; reflexivity).
  erewrite bind_ok by (apply lift_ok; exact Hl).
  rewrite Hi; reflexivity.
Qed.

(** Had the handle answered [items()] with its planes, the step would write
    one row per plane, with the plane's four images. *)
Lemma MotionCorrectedImages_plane_loop_ok key its : forall res st,
  resolve st key its = Ok res ->
  NoDup (map fst res) ->
  (forall img, In (R_MotionCorrectedImages img) st -> ~ In (ImagesRow.key img) (map fst res)) ->
  MotionCorrectedImages.plane_loop key its st
  = Ok (tt, st ++ map (fun r => R_MotionCorrectedImages
                                 (MotionCorrectedImages.img_row (fst r) (snd r))) res).
Proof.
  induction its as [|[plane s2p] its IH]; intros res st Hres ND Hfresh.
  - inversion Hres; simpl; unfold ret; rewrite app_nil_r; reflexivity.
  - apply resolve_cons_inv in Hres; destruct Hres as [fk [res' [Hfk [Hres ->]]]].
    simpl in ND; inversion ND as [|? ? Hnotin ND']; subst.
    simpl MotionCorrectedImages.plane_loop.
    erewrite bind_ok by (apply query_ok; exact Hfk).
    erewrite bind_ok.
    2:{ apply insert1_ok. apply has_pk_false; intros r Hr E.
        destruct r; try (simpl in E; discriminate E).
        apply (Hfresh _ Hr). left. symmetry; apply field_atoms_inj.
        unfold pk in E. cbn [ImagesRow.key MotionCorrectedImages.img_row] in E.
        cbn [fst]. congruence. }
    rewrite (IH res').
    + simpl; rewrite <- app_assoc; reflexivity.
    + rewrite resolve_frame; [exact Hres | repeat constructor].
    + exact ND'.
    + intros img Hin Hk. apply in_app_or in Hin; destruct Hin as [Hin | [Hin | []]].
      * apply (Hfresh img Hin); right; exact Hk.
      * inversion Hin; subst img; simpl in Hk. contradiction.
Qed.

Lemma MotionCorrectedImages_make_with_items env key st dir l :
  fetch1_processing_method st key = Ok "suite2p" ->
  _get_suite2p_dir env key = Some dir ->
  Suite2p env dir = Ok l ->
  suite2p.items l = Some (dict_items (suite2p.planes l)) ->
  (forall it, In it (suite2p.planes l) ->
              exists fk, fetch1_field_key st key (fst it) = Ok fk) ->
  fresh T_MotionCorrectedImages key st ->
  NoDup (map fst (suite2p.planes l)) ->
  NoDup (map pk st) ->
  exists res,
    resolve st key (suite2p.planes l) = Ok res
    /\ MotionCorrectedImages.make env key st
       = Ok (tt, st ++ map (fun r => R_MotionCorrectedImages
                                      (MotionCorrectedImages.img_row (fst r) (snd r))) res).
Proof.
  intros Hm Hd Hl Hi Hf Hfresh NDp NDst.
  destruct (resolve_ok st key _ Hf) as [res Hres]. exists res; split; [exact Hres|].
  unfold MotionCorrectedImages.make.
  erewrite bind_ok by (apply query_ok; exact Hm). simpl.
  erewrite bind_ok by (apply lift_ok; rewrite Hd; reflexivity).
  erewrite bind_ok by (apply lift_ok; exact Hl).
  rewrite Hi; unfold dict_items.
  erewrite bind_ok by (apply lift_ok; reflexivity).
  apply MotionCorrectedImages_plane_loop_ok;
    [exact Hres | eapply resolve_NoDup; eassumption|].
  intros img Hin Hk. apply (Hfresh _ Hin); simpl.
  pose proof (resolve_task _ _ _ _ Hres) as Ht; rewrite Forall_forall in Ht.
  apply in_map_iff in Hk; destruct Hk as [r [E Hr]]. rewrite <- E, (Ht r Hr); reflexivity.
Qed.

(** C7 at a concrete input: after MotionCorrection of a two-plane output the
    key is eligible for MotionCorrectedImages, and its make step raises
    AttributeError instead of writing one row per plane. *)
Theorem MotionCorrectedImages_make_raises :
  exists st1,
    MotionCorrection.make (env_of true two_planes) k1 store0 = Ok (tt, st1)
    /\ In k1 (eligible T_MotionCorrectedImages st1)
    /\ List.length (suite2p.planes two_planes) = 2
    /\ MotionCorrectedImages.make (env_of true two_planes) k1 st1 = Raise AttributeError
    /\ fst (populate T_MotionCorrectedImages (env_of true two_planes) st1)
       = [(k1, Failed AttributeError)]
    /\ MotionCorrectedImages.rows
         (snd (populate T_MotionCorrectedImages (env_of true two_planes) st1)) = [].
Proof.
  eexists; split; [vm_compute; reflexivity|].
  split; [vm_compute; left; reflexivity|].
  repeat split.
Qed.

(** Without a second channel the trace masks are the masks Segmentation
    assigns: the two counters advance together. *)
Lemma Fluorescence_masks_no_second_channel key vals :
  Forall (fun p => suite2p.F_chan2 p = []) vals ->
  forall acc,
    map TraceRow.mask (Fluorescence.plane_loop key vals acc)
    = map TraceRow.mask acc
      ++ seq (List.length acc)
             (list_sum (map (fun p => List.length (zip (suite2p.F p) (suite2p.Fneu p))) vals)).
Proof.
  unfold Fluorescence.plane_loop.
  induction 1 as [|p vals Hp _ IH]; intros acc; simpl.
  - rewrite app_nil_r; reflexivity.
  - rewrite IH, plane_step_eq. unfold plane_traces; rewrite Hp; simpl.
    rewrite app_nil_r, map_app, length_app, channel_traces_mask, channel_traces_length,
      seq_app, <- app_assoc.
    reflexivity.
Qed.

Lemma Fluorescence_masks_match_Segmentation key res :
  Forall (fun r => suite2p.F_chan2 (snd r) = []
                   /\ List.length (zip (suite2p.F (snd r)) (suite2p.Fneu (snd r)))
                      = n_masks (snd r)) res ->
  map TraceRow.mask (Fluorescence.plane_loop key (map snd res) [])
  = map Segmentation.mask (collect res []).
Proof.
  intros H.
  rewrite Fluorescence_masks_no_second_channel
    by (apply Forall_map; eapply Forall_impl; [|exact H]; intros r [Hr _]; exact Hr).
  destruct (collect_spec res []) as [new [E [Hids _]]]; simpl in E; rewrite E, Hids.
  simpl. unfold total_masks. f_equal. f_equal. rewrite !map_map.
  apply map_ext_in; intros r Hr. rewrite Forall_forall in H. apply (H r Hr).
Qed.

(** C5 at a concrete input: plane 0 has one mask and a second channel, plane
    1 has one mask.  Segmentation assigns the masks 0 and 1; Fluorescence
    counts the two traces of plane 0 and gives the trace of plane 1 the mask
    2, which no Cell row has. *)
Theorem Fluorescence_trace_without_cell :
  exists st1 st2,
    Segmentation.make (env_of true two_channels) k1 store0 = Ok (tt, st1)
    /\ Fluorescence.make (env_of true two_channels) k1 st1 = Ok (tt, st2)
    /\ map CellRow.mask (Segmentation.Cell.rows st2) = [0; 1]
    /\ map trace_id (Fluorescence.Trace.rows st2) = [(0, 0%Z); (0, 1%Z); (2, 0%Z)]
    /\ exists t, In t (Fluorescence.Trace.rows st2)
                 /\ ~ In (TraceRow.mask t) (map CellRow.mask (Segmentation.Cell.rows st2)).
Proof.
  eexists; eexists.
  split; [vm_compute; reflexivity|].
  split; [vm_compute; reflexivity|].
  split; [reflexivity|]. split; [reflexivity|].
  eexists; split; [right; right; left; reflexivity|].
  simpl; intuition discriminate.
Qed.

(** * Further properties of the make steps *)

Import Cases.

Lemma bind_raise {A B} (m : M A) (f : A -> M B) st e :
  m st = Raise e -> bind m f st = Raise e.
Proof. unfold bind; intros ->; reflexivity. Qed.

Lemma query_raise {A} (q : Store -> Result A) st e :
  q st = Raise e -> query q st = Raise e.
Proof. unfold query, lift; intros ->; reflexivity. Qed.

Lemma lift_raise {A} (r : Result A) st e : r = Raise e -> lift r st = Raise e.
Proof. intros ->; reflexivity. Qed.

Lemma flat_map_nil {A B} (f : A -> list B) (l : list A) :
  (forall x, In x l -> f x = []) -> flat_map f l = [].
Proof.
  induction l as [|x l IH]; simpl; intros H; [reflexivity|].
  rewrite (H x (or_introl eq_refl)), IH; [reflexivity|].
  intros y Hy; apply H; right; exact Hy.
Qed.

(** Every [make] starts with the method of the key. *)
Lemma make_method_raise T env key st e :
  fetch1_processing_method st key = Raise e -> make T env key st = Raise e.
Proof.
  intros H. destruct T; simpl;
    unfold Processing.make, MotionCorrection.make, MotionCorrectedImages.make,
      Segmentation.make, Fluorescence.make;
    apply bind_raise, query_raise; exact H.
Qed.

(** X1: on a key that has no ProcessingTask row, the make step of every
    entity type raises the error of [fetch1] and writes nothing. *)
Theorem make_unknown_task T env key st :
  (forall t, In t (ProcessingTask.rows st) -> TaskRow.key t <> key) ->
  make T env key st = Raise DataJointError.
Proof.
  intros H. apply make_method_raise. unfold fetch1_processing_method.
  rewrite flat_map_nil; [reflexivity|].
  intros m _. apply flat_map_nil. intros t Ht.
  destruct (key_eqb (TaskRow.key t) key) eqn:E.
  - apply key_eqb_eq in E. elim (H t Ht E).
  - rewrite andb_false_r; reflexivity.
Qed.

Lemma make_unknown_task_example :
  Processing.make (env_of true two_planes) k3 store0 = Raise DataJointError
  /\ Fluorescence.make (env_of true two_planes) k3 store0 = Raise DataJointError.
Proof.
  assert (H : forall t, In t (ProcessingTask.rows store0) -> TaskRow.key t <> k3).
  { intros t Ht; simpl in Ht. destruct Ht as [<- | [<- | []]]; discriminate. }
  split.
  - exact (make_unknown_task T_Processing (env_of true two_planes) k3 store0 H).
  - exact (make_unknown_task T_Fluorescence (env_of true two_planes) k3 store0 H).
Defined.

(** X2: when the path function returns [None] for the key, as its body in
    the source does, the make step of every entity type raises TypeError on a
    suite2p key and writes nothing. *)
Theorem make_without_suite2p_dir T env key st :
  fetch1_processing_method st key = Ok "suite2p" ->
  _get_suite2p_dir env key = None ->
  make T env key st = Raise TypeError.
Proof.
  intros Hm Hd. destruct T; simpl;
    unfold Processing.make, MotionCorrection.make, MotionCorrectedImages.make,
      Segmentation.make, Fluorescence.make;
    (erewrite bind_ok by (apply query_ok; exact Hm)); simpl;
    apply bind_raise, lift_raise; rewrite Hd; reflexivity.
Qed.

Lemma make_without_suite2p_dir_example :
  Processing.make (env_default two_planes) k1 store0 = Raise TypeError
  /\ Segmentation.make (env_default two_planes) k1 store0 = Raise TypeError.
Proof.
  split.
  - exact (make_without_suite2p_dir T_Processing (env_default two_planes) k1 store0
             eq_refl eq_refl).
  - exact (make_without_suite2p_dir T_Segmentation (env_default two_planes) k1 store0
             eq_refl eq_refl).
Defined.

Lemma dict_get_missing {V} (d : dict V) (k : Z) :
  (forall it, In it d -> fst it <> k) -> dict_get d k = Raise KeyError.
Proof.
  induction d as [|[k' v] d IH]; simpl; intros H; [reflexivity|].
  destruct (Z.eqb k' k) eqn:E.
  - apply Z.eqb_eq in E. elim (H (k', v) (or_introl eq_refl)); exact E.
  - apply IH; intros it Hit; apply H; right; exact Hit.
Qed.

(** X3: when the loader output has no plane under the key 0, whatever other
    planes it has, MotionCorrection.make and Segmentation.make raise KeyError
    before any row is written. *)
Theorem make_without_plane0 env key st dir l :
  fetch1_processing_method st key = Ok "suite2p" ->
  _get_suite2p_dir env key = Some dir ->
  Suite2p env dir = Ok l ->
  (forall it, In it (suite2p.planes l) -> fst it <> 0%Z) ->
  MotionCorrection.make env key st = Raise KeyError
  /\ Segmentation.make env key st = Raise KeyError.
Proof.
  intros Hm Hd Hl H0. apply dict_get_missing in H0.
  split; unfold MotionCorrection.make, Segmentation.make;
    (erewrite bind_ok by (apply query_ok; exact Hm)); simpl;
    (erewrite bind_ok by (apply lift_ok; rewrite Hd; reflexivity));
    (erewrite bind_ok by (apply lift_ok; exact Hl));
    apply bind_raise, lift_raise; exact H0.
Qed.

Lemma make_without_plane0_example :
  MotionCorrection.make (env_of true from_one) k1 store0 = Raise KeyError
  /\ Segmentation.make (env_of true from_one) k1 store0 = Raise KeyError.
Proof.
  apply (make_without_plane0 (env_of true from_one) k1 store0 dir1 from_one);
    try reflexivity.
  intros it H; simpl in H. destruct H as [<- | [<- | []]]; discriminate.
Defined.

Lemma resolve_all_ok st key its res :
  resolve st key its = Ok res ->
  forall it, In it its -> exists fk, fetch1_field_key st key (fst it) = Ok fk.
Proof.
  revert res; induction its as [|[plane s2p] its IH]; intros res H it Hin; [destruct Hin|].
  apply resolve_cons_inv in H; destruct H as [fk [res' [E [H _]]]].
  destruct Hin as [<- | Hin]; [exists fk; exact E | eapply IH; eassumption].
Qed.

Lemma resolve_raise st key its e : resolve st key its = Raise e -> e = DataJointError.
Proof.
  induction its as [|[plane s2p] its IH]; unfold resolve; simpl; [discriminate|].
  unfold fetch1_field_key at 1, fetch1.
  destruct (flat_map _ (ScanInfo.Field.rows st)) as [|fk [|fk' fks]]; simpl;
    try (intros E; inversion E; reflexivity).
  fold (resolve st key its). destruct (resolve st key its) as [res|e'] eqn:Hr; simpl.
  - discriminate.
  - intros E; inversion E; subst; apply IH; reflexivity.
Qed.

Lemma MotionCorrection_plane_loop_fields env key its : forall st u st',
  MotionCorrection.plane_loop env key its st = Ok (u, st') ->
  forall it, In it its -> exists fk, fetch1_field_key st key (fst it) = Ok fk.
Proof.
  induction its as [|[plane s2p] its IH]; intros st u st' H it Hin; [destruct Hin|].
  simpl in H. peel_as H Hstep.
  destruct Hin as [<- | Hin].
  - unfold MotionCorrection.plane_step in Hstep. peel_as Hstep Hfk. eauto.
  - destruct (IH _ _ _ H it Hin) as [fk Hfk]. exists fk. rewrite <- Hfk. symmetry.
    assert (Hext : extends (written_by T_MotionCorrection key) st st0).
    { apply (MotionCorrection_plane_loop_extends env key [(plane, s2p)] st tt st0).
      simpl; unfold bind; rewrite Hstep; reflexivity. }
    apply extends_app in Hext; destruct Hext as [d [-> Hd]].
    apply fetch1_field_key_frame.
    eapply Forall_impl; [|exact Hd]. intros r; apply written_by_derived.
Qed.

(** X4: when some plane of the loader output has no field, or more than one,
    for the key, neither MotionCorrection.make nor Segmentation.make commits
    a row; on a new suite2p key with [planes[0]] present, Segmentation.make
    raises the error of [fetch1], and the master row it had inserted is
    gone with the transaction. *)
Theorem make_missing_field env key st dir l it :
  _get_suite2p_dir env key = Some dir ->
  Suite2p env dir = Ok l ->
  In it (suite2p.planes l) ->
  (forall fk, fetch1_field_key st key (fst it) <> Ok fk) ->
  (exists e, MotionCorrection.make env key st = Raise e)
  /\ (exists e, Segmentation.make env key st = Raise e)
  /\ (fetch1_processing_method st key = Ok "suite2p" ->
      (exists plane0, dict_get (suite2p.planes l) 0%Z = Ok plane0) ->
      fresh T_Segmentation key st ->
      Segmentation.make env key st = Raise DataJointError).
Proof.
  intros Hd Hl Hin Hbad. split; [|split].
  - destruct (MotionCorrection.make env key st) as [[u st']|e] eqn:H; [|eauto].
    exfalso. unfold MotionCorrection.make in H.
    peel_as H Hm. destruct (a =? "suite2p"); [|discriminate].
    peel_as H Hp. rewrite Hd in Hp; inversion Hp; subst a0.
    peel_as H Hl'. rewrite Hl in Hl'; inversion Hl'; subst a0.
    peel_as H H0. peel_as H Hins. apply insert1_inv in Hins; destruct Hins as [_ ->].
    destruct (MotionCorrection_plane_loop_fields _ _ _ _ _ _ H it Hin) as [fk Hfk].
    rewrite fetch1_field_key_frame in Hfk by (repeat constructor).
    exact (Hbad fk Hfk).
  - destruct (Segmentation.make env key st) as [[u st']|e] eqn:H; [|eauto].
    exfalso. unfold Segmentation.make in H.
    peel_as H Hm. destruct (a =? "suite2p"); [|discriminate].
    peel_as H Hp. rewrite Hd in Hp; inversion Hp; subst a0.
    peel_as H Hl'. rewrite Hl in Hl'; inversion Hl'; subst a0.
    peel_as H H0. peel_as H Hins. apply insert1_inv in Hins; destruct Hins as [_ ->].
    peel_as H Hloop. rewrite Segmentation_plane_loop_eq in Hloop.
    destruct (resolve _ key _) as [res|] eqn:Hres; simpl in Hloop; [|discriminate].
    destruct (resolve_all_ok _ _ _ _ Hres it Hin) as [fk Hfk].
    rewrite fetch1_field_key_frame in Hfk by (repeat constructor).
    exact (Hbad fk Hfk).
  - intros Hm [plane0 H0] Hfresh. unfold Segmentation.make.
    erewrite bind_ok by (apply query_ok; exact Hm). simpl.
    erewrite bind_ok by (apply lift_ok; rewrite Hd; reflexivity).
    erewrite bind_ok by (apply lift_ok; exact Hl).
    erewrite bind_ok by (apply lift_ok; exact H0).
    erewrite bind_ok
      by (apply insert1_ok; eapply fresh_has_pk; [exact Hfresh | reflexivity]).
    apply bind_raise. rewrite Segmentation_plane_loop_eq. unfold dict_items.
    rewrite resolve_frame by (repeat constructor).
    destruct (resolve st key (suite2p.planes l)) as [res|e] eqn:Hres; simpl.
    + destruct (resolve_all_ok _ _ _ _ Hres it Hin) as [fk Hfk]. elim (Hbad fk Hfk).
    + rewrite (resolve_raise _ _ _ _ Hres); reflexivity.
Qed.

Lemma make_missing_field_example :
  (exists e, MotionCorrection.make (env_of true three_planes) k1 store0 = Raise e)
  /\ Segmentation.make (env_of true three_planes) k1 store0 = Raise DataJointError.
Proof.
  destruct (make_missing_field (env_of true three_planes) k1 store0 dir1 three_planes
              (2%Z, plane_b)) as [H1 [_ H3]].
  - reflexivity.
  - reflexivity.
  - right; right; left; reflexivity.
  - intros fk; discriminate.
  - split; [exact H1|]. apply H3; [reflexivity | eexists; reflexivity | fresh_store].
Defined.

Lemma rows_In_store {A} (sel : Row -> list A) (st : Store) (x : A) :
  In x (flat_map sel st) -> exists r, In r st /\ In x (sel r).
Proof. intros H; apply in_flat_map in H; exact H. Qed.

(** A key with a master row has the primary key of that row in the store. *)
Lemma keys_present_has_pk T key st (r : Row) :
  T <> T_MotionCorrectedImages ->
  In key (keys_present T st) ->
  task_of r = Some (T, key) ->
  (forall p, r <> R_ProcessingOutputFile p) ->
  (forall p, r <> R_RigidMotionCorrection p) ->
  (forall p, r <> R_NonRigidMotionCorrection p) ->
  (forall p, r <> R_Block p) ->
  (forall p, r <> R_Mask p) -> (forall p, r <> R_Cell p) -> (forall p, r <> R_Trace p) ->
  has_pk st (pk r) = true.
Proof.
  intros HT Hin Hr N1 N2 N3 N4 N5 N6 N7. apply has_pk_true.
  destruct T; try (elim HT; reflexivity); simpl in Hin;
    try (apply in_map_iff in Hin; destruct Hin as [p [Hk Hin]]);
    apply rows_In_store in Hin; destruct Hin as [r' [Hr' Hsel]];
    destruct r'; simpl in Hsel; try contradiction; destruct Hsel as [<- | []];
    (eexists; split; [exact Hr'|]);
    destruct r; simpl in Hr; try discriminate Hr;
    try (elim (N1 _ eq_refl)); try (elim (N2 _ eq_refl)); try (elim (N3 _ eq_refl));
    try (elim (N4 _ eq_refl)); try (elim (N5 _ eq_refl)); try (elim (N6 _ eq_refl));
    try (elim (N7 _ eq_refl));
    inversion Hr; subst; simpl; congruence.
Qed.

(** X5: a make step never writes for a key that already has its record.
    MotionCorrection.make, Segmentation.make and Fluorescence.make do not
    commit on such a key and Processing.make commits only the empty write of
    an absent directory; when the method is suite2p, the directory exists,
    the loader opens it and (for MotionCorrection and Segmentation)
    [planes[0]] is there, the step raises DuplicateError at its first
    insert. *)
Theorem make_on_present_key T env key st :
  T <> T_MotionCorrectedImages ->
  In key (keys_present T st) ->
  (forall u st', make T env key st = Ok (u, st') -> T = T_Processing /\ st' = st)
  /\ (forall dir l,
         fetch1_processing_method st key = Ok "suite2p" ->
         _get_suite2p_dir env key = Some dir ->
         exists_ env dir = true ->
         Suite2p env dir = Ok l ->
         (T = T_MotionCorrection \/ T = T_Segmentation ->
          exists plane0, dict_get (suite2p.planes l) 0%Z = Ok plane0) ->
         make T env key st = Raise DuplicateError).
Proof.
  intros HT Hin. split.
  - intros u st' H.
    destruct T; try (elim HT; reflexivity); simpl in H.
    + split; [reflexivity|].
      destruct (Processing_make_inv _ _ _ _ _ H) as [-> | [dir [l [d [_ [_ [Hfresh _]]]]]]];
        [reflexivity|].
      rewrite (keys_present_has_pk T_Processing key st) in Hfresh;
        try discriminate; try assumption; reflexivity.
    + exfalso. unfold MotionCorrection.make in H.
      peel_as H Hm. destruct (a =? "suite2p"); [|discriminate].
      peel_as H Hp. peel_as H Hl. peel_as H H0. peel_as H Hins.
      apply insert1_inv in Hins; destruct Hins as [Hfresh _].
      rewrite (keys_present_has_pk T_MotionCorrection key st) in Hfresh;
        try discriminate; try assumption; reflexivity.
    + exfalso. unfold Segmentation.make in H.
      peel_as H Hm. destruct (a =? "suite2p"); [|discriminate].
      peel_as H Hp. peel_as H Hl. peel_as H H0. peel_as H Hins.
      apply insert1_inv in Hins; destruct Hins as [Hfresh _].
      rewrite (keys_present_has_pk T_Segmentation key st) in Hfresh;
        try discriminate; try assumption; reflexivity.
    + exfalso. unfold Fluorescence.make in H.
      peel_as H Hm. destruct (a =? "suite2p"); [|discriminate].
      peel_as H Hp. peel_as H Hl. peel_as H Hins.
      apply insert1_inv in Hins; destruct Hins as [Hfresh _].
      rewrite (keys_present_has_pk T_Fluorescence key st) in Hfresh;
        try discriminate; try assumption; reflexivity.
  - intros dir l Hm Hd He Hl H0.
    assert (Hdup : forall r, task_of r = Some (T, key) ->
                             (forall p, r <> R_ProcessingOutputFile p) ->
                             (forall p, r <> R_RigidMotionCorrection p) ->
                             (forall p, r <> R_NonRigidMotionCorrection p) ->
                             (forall p, r <> R_Block p) ->
                             (forall p, r <> R_Mask p) -> (forall p, r <> R_Cell p) ->
                             (forall p, r <> R_Trace p) ->
                             forall k : unit -> M unit,
                               bind (insert1 r) k st = Raise DuplicateError).
    { intros r Hr N1 N2 N3 N4 N5 N6 N7 k. apply bind_raise. unfold insert1.
      rewrite (keys_present_has_pk T key st r); auto. }
    destruct T; try (elim HT; reflexivity); simpl;
      unfold Processing.make, MotionCorrection.make, Segmentation.make, Fluorescence.make;
      (erewrite bind_ok by (apply query_ok; exact Hm)); simpl;
      (erewrite bind_ok by (apply lift_ok; rewrite Hd; reflexivity));
      rewrite ?He;
      (erewrite bind_ok by (apply lift_ok; exact Hl)).
    + apply Hdup; try discriminate; reflexivity.
    + destruct H0 as [plane0 H0]; [left; reflexivity|].
      erewrite bind_ok by (apply lift_ok; exact H0).
      apply Hdup; try discriminate; reflexivity.
    + destruct H0 as [plane0 H0]; [right; reflexivity|].
      erewrite bind_ok by (apply lift_ok; exact H0).
      apply Hdup; try discriminate; reflexivity.
    + apply Hdup; try discriminate; reflexivity.
Qed.

Lemma make_on_present_key_example :
  exists st1,
    Segmentation.make (env_of true two_planes) k1 store0 = Ok (tt, st1)
    /\ Segmentation.make (env_of true two_planes) k1 st1 = Raise DuplicateError.
Proof.
  eexists; split; [vm_compute; reflexivity|].
  match goal with
  | |- Segmentation.make ?e ?k ?s = _ =>
      change (make T_Segmentation e k s = Raise DuplicateError)
  end.
  refine (proj2 (make_on_present_key T_Segmentation (env_of true two_planes) k1 _ _ _)
                dir1 two_planes _ _ _ _ _);
    first [ discriminate
          | reflexivity
          | (left; reflexivity)
          | (intros _; eexists; reflexivity) ].
Defined.

Lemma written_by_other_table T T' k r :
  written_by T k r -> T' <> T -> keys_present T' [r] = [].
Proof.
  intros [Hr | [-> [f ->]]] HT; [|destruct T'; reflexivity].
  destruct T', r; simpl in Hr |- *; try reflexivity; try discriminate Hr;
    inversion Hr; subst; elim HT; reflexivity.
Qed.

(** X6: a committed make step keeps every row that was there and appends
    only rows of its own entity type under its own key (Processing also
    registers files): the lookup and manual tables, the records of the other
    entity types and the key source of Processing are as before. *)
Theorem make_writes_own_tables T env k st u st' :
  make T env k st = Ok (u, st') ->
  exists d,
    st' = st ++ d
    /\ Forall (written_by T k) d
    /\ ProcessingMethod.rows st' = ProcessingMethod.rows st
    /\ ProcessingTask.rows st' = ProcessingTask.rows st
    /\ ScanInfo.rows st' = ScanInfo.rows st
    /\ ScanInfo.Field.rows st' = ScanInfo.Field.rows st
    /\ Processing.key_source st' = Processing.key_source st
    /\ forall T', T' <> T -> keys_present T' st' = keys_present T' st.
Proof.
  intros H. apply make_extends in H.
  destruct (extends_app _ _ _ H) as [d [-> Hd]]. exists d.
  assert (Hder : Forall derived d)
    by (eapply Forall_impl; [|exact Hd]; intros r; apply written_by_derived).
  destruct (computed_rows_frame st d Hder) as [E1 [E2 [E3 E4]]].
  repeat (split; [assumption || reflexivity|]).
  split; [unfold Processing.key_source; rewrite E2, E3; reflexivity|].
  intros T' HT. rewrite keys_present_app.
  assert (E : keys_present T' d = []); [|rewrite E; apply app_nil_r].
  clear -Hd HT. induction Hd as [|r d Hr _ IH]; [destruct T'; reflexivity|].
  change (r :: d) with ([r] ++ d).
  rewrite keys_present_app, IH, (written_by_other_table T T' k r Hr HT); reflexivity.
Qed.

Lemma make_writes_own_tables_example :
  exists st',
    Fluorescence.make (env_of true two_planes) k1 store0 = Ok (tt, st')
    /\ ProcessingTask.rows st' = ProcessingTask.rows store0
    /\ Segmentation.rows st' = []
    /\ Processing.key_source st' = [k1; k2].
Proof.
  destruct (Fluorescence.make (env_of true two_planes) k1 store0) as [[[] st']|] eqn:H;
    [|discriminate H].
  exists st'. split; [reflexivity|].
  destruct (make_writes_own_tables T_Fluorescence (env_of true two_planes) k1 store0 tt st' H)
    as [d [_ [_ [_ [E2 [_ [_ [Eks Hother]]]]]]]].
  split; [exact E2|]. split.
  - assert (E : keys_present T_Segmentation st' = keys_present T_Segmentation store0)
      by (apply Hother; discriminate).
    simpl in E. destruct (Segmentation.rows st'); [reflexivity | discriminate E].
  - rewrite Eks; reflexivity.
Defined.

Lemma extends_In P st st' r : extends P st st' -> In r st -> In r st'.
Proof.
  intros H Hin; apply extends_app in H; destruct H as [d [-> _]].
  apply in_or_app; left; exact Hin.
Qed.

Lemma keys_present_In T st r k :
  In r st -> keys_present T [r] = [k] -> In k (keys_present T st).
Proof.
  intros Hin Hk. apply in_split in Hin; destruct Hin as [l1 [l2 ->]].
  change (r :: l2) with ([r] ++ l2). rewrite !keys_present_app, Hk.
  apply in_or_app; right; left; reflexivity.
Qed.

(** X7: a committed make step either wrote nothing or left a record of its
    key, so that the key is not eligible again; MotionCorrection,
    Segmentation and Fluorescence always leave their master row, and after
    MotionCorrection the key is in the key source of MotionCorrectedImages. *)
Theorem make_commit_leaves_record T env key st u st' :
  make T env key st = Ok (u, st') ->
  (st' = st \/ In key (keys_present T st'))
  /\ (T = T_MotionCorrection \/ T = T_Segmentation \/ T = T_Fluorescence ->
      In key (keys_present T st'))
  /\ (T = T_MotionCorrection -> In key (MotionCorrectedImages.key_source st')).
Proof.
  intros H.
  assert (Hmaster :
            T = T_MotionCorrection \/ T = T_Segmentation \/ T = T_Fluorescence ->
            In key (keys_present T st')).
  { intros [-> | [-> | ->]]; simpl in H.
    - unfold MotionCorrection.make in H.
      peel_as H Hm. destruct (a =? "suite2p"); [|discriminate].
      peel_as H Hp. peel_as H Hl. peel_as H H0. peel_as H Hins.
      apply insert1_inv in Hins; destruct Hins as [_ ->].
      apply MotionCorrection_plane_loop_extends in H.
      eapply keys_present_In;
        [eapply extends_In; [exact H | apply in_or_app; right; left; reflexivity]|].
      reflexivity.
    - apply Segmentation_make_extends in H as Hext. unfold Segmentation.make in H.
      peel_as H Hm. destruct (a =? "suite2p"); [|discriminate].
      peel_as H Hp. peel_as H Hl. peel_as H H0. peel_as H Hins.
      apply insert1_inv in Hins; destruct Hins as [_ ->].
      peel_as H Hloop. rewrite Segmentation_plane_loop_eq in Hloop.
      destruct (resolve _ key _) as [res|]; simpl in Hloop; [|discriminate].
      inversion Hloop; subst; clear Hloop.
      peel_as H Hmask.
      apply (insert_extends (fun _ => True)) in Hmask; [|apply Forall_forall; auto].
      apply (insert_extends (fun _ => True)) in H; [|apply Forall_forall; auto].
      eapply keys_present_In;
        [eapply extends_In;
         [exact (extends_trans _ _ _ _ Hmask H) | apply in_or_app; right; left; reflexivity]|].
      reflexivity.
    - unfold Fluorescence.make in H.
      peel_as H Hm. destruct (a =? "suite2p"); [|discriminate].
      peel_as H Hp. peel_as H Hl. peel_as H Hins.
      apply insert1_inv in Hins; destruct Hins as [_ ->].
      apply (insert_extends (fun _ => True)) in H; [|apply Forall_forall; auto].
      eapply keys_present_In;
        [eapply extends_In; [exact H | apply in_or_app; right; left; reflexivity]|].
      reflexivity. }
  split; [|split; [exact Hmaster | intros ->; apply (Hmaster (or_introl eq_refl))]].
  destruct T; simpl in H.
  - destruct (Processing_make_inv _ _ _ _ _ H) as [-> | [dir [l [d [_ [_ [_ [-> _]]]]]]]];
      [left; reflexivity | right].
    eapply (keys_present_In T_Processing);
      [apply in_or_app; right; left; reflexivity | reflexivity].
  - right; apply Hmaster; auto.
  - unfold MotionCorrectedImages.make in H.
    peel_as H Hm. destruct (a =? "suite2p"); [|discriminate].
    peel_as H Hp. peel_as H Hl. peel_as H Hits.
    destruct a2 as [|[plane s2p] its]; simpl in H.
    + apply ret_inv in H; destruct H as [_ ->]; left; reflexivity.
    + right. peel_as H Hfk. apply fetch1_field_key_inv in Hfk; destruct Hfk as [Hk _].
      peel_as H Hins. apply insert1_inv in Hins; destruct Hins as [_ ->].
      apply MotionCorrectedImages_plane_loop_extends in H.
      eapply keys_present_In;
        [eapply extends_In; [exact H | apply in_or_app; right; left; reflexivity]|].
      simpl; rewrite Hk; reflexivity.
  - right; apply Hmaster; auto.
  - right; apply Hmaster; auto.
Qed.

Lemma make_commit_leaves_record_example :
  exists st',
    MotionCorrection.make (env_of true two_planes) k1 store0 = Ok (tt, st')
    /\ In k1 (keys_present T_MotionCorrection st')
    /\ In k1 (MotionCorrectedImages.key_source st').
Proof.
  destruct (MotionCorrection.make (env_of true two_planes) k1 store0) as [[[] st']|] eqn:H;
    [|discriminate H].
  exists st'. split; [reflexivity|].
  destruct (make_commit_leaves_record T_MotionCorrection (env_of true two_planes) k1
              store0 tt st' H) as [_ [H1 H2]].
  split; [apply H1; left; reflexivity | apply H2; reflexivity].
Defined.

(** ** Processing: the output files *)

Lemma relative_to_spec (root : Path) : forall p rel,
  relative_to p root = Ok rel <-> p = root ++ rel.
Proof.
  induction root as [|r rs IH]; intros p rel.
  - destruct p; simpl; (split; intros E; [inversion E | subst]; reflexivity).
  - destruct p as [|c cs]; simpl; [split; discriminate|].
    destruct (c =? r) eqn:E.
    + apply String.eqb_eq in E; subst c. rewrite IH.
      split; [intros ->; reflexivity | intros H; inversion H; reflexivity].
    + apply String.eqb_neq in E. split; [discriminate|].
      intros H; inversion H; subst; elim E; reflexivity.
Qed.

Lemma relative_to_raise (root p : Path) e : relative_to p root = Raise e -> e = ValueError.
Proof.
  revert p; induction root as [|r rs IH]; intros p; [destruct p; discriminate|].
  destruct p as [|c cs]; simpl; [intros E; inversion E; reflexivity|].
  destruct (c =? r); [apply IH | intros E; inversion E; reflexivity].
Qed.

Lemma rmap_Forall2 {A B} (f : A -> Result B) (l : list A) (l' : list B) :
  Forall2 (fun x y => f x = Ok y) l l' -> rmap f l = Ok l'.
Proof.
  induction 1 as [|x y l l' Hxy _ IH]; simpl; [reflexivity|].
  rewrite Hxy; simpl; rewrite IH; reflexivity.
Qed.

Lemma rmap_raise {A B} (f : A -> Result B) (l : list A) (x : A) (e : exn) :
  In x l -> f x = Raise e ->
  (forall y e', f y = Raise e' -> e' = e) ->
  rmap f l = Raise e.
Proof.
  intros Hin Hx Hall; induction l as [|y l IH]; [destruct Hin|]; simpl.
  destruct (f y) as [b|e'] eqn:Hy; simpl.
  - destruct Hin as [-> | Hin]; [congruence|]. rewrite (IH Hin); reflexivity.
  - rewrite (Hall _ _ Hy); reflexivity.
Qed.

(** [insert(..., skip_duplicates=True)] always goes through: it appends the
    rows that are new and leaves every row's primary key in the store. *)
Lemma insert_skip_duplicates_ok (rows : list Row) : forall st,
  exists d,
    insert_skip_duplicates rows st = Ok (tt, st ++ d)
    /\ incl d rows
    /\ (forall r, In r rows -> has_pk (st ++ d) (pk r) = true)
    /\ (forall r, In r d -> has_pk st (pk r) = false).
Proof.
  induction rows as [|r rows IH]; intros st; simpl.
  - exists []; rewrite app_nil_r. repeat split; [apply incl_refl | intros r [] | intros r []].
  - unfold bind. destruct (has_pk st (pk r)) eqn:E.
    + destruct (IH st) as [d [H1 [H2 [H3 H4]]]]. exists d. rewrite H1.
      repeat split; auto.
      * apply incl_tl; exact H2.
      * intros r' [<- | Hr']; [rewrite has_pk_app, E; reflexivity | apply H3; exact Hr'].
    + destruct (IH (st ++ [r])) as [d [H1 [H2 [H3 H4]]]]. exists (r :: d).
      rewrite H1, <- app_assoc. repeat split.
      * apply incl_cons; [left; reflexivity | apply incl_tl; exact H2].
      * intros r' [<- | Hr'].
        -- rewrite has_pk_app. apply orb_true_iff; right.
           unfold has_pk; simpl. destruct (pk_eq_dec (pk r) (pk r)); [reflexivity | congruence].
        -- specialize (H3 r' Hr'). rewrite <- app_assoc in H3; exact H3.
      * intros r' [<- | Hr']; [exact E|].
        specialize (H4 r' Hr'). rewrite has_pk_app in H4.
        apply orb_false_iff in H4; tauto.
Qed.

Lemma pk_PhysicalFile r f : pk r = pk (R_PhysicalFile f) -> r = R_PhysicalFile f.
Proof.
  destruct r; simpl; intros E; try discriminate E;
    try (unfold field_atoms, task_atoms in E; simpl in E; discriminate E).
  inversion E; reflexivity.
Qed.

Lemma PhysicalFile_rows_In st f : In f (PhysicalFile.rows st) <-> In (R_PhysicalFile f) st.
Proof.
  unfold PhysicalFile.rows; rewrite in_flat_map; split.
  - intros [r [Hr Hf]]; destruct r; simpl in Hf; try contradiction.
    destruct Hf as [<- | []]; exact Hr.
  - intros H; exists (R_PhysicalFile f); split; [exact H | left; reflexivity].
Qed.

(** X8: when the directory exists and every regular file in it lies under
    the root, Processing.make on a new key commits the Processing row, one
    ProcessingOutputFile row per regular file under its path relative to the
    root, and registers exactly the paths that PhysicalFile did not have:
    afterwards every output file path is a PhysicalFile. *)
Theorem Processing_make_registers_files env key st dir l root rels :
  fetch1_processing_method st key = Ok "suite2p" ->
  _get_suite2p_dir env key = Some dir ->
  exists_ env dir = true ->
  Suite2p env dir = Ok l ->
  _get_root_data_dir env = Some root ->
  Forall2 (fun f rel => f = root ++ rel) (filter (is_file env) (glob_star env dir)) rels ->
  NoDup (map as_posix rels) ->
  fresh T_Processing key st ->
  exists st',
    Processing.make env key st = Ok (tt, st')
    /\ Processing.rows st' = Processing.rows st ++ [Processing_row key l]
    /\ Processing.ProcessingOutputFile.rows st'
       = Processing.ProcessingOutputFile.rows st
           ++ map (fun f => {| OutputFileRow.key := key; OutputFileRow.file_path := f |})
                  (map as_posix rels)
    /\ (forall f, In f (PhysicalFile.rows st')
                  <-> In f (PhysicalFile.rows st) \/ In f (map as_posix rels))
    /\ (forall o, In o (Processing.ProcessingOutputFile.rows st') ->
                  OutputFileRow.key o = key ->
                  In (OutputFileRow.file_path o) (PhysicalFile.rows st')).
Proof.
  intros Hm Hd He Hl Hroot Hfiles ND Hfresh.
  set (files := map as_posix rels) in *.
  set (proc := R_Processing (Processing_row key l)).
  assert (Hrmap : rmap (fun f => rbind (relative_to f root) (fun p => Ok (as_posix p)))
                       (filter (is_file env) (glob_star env dir)) = Ok files).
  { apply rmap_Forall2. unfold files. clear -Hfiles.
    induction Hfiles as [|f rel fs rels Hf _ IH]; simpl; constructor; [|exact IH].
    rewrite (proj2 (relative_to_spec root f rel) Hf); reflexivity. }
  destruct (insert_skip_duplicates_ok (map R_PhysicalFile files) (st ++ [proc]))
    as [d [Hskip [Hincl [Hall Hnew]]]].
  assert (Hd_phys : forall r, In r d -> exists f, r = R_PhysicalFile f /\ In f files).
  { intros r Hr. apply Hincl in Hr. apply in_map_iff in Hr.
    destruct Hr as [f [<- Hf]]; eauto. }
  set (outs := map (fun f => R_ProcessingOutputFile
                               {| OutputFileRow.key := key; OutputFileRow.file_path := f |})
                   files).
  exists (((st ++ [proc]) ++ d) ++ outs).
  assert (Hviews_d : forall (A : Type) (sel : Row -> list A),
             (forall f, sel (R_PhysicalFile f) = []) -> flat_map sel d = []).
  { intros A sel Hsel. apply flat_map_nil. intros r Hr.
    destruct (Hd_phys r Hr) as [f [-> _]]. apply Hsel. }
  split; [|split; [|split; [|split]]].
  - unfold Processing.make.
    erewrite bind_ok by (apply query_ok; exact Hm). simpl.
    erewrite bind_ok by (apply lift_ok; rewrite Hd; reflexivity).
    rewrite He.
    erewrite bind_ok by (apply lift_ok; exact Hl).
    erewrite bind_ok
      by (apply insert1_ok; eapply fresh_has_pk; [exact Hfresh | reflexivity]).
    erewrite bind_ok by (apply lift_ok; rewrite Hroot; reflexivity).
    erewrite bind_ok by (apply lift_ok; exact Hrmap).
    fold proc. erewrite bind_ok by exact Hskip.
    apply insert_ok.
    + unfold outs; rewrite map_map. apply NoDup_map_via with (g := fun f : string => f);
        [|rewrite map_id; exact ND].
      intros a b E; simpl in E. inversion E; reflexivity.
    + intros r Hr. unfold outs in Hr. apply in_map_iff in Hr; destruct Hr as [f [<- Hf]].
      apply has_pk_false; intros r' Hin E.
      apply in_app_or in Hin; destruct Hin as [Hin | Hin];
        [apply in_app_or in Hin; destruct Hin as [Hin | [<- | []]]|].
      * apply pk_task_of in E; simpl in E. exact (Hfresh r' Hin E).
      * discriminate E.
      * destruct (Hd_phys r' Hin) as [f' [-> _]]. discriminate E.
  - unfold Processing.rows. rewrite !flat_map_app, Hviews_d by reflexivity.
    unfold outs; rewrite (flat_map_map_nil _ _ files) by reflexivity.
    rewrite !app_nil_r; reflexivity.
  - unfold Processing.ProcessingOutputFile.rows.
    rewrite !flat_map_app, Hviews_d by reflexivity.
    unfold outs.
    rewrite (flat_map_map_single
               _ (fun f => R_ProcessingOutputFile
                             {| OutputFileRow.key := key; OutputFileRow.file_path := f |})
               (fun f => {| OutputFileRow.key := key; OutputFileRow.file_path := f |}))
      by reflexivity.
    simpl; rewrite !app_nil_r; reflexivity.
  - intros f. rewrite !PhysicalFile_rows_In. split.
    + intros Hin.
      apply in_app_or in Hin; destruct Hin as [Hin | Hin];
        [apply in_app_or in Hin; destruct Hin as [Hin | Hin];
         [apply in_app_or in Hin; destruct Hin as [Hin | [Hin | []]]|]|].
      * left; exact Hin.
      * discriminate Hin.
      * destruct (Hd_phys _ Hin) as [f' [E Hf']]. inversion E; subst; right; exact Hf'.
      * unfold outs in Hin. apply in_map_iff in Hin.
        destruct Hin as [f' [E _]]; discriminate E.
    + intros [Hin | Hin].
      * apply in_or_app; left. apply in_or_app; left. apply in_or_app; left; exact Hin.
      * specialize (Hall (R_PhysicalFile f) (in_map _ _ _ Hin)).
        apply has_pk_true in Hall. destruct Hall as [r [Hr E]].
        apply pk_PhysicalFile in E; subst r. apply in_or_app; left; exact Hr.
  - intros o Ho Hk. apply PhysicalFile_rows_In.
    unfold Processing.ProcessingOutputFile.rows in Ho.
    apply in_flat_map in Ho; destruct Ho as [r [Hr Hsel]].
    destruct r; simpl in Hsel; try contradiction. destruct Hsel as [<- | []].
    apply in_app_or in Hr; destruct Hr as [Hr | Hr];
      [apply in_app_or in Hr; destruct Hr as [Hr | Hr];
       [apply in_app_or in Hr; destruct Hr as [Hr | [Hr | []]]|]|].
    + exfalso. apply (Hfresh _ Hr). simpl; rewrite Hk; reflexivity.
    + discriminate Hr.
    + destruct (Hd_phys _ Hr) as [f' [E _]]; discriminate E.
    + unfold outs in Hr. apply in_map_iff in Hr. destruct Hr as [f [E Hf]].
      inversion E; subst; simpl.
      specialize (Hall (R_PhysicalFile f) (in_map _ _ _ Hf)).
      apply has_pk_true in Hall. destruct Hall as [r' [Hr' E']].
      apply pk_PhysicalFile in E'; subst r'. apply in_or_app; left; exact Hr'.
Qed.

Lemma Processing_make_registers_files_example :
  exists st',
    Processing.make (env_of true two_planes) k1 store0 = Ok (tt, st')
    /\ map OutputFileRow.file_path (Processing.ProcessingOutputFile.rows st')
       = ["S1/suite2p/ops.npy"]
    /\ In "S1/suite2p/ops.npy" (PhysicalFile.rows st').
Proof.
  destruct (Processing_make_registers_files (env_of true two_planes) k1 store0 dir1
              two_planes ["data"] [["S1"; "suite2p"; "ops.npy"]])
    as [st' [Hmake [_ [Hout [Hphys _]]]]]; try reflexivity.
  - repeat constructor.
  - repeat constructor; simpl; intuition.
  - fresh_store.
  - exists st'. split; [exact Hmake|]. split.
    + rewrite Hout; reflexivity.
    + apply Hphys; right; left; reflexivity.
Defined.

(** X9: when some regular file of the directory does not lie under the
    root, Processing.make on a new key raises ValueError; the Processing row
    it had inserted is gone with the transaction. *)
Theorem Processing_make_file_outside_root env key st dir l root f :
  fetch1_processing_method st key = Ok "suite2p" ->
  _get_suite2p_dir env key = Some dir ->
  exists_ env dir = true ->
  Suite2p env dir = Ok l ->
  _get_root_data_dir env = Some root ->
  fresh T_Processing key st ->
  In f (glob_star env dir) ->
  is_file env f = true ->
  (forall rel, f <> root ++ rel) ->
  Processing.make env key st = Raise ValueError.
Proof.
  intros Hm Hd He Hl Hroot Hfresh Hin Hfile Hout.
  unfold Processing.make.
  erewrite bind_ok by (apply query_ok; exact Hm). simpl.
  erewrite bind_ok by (apply lift_ok; rewrite Hd; reflexivity).
  rewrite He.
  erewrite bind_ok by (apply lift_ok; exact Hl).
  erewrite bind_ok
    by (apply insert1_ok; eapply fresh_has_pk; [exact Hfresh | reflexivity]).
  erewrite bind_ok by (apply lift_ok; rewrite Hroot; reflexivity).
  apply bind_raise, lift_raise.
  assert (Hraise : forall y e, rbind (relative_to y root) (fun p => Ok (as_posix p)) = Raise e ->
                               e = ValueError).
  { intros y e. destruct (relative_to y root) as [p|e'] eqn:E; simpl; [discriminate|].
    intros E'; inversion E'; subst. eapply relative_to_raise; exact E. }
  apply (rmap_raise _ _ f).
  - apply filter_In; split; assumption.
  - destruct (relative_to f root) as [rel|e] eqn:E; simpl.
    + apply relative_to_spec in E. elim (Hout rel E).
    + rewrite (relative_to_raise _ _ _ E); reflexivity.
  - exact Hraise.
Qed.

Lemma Processing_make_file_outside_root_example :
  Processing.make (env_other_root two_planes) k1 store0 = Raise ValueError.
Proof.
  apply (Processing_make_file_outside_root (env_other_root two_planes) k1 store0 dir1
           two_planes ["archive"] (dir1 ++ ["ops.npy"])); try reflexivity.
  - fresh_store.
  - left; reflexivity.
  - intros rel; discriminate.
Defined.

(** ** Fluorescence: the trace keys *)

Lemma channel_traces_ids key c ch Fs Fneus :
  map trace_id (Fluorescence.channel_traces key c ch Fs Fneus)
  = map (fun i => (i, ch)) (seq c (List.length (zip Fs Fneus))).
Proof.
  unfold Fluorescence.channel_traces.
  rewrite map_map, <- seq_shift_add, <- enumerate_fst, !map_map.
  apply map_ext; intros [i [f fneu]]; reflexivity.
Qed.

Lemma plane_traces_ids key c p :
  map trace_id (plane_traces key c p)
  = map (fun i => (i, 0%Z)) (seq c (List.length (zip (suite2p.F p) (suite2p.Fneu p))))
    ++ map (fun i => (i, 1%Z))
           (seq c (List.length (zip (suite2p.F_chan2 p) (suite2p.Fneu_chan2 p)))).
Proof.
  unfold plane_traces. rewrite map_app, channel_traces_ids. f_equal.
  destruct (Nat.eqb _ 0) eqn:E; [|apply channel_traces_ids].
  apply Nat.eqb_eq in E. destruct (suite2p.F_chan2 p); [reflexivity | discriminate E].
Qed.

Lemma plane_loop_trace_ids key vals : forall acc,
  map trace_id (Fluorescence.plane_loop key vals acc)
  = map trace_id acc ++ trace_ids_from (List.length acc) vals.
Proof.
  unfold Fluorescence.plane_loop.
  induction vals as [|p vals IH]; intros acc; simpl; [rewrite app_nil_r; reflexivity|].
  rewrite IH, plane_step_eq, map_app, plane_traces_ids, length_app.
  rewrite <- (length_map trace_id (plane_traces key _ p)), plane_traces_ids.
  rewrite length_app, !length_map, !length_seq, <- !app_assoc, Nat.add_assoc.
  reflexivity.
Qed.

(** X10: in Fluorescence.make the first trace of a plane gets as mask the
    number of traces, of both channels, of the planes before it; within a
    plane the traces of channel 0 and of channel 1 are numbered from that
    same start. *)
Theorem Fluorescence_trace_ids key vals :
  map trace_id (Fluorescence.plane_loop key vals []) = trace_ids_from 0 vals.
Proof. apply (plane_loop_trace_ids key vals []). Qed.




(** ** Segmentation: arrays of unequal length *)

(** X12: Segmentation.make reads [iscell], [cell_prob] and [stat] in step and
    stops at the shortest: a plane contributes as many masks as its shortest
    array has entries, the entries beyond are dropped without an error, and
    the ids still run from 0 without a gap. *)
Theorem Segmentation_make_truncates env key st dir l plane0 :
  fetch1_processing_method st key = Ok "suite2p" ->
  _get_suite2p_dir env key = Some dir ->
  Suite2p env dir = Ok l ->
  dict_get (suite2p.planes l) 0%Z = Ok plane0 ->
  (forall it, In it (suite2p.planes l) ->
              exists fk, fetch1_field_key st key (fst it) = Ok fk) ->
  fresh T_Segmentation key st ->
  let n := fun p => Nat.min (List.length (suite2p.iscell p))
                            (Nat.min (List.length (suite2p.cell_prob p))
                                     (List.length (suite2p.stat p))) in
  let total := list_sum (map (fun it => n (snd it)) (suite2p.planes l)) in
  exists st' new_masks new_cells,
    Segmentation.make env key st = Ok (tt, st')
    /\ Segmentation.Mask.rows st' = Segmentation.Mask.rows st ++ new_masks
    /\ Segmentation.Cell.rows st' = Segmentation.Cell.rows st ++ new_cells
    /\ map MaskRow.mask new_masks = seq 0 total
    /\ map CellRow.mask new_cells = seq 0 total
    /\ map CellRow.is_cell new_cells
       = List.concat (map (fun it => firstn (n (snd it)) (suite2p.iscell (snd it)))
                          (suite2p.planes l)).
Proof.
  intros Hm Hd Hl H0 Hf Hfresh n total.
  destruct (Segmentation_make_ok env key st dir l plane0 Hm Hd Hl H0 Hf Hfresh)
    as [res [Hres Hmake]].
  destruct (Segmentation_rows_views st key plane0 (collect res [])) as [_ [Vm Vc]].
  destruct (collect_spec res []) as [new [E [Hids [Hcell _]]]].
  simpl in E, Hids; rewrite E in *.
  pose proof (resolve_planes _ _ _ _ Hres) as Hsnd.
  assert (Hn : forall p, n_masks p = n p).
  { intros p; unfold n_masks, n, zip; rewrite !length_combine; reflexivity. }
  assert (Htotal : total_masks (map snd res) = total).
  { unfold total_masks, total; rewrite Hsnd, map_map; f_equal.
    apply map_ext; intros it; apply Hn. }
  exists (st ++ Segmentation_rows key plane0 new),
    (map Segmentation.Mask_row new), (map Segmentation.Cell_row new).
  rewrite !map_map; simpl.
  repeat split; try assumption.
  - change (map Segmentation.mask new = seq 0 total); rewrite Hids, Htotal; reflexivity.
  - change (map Segmentation.mask new = seq 0 total); rewrite Hids, Htotal; reflexivity.
  - change (map Segmentation.is_cell new
            = List.concat (map (fun it => firstn (n (snd it)) (suite2p.iscell (snd it)))
                               (suite2p.planes l))).
    rewrite Hcell, Hsnd, map_map; f_equal.
    apply map_ext; intros it; rewrite Hn; reflexivity.
Qed.

Lemma Segmentation_make_truncates_example :
  exists st',
    Segmentation.make (env_of true short_stat) k1 store0 = Ok (tt, st')
    /\ map MaskRow.mask (Segmentation.Mask.rows st') = [0; 1; 2; 3]
    /\ map CellRow.is_cell (Segmentation.Cell.rows st') = [true; false; true; true].
Proof.
  destruct (Segmentation_make_truncates (env_of true short_stat) k1 store0 dir1 short_stat
              (snd (hd (0%Z, plane_b) (suite2p.planes short_stat))))
    as [st' [nm [nc [Hmake [Vm [Vc [Hids [_ Hcells]]]]]]]]; try reflexivity.
  - fields_resolve.
  - fresh_store.
  - exists st'. split; [exact Hmake|]. rewrite Vm, Vc; simpl. split; assumption.
Defined.

(** ** MotionCorrection: the block rows *)

Lemma zip_fst_min {A B} (l : list A) (l' : list B) :
  map fst (zip l l') = firstn (Nat.min (List.length l) (List.length l')) l.
Proof. rewrite zip_fst_firstn; unfold zip; rewrite length_combine; reflexivity. Qed.

Lemma zip_snd_min {A B} (l : list A) (l' : list B) :
  map snd (zip l l') = firstn (Nat.min (List.length l) (List.length l')) l'.
Proof.
  revert l'; induction l as [|x l IH]; intros [|y l']; simpl; try reflexivity.
  f_equal; apply IH.
Qed.

Lemma T_length (a : Ndarray2) : List.length (T a) = ncols a.
Proof. unfold T; rewrite length_map, length_seq; reflexivity. Qed.

(** X13: the block rows of a plane are numbered 0, 1, ... up to the shortest
    of [xblock], [yblock] and the columns of [yoff1] and [xoff1]; the block
    with id j carries [xblock[j]] as block_y and [yblock[j]] as block_x, the
    j-th columns of [yoff1] and [xoff1] as its shifts and their [nanstd] as
    y_std and x_std. *)
Theorem nr_blocks_rows env mc_key s2p :
  let o := suite2p.ops s2p in
  let n := Nat.min (List.length (suite2p.xblock o))
             (Nat.min (List.length (suite2p.yblock o))
                (Nat.min (ncols (suite2p.yoff1 o)) (ncols (suite2p.xoff1 o)))) in
  let blocks := MotionCorrection.nr_blocks env mc_key s2p in
  map BlockRow.block_id blocks = seq 0 n
  /\ map BlockRow.block_y blocks = firstn n (suite2p.xblock o)
  /\ map BlockRow.block_x blocks = firstn n (suite2p.yblock o)
  /\ map BlockRow.y_shifts blocks = firstn n (T (suite2p.yoff1 o))
  /\ map BlockRow.x_shifts blocks = firstn n (T (suite2p.xoff1 o))
  /\ Forall (fun b => BlockRow.key b = mc_key
                      /\ BlockRow.y_std b = nanstd env (BlockRow.y_shifts b)
                      /\ BlockRow.x_std b = nanstd env (BlockRow.x_shifts b)) blocks.
Proof.
  intros o n blocks. subst blocks. unfold MotionCorrection.nr_blocks. fold o.
  set (Z2 := zip (T (suite2p.yoff1 o)) (T (suite2p.xoff1 o))).
  set (Z3 := zip (suite2p.yblock o) Z2).
  set (Z4 := zip (suite2p.xblock o) Z3).
  assert (L2 : List.length Z2 = Nat.min (ncols (suite2p.yoff1 o)) (ncols (suite2p.xoff1 o)))
    by (unfold Z2, zip; rewrite length_combine, !T_length; reflexivity).
  assert (L3 : List.length Z3 = Nat.min (List.length (suite2p.yblock o)) (List.length Z2))
    by (unfold Z3, zip; rewrite length_combine; reflexivity).
  assert (L4 : List.length Z4 = n)
    by (unfold Z4, zip, n; rewrite length_combine; fold (zip (suite2p.yblock o) Z2);
        fold Z3; rewrite L3, L2; reflexivity).
  assert (Hsnd : map snd Z4 = firstn n Z3).
  { unfold Z4; rewrite zip_snd_min. f_equal. unfold n. rewrite L3, L2; reflexivity. }
  assert (Hsnd2 : map snd (map snd Z4) = firstn n Z2).
  { rewrite Hsnd, <- firstn_map. unfold Z3 at 1; rewrite zip_snd_min, firstn_firstn.
    f_equal. unfold n; rewrite L2; lia. }
  repeat split.
  - rewrite map_map, <- L4, <- enumerate_fst. apply map_ext.
    intros [b_id [b_y [b_x [sy sx]]]]; reflexivity.
  - transitivity (map fst Z4).
    + rewrite <- (enumerate_snd Z4) at 2. rewrite !map_map. apply map_ext.
      intros [b_id [b_y [b_x [sy sx]]]]; reflexivity.
    + unfold Z4; rewrite zip_fst_min. f_equal. unfold n; rewrite L3, L2; reflexivity.
  - transitivity (map fst (map snd Z4)).
    + rewrite <- (enumerate_snd Z4) at 2. rewrite !map_map. apply map_ext.
      intros [b_id [b_y [b_x [sy sx]]]]; reflexivity.
    + rewrite Hsnd, <- firstn_map. unfold Z3; rewrite zip_fst_min, firstn_firstn.
      f_equal. unfold n; rewrite L2; lia.
  - transitivity (map fst (map snd (map snd Z4))).
    + rewrite <- (enumerate_snd Z4) at 2. rewrite !map_map. apply map_ext.
      intros [b_id [b_y [b_x [sy sx]]]]; reflexivity.
    + rewrite Hsnd2, <- firstn_map. unfold Z2; rewrite zip_fst_min, firstn_firstn, !T_length.
      f_equal. unfold n; lia.
  - transitivity (map snd (map snd (map snd Z4))).
    + rewrite <- (enumerate_snd Z4) at 2. rewrite !map_map. apply map_ext.
      intros [b_id [b_y [b_x [sy sx]]]]; reflexivity.
    + rewrite Hsnd2, <- firstn_map. unfold Z2; rewrite zip_snd_min, firstn_firstn, !T_length.
      f_equal. unfold n; lia.
  - apply Forall_forall; intros b Hb. apply in_map_iff in Hb.
    destruct Hb as [[b_id [b_y [b_x [sy sx]]]] [<- _]]; simpl; auto.
Qed.

(** * The header of a scan *)

Lemma sappend_nil_r (s : string) : (s ++ "")%string = s.
Proof. induction s as [|c s IH]; simpl; [reflexivity | rewrite IH; reflexivity]. Qed.

Lemma sappend_assoc (a b c : string) : ((a ++ b) ++ c)%string = (a ++ (b ++ c))%string.
Proof. induction a as [|x a IH]; simpl; [reflexivity | rewrite IH; reflexivity]. Qed.

Lemma occurs_append c (a b : string) : occurs c (a ++ b)%string = occurs c a || occurs c b.
Proof.
  induction a as [|x a IH]; simpl; [reflexivity|]. rewrite IH, orb_assoc; reflexivity.
Qed.

Lemma prefix_nil (s : string) : String.prefix "" s = true.
Proof. destruct s; reflexivity. Qed.

Lemma prefix_cons a s1 c s2 :
  String.prefix (String a s1) (String c s2) = Ascii.eqb c a && String.prefix s1 s2.
Proof.
  simpl. destruct (Ascii.ascii_dec a c) as [->|Hne].
  - rewrite Ascii.eqb_refl; reflexivity.
  - destruct (Ascii.eqb c a) eqn:E; [|reflexivity].
    apply Ascii.eqb_eq in E; subst; elim Hne; reflexivity.
Qed.

(** *** Splitting at line feeds *)

Lemma split_LF_whole (a : string) : forall cur,
  occurs img_loaders.LF a = false ->
  img_loaders.split_from (String img_loaders.LF "") a 0 cur = [(cur ++ a)%string].
Proof.
  induction a as [|c a IH]; intros cur H; [simpl; rewrite sappend_nil_r; reflexivity|].
  simpl in H. apply orb_false_iff in H; destruct H as [Hc Ha].
  cbn [img_loaders.split_from]. rewrite prefix_cons, Hc. cbn [andb].
  rewrite IH by exact Ha. rewrite sappend_assoc; reflexivity.
Qed.

Lemma split_LF_piece (a : string) : forall cur rest,
  occurs img_loaders.LF a = false ->
  img_loaders.split_from (String img_loaders.LF "")
                         (a ++ String img_loaders.LF rest)%string 0 cur
  = (cur ++ a)%string :: img_loaders.split_from (String img_loaders.LF "") rest 0 "".
Proof.
  induction a as [|c a IH]; intros cur rest H.
  - cbn [String.append img_loaders.split_from].
    rewrite prefix_cons, Ascii.eqb_refl, prefix_nil, sappend_nil_r. reflexivity.
  - simpl in H. apply orb_false_iff in H; destruct H as [Hc Ha].
    cbn [String.append img_loaders.split_from]. rewrite prefix_cons, Hc. cbn [andb].
    rewrite IH by exact Ha. rewrite sappend_assoc; reflexivity.
Qed.

Lemma concat_cons2 (sep l l2 : string) (ls : list string) :
  String.concat sep (l :: l2 :: ls) = (l ++ sep ++ String.concat sep (l2 :: ls))%string.
Proof. reflexivity. Qed.

Lemma sappend_char (c : Ascii.ascii) (x : string) : (String c "" ++ x)%string = String c x.
Proof. reflexivity. Qed.

Lemma split_lines (ls : list string) : forall l cur,
  Forall (fun x => occurs img_loaders.LF x = false) (l :: ls) ->
  img_loaders.split_from (String img_loaders.LF "")
                         (String.concat (String img_loaders.LF "") (l :: ls)) 0 cur
  = (cur ++ l)%string :: ls.
Proof.
  induction ls as [|l2 ls IH]; intros l cur H; inversion H as [|? ? Hl Hls]; subst.
  - simpl. apply split_LF_whole; exact Hl.
  - rewrite concat_cons2, sappend_char.
    rewrite split_LF_piece by exact Hl. rewrite IH by exact Hls. reflexivity.
Qed.

Lemma split_LF_trailing (s : string) : forall cur,
  In ""%string (img_loaders.split_from (String img_loaders.LF "")
                                        (s ++ String img_loaders.LF "")%string 0 cur).
Proof.
  induction s as [|c s IH]; intros cur.
  - cbn [String.append img_loaders.split_from].
    rewrite prefix_cons, Ascii.eqb_refl, prefix_nil. right; left; reflexivity.
  - cbn [String.append img_loaders.split_from].
    destruct (String.prefix _ _); [right|]; apply IH.
Qed.

(** *** Splitting a line at [" = "] *)

Lemma prefix_sep_plain c (a rest : string) :
  occurs "="%char (String c a) = false ->
  String.prefix " = " (String c (a ++ " = " ++ rest)%string) = false.
Proof.
  intros H. simpl in H. apply orb_false_iff in H; destruct H as [_ Ha].
  rewrite prefix_cons. destruct (Ascii.eqb c " "); [|reflexivity]. cbn [andb].
  destruct a as [|c' a].
  - reflexivity.
  - simpl in Ha. apply orb_false_iff in Ha; destruct Ha as [Hc' _].
    cbn [String.append]. rewrite prefix_cons, Hc'. reflexivity.
Qed.

Lemma prefix_sep_plain_end c (a : string) :
  occurs "="%char (String c a) = false ->
  String.prefix " = " (String c a) = false.
Proof.
  intros H. simpl in H. apply orb_false_iff in H; destruct H as [_ Ha].
  rewrite prefix_cons. destruct (Ascii.eqb c " "); [|reflexivity]. cbn [andb].
  destruct a as [|c' a]; [reflexivity|].
  simpl in Ha. apply orb_false_iff in Ha; destruct Ha as [Hc' _].
  rewrite prefix_cons, Hc'. reflexivity.
Qed.

Lemma split_sep_whole (a : string) : forall cur,
  occurs "="%char a = false ->
  img_loaders.split_from " = " a 0 cur = [(cur ++ a)%string].
Proof.
  induction a as [|c a IH]; intros cur H; [simpl; rewrite sappend_nil_r; reflexivity|].
  cbn [img_loaders.split_from]. rewrite (prefix_sep_plain_end c a H).
  simpl in H. apply orb_false_iff in H; destruct H as [_ Ha].
  rewrite IH by exact Ha. rewrite sappend_assoc; reflexivity.
Qed.

Lemma split_sep_piece (a : string) : forall cur rest,
  occurs "="%char a = false ->
  img_loaders.split_from " = " (a ++ " = " ++ rest)%string 0 cur
  = (cur ++ a)%string :: img_loaders.split_from " = " rest 0 "".
Proof.
  induction a as [|c a IH]; intros cur rest H.
  - simpl. rewrite prefix_nil, sappend_nil_r. reflexivity.
  - change (String c a ++ " = " ++ rest)%string with (String c (a ++ " = " ++ rest)%string).
    cbn [img_loaders.split_from]. rewrite (prefix_sep_plain c a rest H).
    simpl in H. apply orb_false_iff in H; destruct H as [_ Ha].
    rewrite IH by exact Ha. rewrite sappend_assoc; reflexivity.
Qed.

Lemma split_header_line k v :
  occurs "="%char k = false -> occurs "="%char v = false ->
  img_loaders.str_split (header_line (k, v)) " = " = [k; v].
Proof.
  intros Hk Hv. unfold img_loaders.str_split, header_line; simpl fst; simpl snd.
  rewrite split_sep_piece by exact Hk. rewrite split_sep_whole by exact Hv. reflexivity.
Qed.

(** *** The dict of the header *)

Lemma sdict_get_set_same d k v : img_loaders.sdict_get (img_loaders.sdict_set d k v) k = Ok v.
Proof.
  induction d as [|[k' v'] d IH]; simpl; [rewrite String.eqb_refl; reflexivity|].
  destruct (k' =? k) eqn:E; simpl; rewrite E; [reflexivity | exact IH].
Qed.

Lemma sdict_get_set_other d k v k0 :
  k <> k0 ->
  img_loaders.sdict_get (img_loaders.sdict_set d k v) k0 = img_loaders.sdict_get d k0.
Proof.
  intros Hne. apply String.eqb_neq in Hne.
  induction d as [|[k' v'] d IH]; simpl; [rewrite Hne; reflexivity|].
  destruct (k' =? k) eqn:E; simpl.
  - apply String.eqb_eq in E; subst k'. rewrite Hne; reflexivity.
  - destruct (k' =? k0); [reflexivity | exact IH].
Qed.

Lemma sdict_set_In d k v k0 v0 :
  In (k0, v0) (img_loaders.sdict_set d k v) -> k0 = k \/ In (k0, v0) d.
Proof.
  induction d as [|[k' v'] d IH]; simpl.
  - intros [E | []]; inversion E; left; reflexivity.
  - destruct (k' =? k) eqn:E; simpl.
    + apply String.eqb_eq in E; subst k'.
      intros [H | H]; [inversion H; left; reflexivity | right; right; exact H].
    + intros [H | H]; [right; left; exact H|].
      destruct (IH H) as [-> | H']; [left; reflexivity | right; right; exact H'].
Qed.

Lemma sdict_get_missing d k :
  (forall k0 v0, In (k0, v0) d -> k0 <> k) -> img_loaders.sdict_get d k = Raise KeyError.
Proof.
  induction d as [|[k' v'] d IH]; simpl; intros H; [reflexivity|].
  destruct (k' =? k) eqn:E.
  - apply String.eqb_eq in E. elim (H k' v' (or_introl eq_refl) E).
  - apply IH; intros k0 v0 Hin; apply (H k0 v0); right; exact Hin.
Qed.

Lemma parse_items_lines kvs : forall d,
  Forall (fun kv => plain (fst kv) /\ plain (snd kv)) kvs ->
  img_loaders.parse_items (map header_line kvs) d = Ok (header_dict kvs d).
Proof.
  induction kvs as [|[k v] kvs IH]; intros d H; [reflexivity|].
  inversion H as [|? ? [[Hk _] [Hv _]] Hrest]; subst.
  cbn [map img_loaders.parse_items]. simpl fst in *; simpl snd in *.
  rewrite (split_header_line k v Hk Hv). apply IH; exact Hrest.
Qed.

Lemma header_line_no_LF kv :
  plain (fst kv) -> plain (snd kv) -> occurs img_loaders.LF (header_line kv) = false.
Proof.
  intros [_ Hk] [_ Hv]. unfold header_line. rewrite !occurs_append, Hk, Hv. reflexivity.
Qed.

Lemma parse_render kvs :
  kvs <> [] ->
  Forall (fun kv => plain (fst kv) /\ plain (snd kv)) kvs ->
  img_loaders.parse_scanimage_header (render_header kvs) = Ok (header_dict kvs []).
Proof.
  intros Hne H. unfold img_loaders.parse_scanimage_header, render_header,
    img_loaders.str_split; simpl img_loaders.header.
  destruct kvs as [|kv kvs]; [elim Hne; reflexivity|].
  change (map header_line (kv :: kvs)) with (header_line kv :: map header_line kvs).
  rewrite split_lines.
  - change (("" ++ header_line kv)%string :: map header_line kvs)
      with (map header_line (kv :: kvs)).
    apply parse_items_lines; exact H.
  - change (header_line kv :: map header_line kvs) with (map header_line (kv :: kvs)).
    apply Forall_map. eapply Forall_impl; [|exact H].
    intros x [Hk Hv]; apply header_line_no_LF; assumption.
Qed.

Lemma header_dict_last kvs2 : forall d k v,
  img_loaders.sdict_get d k = Ok v ->
  (forall kv, In kv kvs2 -> img_loaders.str_replace (fst kv) "." "_" <> k) ->
  img_loaders.sdict_get (header_dict kvs2 d) k = Ok v.
Proof.
  induction kvs2 as [|kv kvs2 IH]; intros d k v Hd Hn; [exact Hd|].
  simpl. apply IH.
  - rewrite sdict_get_set_other; [exact Hd | apply Hn; left; reflexivity].
  - intros kv' Hin; apply Hn; right; exact Hin.
Qed.

Lemma header_dict_lookup kvs1 k v kvs2 :
  (forall kv, In kv kvs2 ->
              img_loaders.str_replace (fst kv) "." "_" <> img_loaders.str_replace k "." "_") ->
  img_loaders.sdict_get (header_dict (kvs1 ++ (k, v) :: kvs2) [])
                        (img_loaders.str_replace k "." "_") = Ok v.
Proof.
  intros Hn. unfold header_dict. rewrite fold_left_app. simpl.
  apply header_dict_last; [apply sdict_get_set_same | exact Hn].
Qed.

(** X14: a header written one [key = value] per line, keys and values
    without ['='] and line feed, parses; each key is found under its name
    with every dot turned into an underscore, and gives the value of the
    last line that has this name. *)
Theorem parse_scanimage_header_lookup kvs1 k v kvs2 :
  Forall (fun kv => plain (fst kv) /\ plain (snd kv)) (kvs1 ++ (k, v) :: kvs2) ->
  (forall kv, In kv kvs2 ->
              img_loaders.str_replace (fst kv) "." "_" <> img_loaders.str_replace k "." "_") ->
  exists d,
    img_loaders.parse_scanimage_header (render_header (kvs1 ++ (k, v) :: kvs2)) = Ok d
    /\ img_loaders.sdict_get d (img_loaders.str_replace k "." "_") = Ok v.
Proof.
  intros H Hn. eexists; split.
  - apply parse_render; [destruct kvs1; discriminate | exact H].
  - apply header_dict_lookup; exact Hn.
Qed.

Lemma parse_scanimage_header_lookup_example :
  exists d,
    img_loaders.parse_scanimage_header
      {| img_loaders.header :=
           String.concat (String img_loaders.LF "")
             ["SI.hChannels.channelSave = 1"; "SI.hRoiManager.scanFrameRate = 30";
              "SI.hChannels.channelSave = [1;2]"] |} = Ok d
    /\ img_loaders.sdict_get d "SI_hChannels_channelSave" = Ok "[1;2]"%string
    /\ img_loaders.sdict_get d "SI_hRoiManager_scanFrameRate" = Ok "30"%string.
Proof.
  destruct (parse_scanimage_header_lookup
              [("SI.hChannels.channelSave", "1"); ("SI.hRoiManager.scanFrameRate", "30")]
              "SI.hChannels.channelSave" "[1;2]" [])%string as [d [Hd Hget]].
  - repeat constructor.
  - intros kv [].
  - exists d. split; [exact Hd|]. split; [exact Hget|].
    vm_compute in Hd. inversion Hd; reflexivity.
Defined.

Lemma parse_items_empty_item items : forall d,
  In ""%string items -> img_loaders.parse_items items d = Raise ValueError.
Proof.
  induction items as [|item items IH]; intros d Hin; [destruct Hin|].
  cbn [img_loaders.parse_items].
  destruct (img_loaders.str_split item " = ") as [|k [|v [|x l]]] eqn:E; try reflexivity.
  destruct Hin as [-> | Hin]; [vm_compute in E; discriminate E | apply IH; exact Hin].
Qed.

(** X15: a header that ends with a line feed, and the empty header, do not
    parse: the last item of the split is the empty string, which has no
    [" = "], and the unpacking raises ValueError. *)
Theorem parse_scanimage_header_trailing_newline (s : string) :
  img_loaders.parse_scanimage_header
    {| img_loaders.header := (s ++ String img_loaders.LF "")%string |} = Raise ValueError
  /\ img_loaders.parse_scanimage_header {| img_loaders.header := "" |} = Raise ValueError.
Proof.
  split; [|reflexivity].
  unfold img_loaders.parse_scanimage_header, img_loaders.str_split; simpl img_loaders.header.
  apply parse_items_empty_item, split_LF_trailing.
Qed.

Lemma str_replace_no_old (s : string) (old new : Ascii.ascii) :
  old <> new -> occurs old (img_loaders.str_replace s old new) = false.
Proof.
  intros Hne. induction s as [|c s IH]; simpl; [reflexivity|]. rewrite IH, orb_false_r.
  destruct (Ascii.eqb c old) eqn:E; [|exact E].
  apply Ascii.eqb_neq. intros E'; apply Hne; symmetry; exact E'.
Qed.

Lemma parse_items_keys items : forall d d',
  img_loaders.parse_items items d = Ok d' ->
  (forall k v, In (k, v) d -> occurs "."%char k = false) ->
  forall k v, In (k, v) d' -> occurs "."%char k = false.
Proof.
  induction items as [|item items IH]; intros d d' H Hd; simpl in H.
  - inversion H; subst; exact Hd.
  - destruct (img_loaders.str_split item " = ") as [|key [|value [|x l]]];
      try discriminate H.
    apply (IH _ _ H). intros k v Hin. apply sdict_set_In in Hin.
    destruct Hin as [-> | Hin]; [apply str_replace_no_old; discriminate | eapply Hd; exact Hin].
Qed.

(** X16: whatever the header, no key of a parsed header contains a dot. *)
Theorem parse_scanimage_header_keys scan d k v :
  img_loaders.parse_scanimage_header scan = Ok d ->
  In (k, v) d ->
  occurs "."%char k = false.
Proof.
  intros H Hin. unfold img_loaders.parse_scanimage_header in H.
  apply (parse_items_keys _ _ _ H (fun k0 v0 (F : In (k0, v0) []) => match F with end) k v Hin).
Qed.

Lemma parse_scanimage_header_keys_example :
  img_loaders.parse_scanimage_header (render_header [("a.b.c", "1")]%string)
  = Ok [("a_b_c", "1")]%string
  /\ occurs "."%char "a_b_c" = false.
Proof.
  split; [reflexivity|].
  apply (parse_scanimage_header_keys (render_header [("a.b.c", "1")]%string)
           [("a_b_c", "1")]%string "a_b_c" "1"); [reflexivity | left; reflexivity].
Defined.

(** *** The acquisition time *)




Lemma str_replace_fixed (old new : Ascii.ascii) : forall s t,
  img_loaders.str_replace s old new = t -> occurs new t = false -> s = t.
Proof.
  induction s as [|c s IH]; intros t E Ht; simpl in E; [exact E|].
  destruct t as [|c' t]; [discriminate E|]. injection E as Ec Es.
  simpl in Ht. apply orb_false_elim in Ht as [Hc Ht'].
  f_equal; [|apply IH; assumption].
  destruct (Ascii.eqb c old); [|exact Ec].
  subst c'. rewrite Ascii.eqb_refl in Hc; discriminate Hc.
Qed.

Lemma header_dict_keys kvs : forall d k0 v0,
  In (k0, v0) (header_dict kvs d) ->
  (exists v, In (k0, v) d)
  \/ exists kv, In kv kvs /\ k0 = img_loaders.str_replace (fst kv) "." "_".
Proof.
  induction kvs as [|kv kvs IH]; intros d k0 v0 Hin; [left; exists v0; exact Hin|].
  simpl in Hin. destruct (IH _ _ _ Hin) as [[v Hv] | [kv' [Hin' E]]].
  - apply sdict_set_In in Hv. destruct Hv as [-> | Hv].
    + right; exists kv; split; [left; reflexivity | reflexivity].
    + left; exists v; exact Hv.
  - right; exists kv'; split; [right; exact Hin' | exact E].
Qed.



(** X18: with a header of well-formed lines none of which has the key
    [epoch], the acquisition time raises KeyError, and [strptime] is not
    called. *)
Theorem get_scanimage_acq_time_no_epoch {datetime : Type}
        (strptime : string -> string -> Result datetime) kvs :
  kvs <> [] ->
  Forall (fun kv => plain (fst kv) /\ plain (snd kv)) kvs ->
  (forall kv, In kv kvs -> fst kv <> "epoch"%string) ->
  img_loaders.get_scanimage_acq_time strptime (render_header kvs) = Raise KeyError.
Proof.
  intros Hne H Hn. unfold img_loaders.get_scanimage_acq_time.
  rewrite parse_render by assumption. cbn [rbind].
  rewrite sdict_get_missing; [reflexivity|].
  intros k0 v0 Hin E. apply header_dict_keys in Hin.
  destruct Hin as [[v []] | [kv [Hkv Ek]]].
  apply (Hn kv Hkv). subst k0.
  apply (str_replace_fixed _ _ _ _ E). reflexivity.
Qed.

Lemma get_scanimage_acq_time_no_epoch_example :
  img_loaders.get_scanimage_acq_time (fun s _ => Ok s)
    {| img_loaders.header :=
         String.concat (String img_loaders.LF "")
           ["scanimage.SI.VERSION_MAJOR = 2016"; "Epoch = [2016,7,5,12,30,15.250]"] |}
  = Raise KeyError.
Proof.
  apply (get_scanimage_acq_time_no_epoch (fun s _ => Ok s)
           [("scanimage.SI.VERSION_MAJOR", "2016");
            ("Epoch", "[2016,7,5,12,30,15.250]")]%string).
  - discriminate.
  - repeat constructor.
  - intros kv [<- | [<- | []]]; discriminate.
Defined.
